(** * jscheme.js: a Scheme reader, trampolined evaluator and printer

    A shallow embedding of [src/jscheme.js] (the version whose [evaluate]
    runs a trampoline) and the properties of it that the specification
    states.

    Conventions of the embedding.
    - A JavaScript string is a [string]: each character is one code unit in
      the range U+0000..U+00FF.
    - A JavaScript number is an IEEE 754 binary64 value, [spec_float] with
      [prec = 53] and [emax = 1024], rounded to nearest, ties to even.
    - [Environment] objects live in a store and are named by their address;
      every function that can mutate one threads the store.
    - A JavaScript exception is the outcome [Throw]; nothing in the evaluator
      catches one, so it propagates unchanged to the caller of [evaluate].
    - Native recursion is bounded by a stack budget [stk] (frames left), the
      trampoline's [while] loop by [gas] (iterations left). *)

From Stdlib Require Import ZArith Ascii String List Lia SpecFloat DecimalString.
From stdpp Require Import base list strings.
Import ListNotations.

Open Scope string_scope.
Open Scope list_scope.
Open Scope Z_scope.

(** ** Numbers: binary64 *)

Module Float64.

Definition prec : Z := 53.
Definition emax : Z := 1024.

Definition add := SFadd prec emax.
Definition sub := SFsub prec emax.
Definition mul := SFmul prec emax.
Definition div := SFdiv prec emax.
Definition eqb := SFeqb.
Definition ltb := SFltb.

Definition nan : spec_float := S754_nan.
Definition zero : spec_float := S754_zero false.

Definition is_nan (x : spec_float) : bool :=
  match x with S754_nan => true | _ => false end.

Definition is_zero (x : spec_float) : bool :=
  match x with S754_zero _ => true | _ => false end.

(** The binary64 value nearest to the integer [n]. *)
Definition of_Z (n : Z) : spec_float := binary_normalize prec emax n 0 false.

(** The binary64 value nearest to [m * 10^e], for [m >= 0]: the product is
    an integer when [e >= 0], otherwise the quotient [m / 10^(-e)] is
    computed with the position of its remainder and rounded once. *)
Definition of_decimal (m e : Z) : spec_float :=
  match m with
  | Z0 => S754_zero false
  | Zneg _ => S754_nan
  | Zpos _ =>
      match e with
      | Zneg k =>
          let '(q, e', l) := SFdiv_core_binary prec emax m 0 (10 ^ Zpos k) 0 in
          binary_round_aux prec emax false q e' l
      | _ => of_Z (m * 10 ^ e)
      end
  end.

End Float64.

(** ** Strings *)

(** [\s] of a regular expression and the white space of [trim], restricted
    to the code units below 256: TAB, LF, VT, FF, CR, SPACE and NBSP. *)
Definition is_space (c : ascii) : bool :=
  existsb (N.eqb (N_of_ascii c)) [9; 10; 11; 12; 13; 32; 160]%N.

Definition is_digit (c : ascii) : bool :=
  (48 <=? N_of_ascii c)%N && (N_of_ascii c <=? 57)%N.

Definition digit_val (c : ascii) : Z := Z.of_N (N_of_ascii c) - 48.

(** [s.replace(/c/g, by)] for a one-character pattern. *)
Fixpoint replace_all (c : ascii) (by_ : string) (s : string) : string :=
  match s with
  | EmptyString => EmptyString
  | String a r =>
      if Ascii.eqb a c then by_ +:+ replace_all c by_ r
      else String a (replace_all c by_ r)
  end.

Fixpoint trimStart (s : string) : string :=
  match s with
  | String a r => if is_space a then trimStart r else s
  | EmptyString => EmptyString
  end.

Fixpoint trimEnd (s : string) : string :=
  match s with
  | EmptyString => EmptyString
  | String a r =>
      match trimEnd r with
      | EmptyString => if is_space a then EmptyString else String a EmptyString
      | r' => String a r'
      end
  end.

Definition trim (s : string) : string := trimEnd (trimStart s).

Definition starts_with_space (s : string) : bool :=
  match s with
  | String a _ => is_space a
  | EmptyString => false
  end.

(** [s.split(/\s+/)]: the pieces between maximal runs of white space; a run
    at either end of [s] leaves an empty piece there, and the empty string
    splits into one empty piece. *)
Fixpoint split_spaces (s : string) : list string :=
  match s with
  | EmptyString => [EmptyString]
  | String a r =>
      if is_space a then
        if starts_with_space r then split_spaces r
        else EmptyString :: split_spaces r
      else
        match split_spaces r with
        | t :: ts => String a t :: ts
        | [] => [String a EmptyString]
        end
  end.

(** [function tokenize(input)] *)
Definition tokenize (input : string) : list string :=
  split_spaces (trim (replace_all ")" " ) " (replace_all "(" " ( " input))).

(** ** Numeric literals: [parseFloat] and the conversion of a string *)

(** What follows the prefix [p] in [s], when [s] starts with [p]. *)
Fixpoint after_prefix (p s : string) : option string :=
  match p with
  | EmptyString => Some s
  | String a p' =>
      match s with
      | String b s' => if Ascii.eqb a b then after_prefix p' s' else None
      | EmptyString => None
      end
  end.

(** The longest run of decimal digits at the start of [s]: its value, its
    length, and the rest of [s]. *)
Fixpoint scan_digits (s : string) (acc : Z) (len : Z) : Z * Z * string :=
  match s with
  | String a r =>
      if is_digit a then scan_digits r (10 * acc + digit_val a) (len + 1)
      else (acc, len, s)
  | EmptyString => (acc, len, s)
  end.

(** [ExponentPart], when [s] starts with one: [e] or [E], an optional sign
    and at least one digit. Without one the exponent is 0 and nothing is
    consumed. *)
Definition scan_exponent (s : string) : Z * string :=
  match s with
  | String a r =>
      if Ascii.eqb a "e" || Ascii.eqb a "E" then
        let '(negative, digits) :=
          match r with
          | String c r' =>
              if Ascii.eqb c "+" then (false, r')
              else if Ascii.eqb c "-" then (true, r')
              else (false, r)
          | EmptyString => (false, r)
          end in
        let '(v, n, rest) := scan_digits digits 0 0 in
        if 0 <? n then (if negative then - v else v, rest) else (0, s)
      else (0, s)
  | EmptyString => (0, s)
  end.

(** The longest prefix of [s] that is a [StrUnsignedDecimalLiteral]
    ([Infinity], or digits with an optional fraction and exponent, of which
    the integer part or the fraction may be empty but not both): its value
    and the rest of [s]; [None] when no prefix is one. *)
Definition scan_unsigned (s : string) : option (spec_float * string) :=
  match after_prefix "Infinity" s with
  | Some rest => Some (S754_infinity false, rest)
  | None =>
      let '(int_v, int_n, r1) := scan_digits s 0 0 in
      let '(m, frac_n, r3) :=
        match r1 with
        | String c r2 =>
            if Ascii.eqb c "." then scan_digits r2 int_v 0 else (int_v, 0, r1)
        | EmptyString => (int_v, 0, r1)
        end in
      if (int_n + frac_n =? 0) then None
      else
        let '(e, rest) := scan_exponent r3 in
        Some (Float64.of_decimal m (e - frac_n), rest)
  end.

(** The longest prefix of [s] that is a [StrDecimalLiteral]: an optional
    sign and a [StrUnsignedDecimalLiteral]. *)
Definition scan_decimal (s : string) : option (spec_float * string) :=
  match s with
  | String c r =>
      if Ascii.eqb c "-" then
        match scan_unsigned r with
        | Some (x, rest) => Some (SFopp x, rest)
        | None => None
        end
      else if Ascii.eqb c "+" then scan_unsigned r
      else scan_unsigned s
  | EmptyString => None
  end.

(** [parseFloat(string)]: leading white space is skipped, the longest prefix
    that is a [StrDecimalLiteral] gives the value whatever follows it, and
    there being none gives NaN. *)
Definition parseFloat (s : string) : spec_float :=
  match scan_decimal (trimStart s) with
  | Some (x, _) => x
  | None => Float64.nan
  end.

(** The value of the digits of [s] in base [radix], when [s] is only such
    digits. *)
Definition radix_digit (radix : Z) (c : ascii) : option Z :=
  let n := Z.of_N (N_of_ascii c) in
  let d :=
    if (48 <=? n) && (n <=? 57) then n - 48
    else if (97 <=? n) && (n <=? 102) then n - 87
    else if (65 <=? n) && (n <=? 70) then n - 55
    else radix in
  if d <? radix then Some d else None.

Fixpoint scan_radix (radix : Z) (s : string) (acc : Z) : option Z :=
  match s with
  | EmptyString => Some acc
  | String a r =>
      match radix_digit radix a with
      | Some d => scan_radix radix r (radix * acc + d)
      | None => None
      end
  end.

(** [ToNumber] of a string: white space at both ends is dropped; what is
    left is empty (0), a whole [StrDecimalLiteral], or an unsigned integer
    literal in base 16, 8 or 2; anything else is NaN. *)
Definition StringToNumber (s : string) : spec_float :=
  let t := trim s in
  let decimal :=
    match scan_decimal t with
    | Some (x, EmptyString) => x
    | _ => Float64.nan
    end in
  match t with
  | EmptyString => Float64.zero
  | String z (String c (String d r)) =>
      let radix :=
        if negb (Ascii.eqb z "0") then 0
        else if Ascii.eqb c "x" || Ascii.eqb c "X" then 16
        else if Ascii.eqb c "o" || Ascii.eqb c "O" then 8
        else if Ascii.eqb c "b" || Ascii.eqb c "B" then 2
        else 0 in
      if radix =? 0 then decimal
      else
        match scan_radix radix (String d r) 0 with
        | Some n => Float64.of_Z n
        | None => Float64.nan
        end
  | _ => decimal
  end.

(** ** [Number::toString] *)

Module NumberToString.

(** The decimal digits of [n >= 0]. *)
Definition digits (n : Z) : string :=
  DecimalString.NilZero.string_of_uint (N.to_uint (Z.to_N n)).

Fixpoint zeros (n : nat) : string :=
  match n with
  | O => EmptyString
  | S n' => String "0" (zeros n')
  end.

(** A positive finite binary64 value [m * 2^e] as the fraction
    [num / den]. *)
Definition num (m : positive) (e : Z) : Z :=
  match e with Zpos _ => Zpos m * 2 ^ e | _ => Zpos m end.
Definition den (e : Z) : Z :=
  match e with Zneg k => 2 ^ Zpos k | _ => 1 end.

(** [num / den < 10^n] *)
Definition below_pow10 (nu de n : Z) : bool :=
  match n with
  | Zneg k => nu * 10 ^ Zpos k <? de
  | _ => nu <? de * 10 ^ n
  end.

(** The least [n], searched upwards from [n], with [num / den < 10^n]. *)
Fixpoint magnitude (fuel : nat) (nu de n : Z) : Z :=
  match fuel with
  | O => n
  | S fuel' =>
      if below_pow10 nu de n then n else magnitude fuel' nu de (n + 1)
  end.

(** [num / den] and [s * 10^p] compared. *)
Definition compare_scaled (nu de s p : Z) : comparison :=
  match p with
  | Zneg k => (nu * 10 ^ Zpos k ?= s * de)
  | _ => (nu ?= s * 10 ^ p * de)
  end.

(** The integer part of [(num / den) / 10^p]. *)
Definition floor_scaled (nu de p : Z) : Z :=
  match p with
  | Zneg k => (nu * 10 ^ Zpos k) / de
  | _ => nu / (de * 10 ^ p)
  end.

(** For [x = num / den] with [10^(n-1) <= x < 10^n], the integer [s] of
    [k] digits and the exponent [n'] of the shortest decimal [s * 10^(n'-k)]
    that converts back to [x]: [k] is the least possible, and of the two
    candidates next to [x] the nearer one is taken, the even one on a
    tie. *)
Fixpoint shortest (fuel : nat) (x : spec_float) (nu de n k : Z)
  : Z * Z * Z :=
  let p := n - k in
  let lo := floor_scaled nu de p in
  let hi := lo + 1 in
  let ok_lo := (0 <? lo) && SFeqb (Float64.of_decimal lo p) x in
  let ok_hi := SFeqb (Float64.of_decimal hi p) x in
  let pick_hi :=
    if hi =? 10 ^ k then (10 ^ (k - 1), k, n + 1) else (hi, k, n) in
  match fuel with
  | O => (lo, k, n)
  | S fuel' =>
      if ok_lo && ok_hi then
        match compare_scaled (2 * nu) de (2 * lo + 1) p with
        | Lt => (lo, k, n)
        | Gt => pick_hi
        | Eq => if Z.even lo then (lo, k, n) else pick_hi
        end
      else if ok_lo then (lo, k, n)
      else if ok_hi then pick_hi
      else shortest fuel' x nu de n (k + 1)
  end.

(** Steps 6 to 10 of the algorithm: how the digits [s], their number [k]
    and the exponent [n] are laid out. *)
Definition layout (s k n : Z) : string :=
  let ds := digits s in
  if (k <=? n) && (n <=? 21) then
    ds +:+ zeros (Z.to_nat (n - k))
  else if (0 <? n) && (n <=? 21) then
    substring 0 (Z.to_nat n) ds +:+ "." +:+
    substring (Z.to_nat n) (Z.to_nat (k - n)) ds
  else if (-6 <? n) && (n <=? 0) then
    "0." +:+ zeros (Z.to_nat (- n)) +:+ ds
  else
    let e := n - 1 in
    let exponent := (if e <? 0 then "-" else "+") +:+ digits (Z.abs e) in
    if k =? 1 then ds +:+ "e" +:+ exponent
    else
      substring 0 1 ds +:+ "." +:+ substring 1 (Z.to_nat (k - 1)) ds
      +:+ "e" +:+ exponent.

Definition positive_finite (m : positive) (e : Z) : string :=
  let nu := num m e in
  let de := den e in
  let n := magnitude 800 nu de (-400) in
  let '(s, k, n') := shortest 17 (S754_finite false m e) nu de n 1 in
  layout s k n'.

(** [Number::toString(x)] in radix 10. *)
Definition to_string (x : spec_float) : string :=
  match x with
  | S754_nan => "NaN"
  | S754_zero _ => "0"
  | S754_infinity false => "Infinity"
  | S754_infinity true => "-Infinity"
  | S754_finite false m e => positive_finite m e
  | S754_finite true m e => "-" +:+ positive_finite m e
  end.

End NumberToString.

(** ** Values *)

(** The address of an [Environment] object in the store. *)
Abbreviation addr := nat.

(** The seven arrow functions that [repl] binds in the global environment. *)
Inductive PrimOp : Type :=
  | PAdd | PSub | PMul | PDiv | PEq | PLt | PGt.

(** Every JavaScript value the program handles.
    [Null] is the empty list and [Undefined] what [define] returns.
    [Closure args env] is the [function(...params)] that [case 'lambda']
    creates: it captures the variables [args] and [env].
    [Thunk f] is a [new Thunk(func)], with the arrow function [func] as a
    record of the variables it captures. *)
Inductive Value : Type :=
  | Num (x : spec_float)
  | Bool (b : bool)
  | Str (s : string)
  | Null
  | Undefined
  | Cons (car cdr : Value)
  | Primitive (p : PrimOp)
  | Closure (args : Value) (env : addr)
  | Thunk (func : ThunkFunc)
with ThunkFunc : Type :=
  | ThIf (args : Value) (env : addr)
  | ThBegin (expressions : Value) (env : addr)
  | ThApply (proc : Value) (evaluatedArgs : list Value).

(** The errors the program throws itself, by the message of the source, and
    the two the language throws: reading a property of [null] or [undefined]
    or calling what is not a function ([TypeError]), and running out of
    native stack ([RangeError]). *)
Inductive Error : Type :=
  | UnexpectedEndOfInput                 (* 'Unexpected end of input' *)
  | UnmatchedParenthesis                 (* 'Unmatched parenthesis' *)
  | UnexpectedClosingParenthesis         (* 'Unexpected closing parenthesis' *)
  | UnexpectedExtraInput                 (* 'Unexpected extra input' *)
  | UndefinedVariable (symbol : string)  (* `Undefined variable: ${symbol}` *)
  | NotAFunction (op : Value)            (* `${op} is not a function` *)
  | TypeError
  | RangeError.

(** How a call ends: it returns, it throws, the [gas] of a loop that may not
    end ran out, or it did something this embedding does not cover (the
    comparison of two objects by identity, a key of a [Map] that is not a
    string, an address without an environment). *)
Inductive Outcome (A : Type) : Type :=
  | Ok (a : A)
  | Throw (e : Error)
  | OutOfGas
  | Unmodelled.

Arguments Ok {A} a.
Arguments Throw {A} e.
Arguments OutOfGas {A}.
Arguments Unmodelled {A}.

Definition is_thunk (v : Value) : bool :=
  match v with Thunk _ => true | _ => false end.

(** [typeof v === 'function'] *)
Definition is_function (v : Value) : bool :=
  match v with Primitive _ | Closure _ _ => true | _ => false end.

(** [v.car]: a [Cons] has the property, [null] and [undefined] have no
    properties at all, every other value has no property of that name. *)
Definition get_car (v : Value) : Outcome Value :=
  match v with
  | Cons a _ => Ok a
  | Null | Undefined => Throw TypeError
  | _ => Ok Undefined
  end.

(** [v.cdr] *)
Definition get_cdr (v : Value) : Outcome Value :=
  match v with
  | Cons _ d => Ok d
  | Null | Undefined => Throw TypeError
  | _ => Ok Undefined
  end.

(** ** Reader *)

(** [function parseAtom(token)] *)
Definition parseAtom (token : string) : Value :=
  if String.eqb token "#t" || String.eqb token "#f" then
    Bool (String.eqb token "#t")
  else
    let number := parseFloat token in
    if negb (Float64.is_nan number) then Num number
    else Str token.

(** [function arrayToLinkedList(array)] *)
Fixpoint arrayToLinkedList (array : list Value) : Value :=
  match array with
  | [] => Null
  | x :: rest => Cons x (arrayToLinkedList rest)
  end.

(** [function parseExpression()], with the array [tokens] and the cursor
    [position] of the enclosing [parse] as arguments; the cursor after the
    call is returned with the expression. [parseList] is the [while] loop of
    the ['('] case, [list] being the array it pushes to. Each call and each
    iteration takes one unit of [fuel]. *)
Fixpoint parseExpression (fuel : nat) (tokens : list string) (position : nat)
  {struct fuel} : Outcome (Value * nat) :=
  match fuel with
  | O => OutOfGas
  | S fuel' =>
      match tokens !! position with
      | None => Throw UnexpectedEndOfInput
      | Some token =>
          let position := S position in
          if String.eqb token "(" then
            parseList fuel' tokens [] position
          else if String.eqb token ")" then
            Throw UnexpectedClosingParenthesis
          else if String.eqb token "'" then
            match parseExpression fuel' tokens position with
            | Ok (e, position) => Ok (Cons (Str "quote") (Cons e Null), position)
            | Throw e => Throw e
            | OutOfGas => OutOfGas
            | Unmodelled => Unmodelled
            end
          else Ok (parseAtom token, position)
      end
  end
with parseList (fuel : nat) (tokens : list string) (list : list Value)
  (position : nat) {struct fuel} : Outcome (Value * nat) :=
  match fuel with
  | O => OutOfGas
  | S fuel' =>
      match tokens !! position with
      | None => Throw UnmatchedParenthesis
      | Some token =>
          if String.eqb token ")" then
            Ok (arrayToLinkedList list, S position)
          else
            match parseExpression fuel' tokens position with
            | Ok (e, position) => parseList fuel' tokens (list ++ [e]) position
            | Throw e => Throw e
            | OutOfGas => OutOfGas
            | Unmodelled => Unmodelled
            end
      end
  end.

(** Fuel that [parseExpression] cannot use up on [tokens]. *)
Definition parse_fuel (tokens : list string) : nat := 2 * length tokens + 2.

(** The body of [parse] once [tokens] is known. *)
Definition parse_tokens (tokens : list string) : Outcome Value :=
  match parseExpression (parse_fuel tokens) tokens 0 with
  | Ok (result, position) =>
      if negb (Nat.eqb position (length tokens)) then Throw UnexpectedExtraInput
      else Ok result
  | Throw e => Throw e
  | OutOfGas => OutOfGas
  | Unmodelled => Unmodelled
  end.

(** [function parse(input)] *)
Definition parse (input : string) : Outcome Value :=
  parse_tokens (tokenize input).

(** ** Conversions and the primitive procedures *)

(** The line feed. *)
Definition nl : string := String "010"%char EmptyString.

(** The source text of a function of the program, which is what converting
    the function to a string gives. *)
Definition primitive_source (p : PrimOp) : string :=
  match p with
  | PAdd => "(a, b) => a + b"
  | PSub => "(a, b) => a - b"
  | PMul => "(a, b) => a * b"
  | PDiv => "(a, b) => a / b"
  | PEq => "(a, b) => a === b"
  | PLt => "(a, b) => a < b"
  | PGt => "(a, b) => a > b"
  end.

Definition closure_source : string :=
  "function(...params) {" +:+ nl +:+
  "        const newEnv = new Environment(env);" +:+ nl +:+
  "        let paramList = args.car;" +:+ nl +:+
  "        params.forEach(param => {" +:+ nl +:+
  "          newEnv.define(paramList.car, param);" +:+ nl +:+
  "          paramList = paramList.cdr;" +:+ nl +:+
  "        });" +:+ nl +:+
  "        return evaluateWithTailCall(args.cdr.car, newEnv);" +:+ nl +:+
  "      }".

(** [String(v)] *)
Definition js_String (v : Value) : string :=
  match v with
  | Num x => NumberToString.to_string x
  | Bool true => "true"
  | Bool false => "false"
  | Str s => s
  | Null => "null"
  | Undefined => "undefined"
  | Cons _ _ => "[object Object]"
  | Thunk _ => "[object Object]"
  | Primitive p => primitive_source p
  | Closure _ _ => closure_source
  end.

(** [ToPrimitive]: an object, which has no [valueOf] of its own, becomes its
    string. *)
Definition ToPrimitive (v : Value) : Value :=
  match v with
  | Cons _ _ | Thunk _ | Primitive _ | Closure _ _ => Str (js_String v)
  | _ => v
  end.

(** [ToNumber] *)
Definition ToNumber (v : Value) : spec_float :=
  match ToPrimitive v with
  | Num x => x
  | Bool true => Float64.of_Z 1
  | Bool false => Float64.zero
  | Null => Float64.zero
  | Str s => StringToNumber s
  | _ => Float64.nan
  end.

Definition is_string (v : Value) : bool :=
  match v with Str _ => true | _ => false end.

(** [a + b] *)
Definition js_add (a b : Value) : Value :=
  let pa := ToPrimitive a in
  let pb := ToPrimitive b in
  if is_string pa || is_string pb then Str (js_String pa +:+ js_String pb)
  else Num (Float64.add (ToNumber pa) (ToNumber pb)).

(** [a < b]; [a > b] is [b < a]. *)
Definition js_lt (a b : Value) : bool :=
  match ToPrimitive a, ToPrimitive b with
  | Str s, Str t => String.ltb s t
  | pa, pb => Float64.ltb (ToNumber pa) (ToNumber pb)
  end.

(** Each of the seven arrow functions is created once. *)
Definition same_primitive (p q : PrimOp) : bool :=
  match p, q with
  | PAdd, PAdd | PSub, PSub | PMul, PMul | PDiv, PDiv
  | PEq, PEq | PLt, PLt | PGt, PGt => true
  | _, _ => false
  end.

(** [a === b]. Two objects are equal when they are the same object, which
    this embedding cannot tell for two pairs, two closures or two thunks. *)
Definition js_strict_equal (a b : Value) : Outcome bool :=
  match a, b with
  | Num x, Num y => Ok (Float64.eqb x y)
  | Bool x, Bool y => Ok (Bool.eqb x y)
  | Str s, Str t => Ok (String.eqb s t)
  | Null, Null => Ok true
  | Undefined, Undefined => Ok true
  | Primitive p, Primitive q => Ok (same_primitive p q)
  | Cons _ _, Cons _ _ => Unmodelled
  | Closure _ _, Closure _ _ => Unmodelled
  | Thunk _, Thunk _ => Unmodelled
  | _, _ => Ok false
  end.

(** A call [p(...params)] of one of the arrow functions of [repl]: a missing
    argument is [undefined], any beyond the second is ignored. *)
Definition apply_primitive (p : PrimOp) (params : list Value) : Outcome Value :=
  let a := nth 0 params Undefined in
  let b := nth 1 params Undefined in
  match p with
  | PAdd => Ok (js_add a b)
  | PSub => Ok (Num (Float64.sub (ToNumber a) (ToNumber b)))
  | PMul => Ok (Num (Float64.mul (ToNumber a) (ToNumber b)))
  | PDiv => Ok (Num (Float64.div (ToNumber a) (ToNumber b)))
  | PEq =>
      match js_strict_equal a b with
      | Ok r => Ok (Bool r)
      | Throw e => Throw e
      | OutOfGas => OutOfGas
      | Unmodelled => Unmodelled
      end
  | PLt => Ok (Bool (js_lt a b))
  | PGt => Ok (Bool (js_lt b a))
  end.

(** The condition of [c ? t : f]: every value converts to [true] but
    [false], [0], [-0], [NaN], the empty string, [null] and [undefined]. *)
Definition truthy (v : Value) : bool :=
  match v with
  | Bool b => b
  | Num x => negb (Float64.is_zero x || Float64.is_nan x)
  | Str s => negb (String.eqb s "")
  | Null | Undefined => false
  | _ => true
  end.

(** ** Environments *)

(** [class Environment]. [vars] is the [Map], in insertion order; its keys
    are the strings the program looks up. [parent] is [null] or the address
    of another [Environment]. *)
Record Environment : Type := mkEnvironment {
  vars : list (string * Value);
  parent : option addr
}.

(** The store: the [Environment] objects created so far, each at the index
    that is its address. *)
Abbreviation Store := (list Environment).

(** [vars.has(k)] and [vars.get(k)] *)
Fixpoint map_get (m : list (string * Value)) (k : string) : option Value :=
  match m with
  | [] => None
  | (k', v) :: rest => if String.eqb k' k then Some v else map_get rest k
  end.

(** [vars.set(k, v)]: the value of an existing key is replaced where the key
    is, a new key goes to the end. *)
Fixpoint map_set (m : list (string * Value)) (k : string) (v : Value)
  : list (string * Value) :=
  match m with
  | [] => [(k, v)]
  | (k', v') :: rest =>
      if String.eqb k' k then (k, v) :: rest else (k', v') :: map_set rest k v
  end.

(** A computation on the store: it returns the store it leaves with its
    outcome, also when it throws. *)
Definition M (A : Type) : Type := Store -> Outcome A * Store.

Definition ret {A} (a : A) : M A := fun st => (Ok a, st).
Definition throw {A} (e : Error) : M A := fun st => (Throw e, st).
Definition lift {A} (o : Outcome A) : M A := fun st => (o, st).

Definition bind {A B} (c : M A) (k : A -> M B) : M B :=
  fun st =>
    match c st with
    | (Ok a, st') => k a st'
    | (Throw e, st') => (Throw e, st')
    | (OutOfGas, st') => (OutOfGas, st')
    | (Unmodelled, st') => (Unmodelled, st')
    end.

Notation "'let*' x ':=' c 'in' k" := (bind c (fun x => k))
  (at level 10, x name, c at level 100, k at level 200).

(** [new Environment(parent)] *)
Definition new_Environment (parent : option addr) : M addr :=
  fun st => (Ok (length st), st ++ [mkEnvironment [] parent]).

(** [this.lookup(symbol)]. The call to the parent is a native call: the
    search takes one frame for each environment it visits. *)
Fixpoint Environment_lookup (stk : nat) (this : addr) (symbol : string)
  {struct stk} : M Value :=
  fun st =>
    match stk with
    | O => (Throw RangeError, st)
    | S stk' =>
        match st !! this with
        | None => (Unmodelled, st)
        | Some frame =>
            match map_get (vars frame) symbol with
            | Some v => (Ok v, st)
            | None =>
                match parent frame with
                | Some p => Environment_lookup stk' p symbol st
                | None => (Throw (UndefinedVariable symbol), st)
                end
            end
        end
    end.

(** [this.define(symbol, value)]. A key that is not a string is never looked
    up; the embedding leaves such a call out. *)
Definition Environment_define (this : addr) (symbol value : Value) : M unit :=
  fun st =>
    match symbol, st !! this with
    | Str s, Some frame =>
        (Ok tt,
         <[this := mkEnvironment (map_set (vars frame) s value) (parent frame)]> st)
    | _, _ => (Unmodelled, st)
    end.

(** ** Evaluator *)

(** Whether [switch (op)] takes [case label]: [op === label]. *)
Definition case_label (op : Value) (label : string) : bool :=
  match op with
  | Str s => String.eqb s label
  | _ => false
  end.

(** The loops of the evaluator, over the functions they call. *)
Section Loops.

(** [evaluate], with the frames left to it. *)
Variable evaluate : Value -> addr -> M Value.

(** The [while (expressions instanceof Cons)] of [case 'begin'], entered
    with [result] unassigned. *)
Fixpoint begin_loop (env : addr) (expressions result : Value) : M Value :=
  match expressions with
  | Cons car cdr =>
      match cdr with
      | Null => ret (Thunk (ThBegin expressions env))
      | _ =>
          let* result := evaluate car env in
          begin_loop env cdr result
      end
  | _ => ret result
  end.

(** The [while (argList instanceof Cons)] of the [default] case. *)
Fixpoint args_loop (env : addr) (argList : Value) (evaluatedArgs : list Value)
  : M (list Value) :=
  match argList with
  | Cons car cdr =>
      let* v := evaluate car env in
      args_loop env cdr (evaluatedArgs ++ [v])
  | _ => ret evaluatedArgs
  end.

(** [result.func()], with the frames left to it. *)
Variable call_func : ThunkFunc -> M Value.

(** The [while (result instanceof Thunk)] of [trampoline]. *)
Fixpoint trampoline_loop (gas : nat) (result : Value) : M Value :=
  match result with
  | Thunk func =>
      match gas with
      | O => lift OutOfGas
      | S gas' =>
          let* result := call_func func in
          trampoline_loop gas' result
      end
  | _ => ret result
  end.

End Loops.

(** [params.forEach(param => { newEnv.define(paramList.car, param);
    paramList = paramList.cdr; })], from the value [paramList] has before. *)
Fixpoint bind_params (newEnv : addr) (params : list Value) (paramList : Value)
  : M unit :=
  match params with
  | [] => ret tt
  | param :: rest =>
      let* key := lift (get_car paramList) in
      let* _ := Environment_define newEnv key param in
      let* next := lift (get_cdr paramList) in
      bind_params newEnv rest next
  end.

(** [function evaluate], [function evaluateWithTailCall], [function
    trampoline], the call [result.func()] of a thunk and the call
    [proc(...evaluatedArgs)] of a procedure. Each call takes a frame of the
    [stk] its caller has left and throws [RangeError] when there is none; a
    call that cannot come back to the evaluator (a constructor,
    [define], the callback of [forEach], a method of [Map] or [Array])
    returns within a bounded number of frames and is not counted. *)
Fixpoint evaluate (stk gas : nat) (expr : Value) (env : addr) {struct stk}
  : M Value :=
  match stk with
  | O => throw RangeError
  | S stk' =>
      let* result := evaluateWithTailCall stk' gas expr env in
      trampoline stk' gas result
  end

with evaluateWithTailCall (stk gas : nat) (expr : Value) (env : addr)
  {struct stk} : M Value :=
  match stk with
  | O => throw RangeError
  | S stk' =>
      match expr with
      | Str symbol => Environment_lookup stk' env symbol
      | Cons op args =>
          if case_label op "quote" then lift (get_car args)
          else if case_label op "if" then ret (Thunk (ThIf args env))
          else if case_label op "lambda" then ret (Closure args env)
          else if case_label op "define" then
            let* symbol := lift (get_car args) in
            let* rest := lift (get_cdr args) in
            let* e := lift (get_car rest) in
            let* value := evaluate stk' gas e env in
            let* _ := Environment_define env symbol value in
            ret Undefined
          else if case_label op "begin" then
            begin_loop (evaluate stk' gas) env args Undefined
          else
            let* proc := evaluate stk' gas op env in
            let* evaluatedArgs := args_loop (evaluate stk' gas) env args [] in
            if is_function proc then ret (Thunk (ThApply proc evaluatedArgs))
            else throw (NotAFunction op)
      | _ => ret expr
      end
  end

with trampoline (stk gas : nat) (result : Value) {struct stk} : M Value :=
  match stk with
  | O => throw RangeError
  | S stk' => trampoline_loop (call_func stk' gas) gas result
  end

with call_func (stk gas : nat) (func : ThunkFunc) {struct stk} : M Value :=
  match stk with
  | O => throw RangeError
  | S stk' =>
      match func with
      | ThIf args env =>
          let* c := lift (get_car args) in
          let* condition := evaluate stk' gas c env in
          let* rest := lift (get_cdr args) in
          let* e :=
            if truthy condition then lift (get_car rest)
            else let* rest' := lift (get_cdr rest) in lift (get_car rest') in
          evaluateWithTailCall stk' gas e env
      | ThBegin expressions env =>
          let* e := lift (get_car expressions) in
          evaluateWithTailCall stk' gas e env
      | ThApply proc evaluatedArgs => call_proc stk' gas proc evaluatedArgs
      end
  end

with call_proc (stk gas : nat) (proc : Value) (params : list Value)
  {struct stk} : M Value :=
  match stk with
  | O => throw RangeError
  | S stk' =>
      match proc with
      | Primitive p => lift (apply_primitive p params)
      | Closure args env =>
          let* newEnv := new_Environment (Some env) in
          let* paramList := lift (get_car args) in
          let* _ := bind_params newEnv params paramList in
          let* rest := lift (get_cdr args) in
          let* body := lift (get_car rest) in
          evaluateWithTailCall stk' gas body newEnv
      | _ => throw TypeError
      end
  end.

(** ** Printer *)

(** [function linkedListToArray(list)] *)
Fixpoint linkedListToArray (list : Value) : Datatypes.list Value :=
  match list with
  | Cons car cdr => car :: linkedListToArray cdr
  | _ => []
  end.

(** [array.join(sep)] on an array of strings *)
Fixpoint array_join (sep : string) (array : list string) : string :=
  match array with
  | [] => EmptyString
  | [x] => x
  | x :: rest => x +:+ sep +:+ array_join sep rest
  end.

(** [function printExpr(expr)]. The inner [items] is
    [linkedListToArray(expr).map(printExpr)]. *)
Fixpoint printExpr (expr : Value) : string :=
  match expr with
  | Cons _ _ =>
      let items :=
        (fix items (list : Value) : Datatypes.list string :=
           match list with
           | Cons car cdr => printExpr car :: items cdr
           | _ => []
           end) expr in
      "(" +:+ array_join " " items +:+ ")"
  | Str s => s
  | Bool b => if b then "#t" else "#f"
  | _ => js_String expr
  end.

(** ** The global environment of [repl] *)

Definition globalEnv : addr := 0%nat.

(** The store after [repl] has created [globalEnv] and made its seven
    calls to [define]. *)
Definition define_all (env : addr) (bindings : list (string * PrimOp)) : M unit :=
  fold_right
    (fun b k => let* _ := Environment_define env (Str (fst b)) (Primitive (snd b)) in k)
    (ret tt) bindings.

Definition repl_setup : M addr :=
  let* globalEnv := new_Environment None in
  let* _ := define_all globalEnv
    [("+", PAdd); ("-", PSub); ("*", PMul); ("/", PDiv);
     ("=", PEq); ("<", PLt); (">", PGt)] in
  ret globalEnv.

Definition globalStore : Store := snd (repl_setup []).

(** One turn of the loop of [repl] on the line [input], without the
    console: what is printed, or the error caught, and the store left. *)
Definition repl_turn (stk gas : nat) (input : string) : M string :=
  fun st =>
    match parse input with
    | Ok parsed =>
        match evaluate stk gas parsed globalEnv st with
        | (Ok result, st') => (Ok (printExpr result), st')
        | (Throw e, st') => (Throw e, st')
        | (OutOfGas, st') => (OutOfGas, st')
        | (Unmodelled, st') => (Unmodelled, st')
        end
    | Throw e => (Throw e, st)
    | OutOfGas => (OutOfGas, st)
    | Unmodelled => (Unmodelled, st)
    end.

(** ** Notions the properties are stated with *)

(** What may follow a decimal literal without extending it: nothing, or a
    character that is neither a digit, nor a point, nor an exponent
    indicator. *)
Definition ends_literal (junk : string) : bool :=
  match junk with
  | EmptyString => true
  | String c _ =>
      negb (is_digit c || Ascii.eqb c "." || Ascii.eqb c "e" || Ascii.eqb c "E")
  end.

(** An outcome that a larger budget could change: the native stack or the
    gas ran out. *)
Definition out_of_budget {A} (r : Outcome A) : bool :=
  match r with
  | Throw RangeError | OutOfGas => true
  | _ => false
  end.

Definition definite {A} (r : Outcome A) : Prop := out_of_budget r = false.

(** [c2] ends as [c1] does whenever [c1] ends within its budget. *)
Definition agrees {A} (c1 c2 : M A) : Prop :=
  forall st r st', c1 st = (r, st') -> definite r -> c2 st = (r, st').

(** The keys of a frame, in insertion order. *)
Definition keys (frame : Environment) : list string := map fst (vars frame).

(** [st'] has every environment of [st], with the same parent and with the
    keys it had in [st], in the same order, before any new one. *)
Definition store_le (st st' : Store) : Prop :=
  forall a frame, st !! a = Some frame ->
    exists frame', st' !! a = Some frame' /\
      parent frame' = parent frame /\ keys frame `prefix_of` keys frame'.

(** The expressions [es] evaluated one after the other for their effect. *)
Fixpoint eval_seq (ev : Value -> addr -> M Value) (env : addr) (es : list Value)
  : M unit :=
  match es with
  | [] => ret tt
  | e :: es' => let* _ := ev e env in eval_seq ev env es'
  end.

(** The parent of an environment was created before it. *)
Definition wf_store (st : Store) : Prop :=
  forall a frame p, st !! a = Some frame -> parent frame = Some p -> (p < a)%nat.

(** [b] is the parent of [a], or the parent of its parent, and so on. *)
Inductive ancestor (st : Store) : addr -> addr -> Prop :=
  | ancestor_parent a frame p :
      st !! a = Some frame -> parent frame = Some p -> ancestor st a p
  | ancestor_step a frame p b :
      st !! a = Some frame -> parent frame = Some p -> ancestor st p b ->
      ancestor st a b.

(** The number [n] as a value. *)
Definition num (n : Z) : Value := Num (Float64.of_Z n).

(** The expression [(if C T F)]. *)
Definition if_form (C T F : Value) : Value :=
  Cons (Str "if") (Cons C (Cons T (Cons F Null))).

(** The expression [(define symbol e)]. *)
Definition define_form (symbol : string) (e : Value) : Value :=
  Cons (Str "define") (Cons (Str symbol) (Cons e Null)).

(** The expression [(begin e1 ... en)]. *)
Definition begin_form (es : list Value) : Value :=
  Cons (Str "begin") (arrayToLinkedList es).

(** The computation [c] leaves a store related by [R] to the one it starts
    in, however it ends. *)
Definition keeps (R : Store -> Store -> Prop) {A} (c : M A) : Prop :=
  forall st, R st (snd (c st)).

(** Two definitions, a symbol that has no binding, and one more definition. *)
Definition failing_sequence : list Value :=
  [define_form "a" (num 1); define_form "b" (num 2); Str "zz";
   define_form "c" (num 3)].

(** The global store with [a] and [b] defined after the primitives. *)
Definition store_with_a_b : Store :=
  [mkEnvironment
     (vars (hd (mkEnvironment [] None) globalStore)
      ++ [("a", num 1); ("b", num 2)]) None].

(** A global environment that binds [x] to 1, and an environment created
    with it as parent. *)
Definition two_frames : Store :=
  [mkEnvironment [("x", num 1)] None; mkEnvironment [] (Some 0%nat)].

(** *** The counting loop of the specification *)

(** [(define loop (lambda (n) (if (= n 0) 0 (loop (- n 1)))))], by its
    parts. *)
Definition loop_test : Value :=
  Cons (Str "=") (Cons (Str "n") (Cons (num 0) Null)).

Definition loop_again : Value :=
  Cons (Str "loop")
    (Cons (Cons (Str "-") (Cons (Str "n") (Cons (num 1) Null))) Null).

Definition loop_if_args : Value :=
  Cons loop_test (Cons (num 0) (Cons loop_again Null)).

Definition loop_lambda_args : Value :=
  Cons (Cons (Str "n") Null) (Cons (Cons (Str "if") loop_if_args) Null).

Definition loop_definition : Value :=
  define_form "loop" (Cons (Str "lambda") loop_lambda_args).

(** The closure the definition binds [loop] to. *)
Definition loop_closure : Value := Closure loop_lambda_args globalEnv.

(** [(loop x)] for the number [x]. *)
Definition loop_call (x : spec_float) : Value :=
  Cons (Str "loop") (Cons (Num x) Null).

(** The global store once [loop] is defined. *)
Definition loop_store : Store :=
  snd (evaluate 5 1 loop_definition globalEnv globalStore).

(** [x] is not 0, nor is it after each of [k - 1] subtractions of 1, and it
    is 0 after [k] of them. *)
Fixpoint countdown (x : spec_float) (k : nat) : bool :=
  match k with
  | O => Float64.eqb x Float64.zero
  | S k' =>
      negb (Float64.eqb x Float64.zero)
      && countdown (Float64.sub x (Float64.of_Z 1)) k'
  end.

(** What the loop needs of a store: the global environment binds [loop],
    [=] and [-] as the program left them. *)
Definition loop_globals (st : Store) : Prop :=
  exists frame, st !! globalEnv = Some frame /\
    map_get (vars frame) "loop" = Some loop_closure /\
    map_get (vars frame) "=" = Some (Primitive PEq) /\
    map_get (vars frame) "-" = Some (Primitive PSub).

(** The environment a call of [loop] on [x] creates at [env]. *)
Definition loop_frame (st : Store) (env : addr) (x : spec_float) : Prop :=
  st !! env = Some (mkEnvironment [("n", Num x)] (Some globalEnv)) /\
  loop_globals st.

(** The mantissa [m * 2^k]. *)
Definition shl (m : positive) (k : Z) : positive :=
  match k with Zpos q => Pos.iter xO m q | _ => m end.

(** *** Canonical text *)

Fixpoint all_chars (P : ascii -> bool) (s : string) : bool :=
  match s with
  | EmptyString => true
  | String c r => P c && all_chars P r
  end.

(** A character of an atom: neither white space nor a parenthesis. *)
Definition word_char (c : ascii) : bool :=
  negb (is_space c) && negb (Ascii.eqb c "(") && negb (Ascii.eqb c ")").

Definition is_word (t : string) : bool :=
  negb (String.eqb t "") && all_chars word_char t.

(** An atom printed as it is written: a word other than the lone quote mark
    that is a boolean, a symbol, or a number in the form the printer gives
    it. *)
Definition canonical_atom (t : string) : bool :=
  is_word t && negb (String.eqb t "'") && String.eqb (printExpr (parseAtom t)) t.

(** A canonical text: a canonical atom, or one or more canonical texts
    between parentheses with single spaces between them. *)
Inductive canonical_text : string -> Prop :=
  | canonical_text_atom t :
      canonical_atom t = true -> canonical_text t
  | canonical_text_list body :
      canonical_items body -> canonical_text ("(" +:+ body +:+ ")")
with canonical_items : string -> Prop :=
  | canonical_items_last s :
      canonical_text s -> canonical_items s
  | canonical_items_more s body :
      canonical_text s -> canonical_items body ->
      canonical_items (s +:+ " " +:+ body).

(** [input] after the two calls of [replace] in [tokenize]. *)
Definition spaced (input : string) : string :=
  replace_all ")" " ) " (replace_all "(" " ( " input).

(** The tokens [split] finds in [u] when a white space precedes [u]. *)
Definition tokens_after_space (u : string) : list string :=
  tl (split_spaces (String " " u)).

(** The text [s] is the printed form of [e] and is read back as [e]: its
    tokens are [ts], alone and among others. *)
Definition text_reads_as (s : string) (e : Value) (ts : list string) : Prop :=
  printExpr e = s /\
  tokenize s = ts /\
  (exists t ts', ts = t :: ts' /\ t <> ")") /\
  (forall u, tokens_after_space (spaced s +:+ String " " u)
             = ts ++ tokens_after_space u) /\
  (forall before after, exists fuel,
     parseExpression fuel (before ++ ts ++ after) (length before)
     = Ok (e, (length before + length ts)%nat)).

(** The texts [body], separated by single spaces, are the printed forms of
    the expressions [es] and are read back as them up to a closing
    parenthesis. *)
Definition items_read_as (body : string) (es : list Value) (ts : list string)
  : Prop :=
  es <> [] /\
  array_join " " (map printExpr es) = body /\
  (forall u, tokens_after_space (spaced body +:+ String " " u)
             = ts ++ tokens_after_space u) /\
  (forall before after l, exists fuel,
     parseList fuel (before ++ ts ++ ")" :: after) l (length before)
     = Ok (arrayToLinkedList (l ++ es), (length before + length ts + 1)%nat)).

Scheme canonical_text_mutual := Minimality for canonical_text Sort Prop
  with canonical_items_mutual := Minimality for canonical_items Sort Prop.

(** [(define count (lambda (n) (if (= n 0) 0 (+ 1 (count (- n 1))))))]: the
    same loop with its recursive call under [+], not in tail position. *)
Definition count_definition : Value :=
  define_form "count"
    (arrayToLinkedList
       [Str "lambda"; arrayToLinkedList [Str "n"];
        if_form (arrayToLinkedList [Str "="; Str "n"; num 0]) (num 0)
          (arrayToLinkedList
             [Str "+"; num 1;
              arrayToLinkedList
                [Str "count"; arrayToLinkedList [Str "-"; Str "n"; num 1]]])]).

(** The global store once [count] is defined. *)
Definition count_store : Store :=
  snd (evaluate 5 1 count_definition globalEnv globalStore).

(** [(count n)] *)
Definition count_call (n : Z) : Value := arrayToLinkedList [Str "count"; num n].

(** * Further notions

    What the further properties at the end of the file are stated with, and
    the evaluator of the version without trampoline. *)

From Stdlib Require DecimalPos DecimalN.

(** *** Tokens *)

Definition is_paren (c : ascii) : bool := Ascii.eqb c "(" || Ascii.eqb c ")".

Definition nonempty (t : string) : bool := negb (String.eqb t "").

(** The words of [s]: its maximal runs of characters that are not white
    space. *)
Definition words (s : string) : list string :=
  List.filter nonempty (split_spaces s).

(** Every parenthesis of [s] has white space or an end of [s] on either
    side; [before] tells whether what precedes [s] allows one at its
    start. *)
Fixpoint parens_apart (before : bool) (s : string) : bool :=
  match s with
  | EmptyString => true
  | String c r =>
      if is_paren c then
        before
        && match r with EmptyString => true | String d _ => is_space d end
        && parens_apart false r
      else parens_apart (is_space c) r
  end.

Definition paren_free (t : string) : bool :=
  all_chars (fun c => negb (is_paren c)) t.

(** A parenthesis alone, or no parenthesis at all. *)
Definition paren_or_free (t : string) : bool :=
  String.eqb t "(" || String.eqb t ")" || paren_free t.

(** *** Data *)

(** What the reader builds: a number that is not NaN, a boolean, a symbol
    whose name has neither white space nor a parenthesis, the empty list, or
    a pair of such values whose [cdr] is a pair or the empty list. *)
Fixpoint datum (v : Value) : bool :=
  match v with
  | Num x => negb (Float64.is_nan x)
  | Bool _ => true
  | Str s => all_chars word_char s
  | Null => true
  | Cons a d =>
      datum a && datum d
      && match d with Null | Cons _ _ => true | _ => false end
  | _ => false
  end.



(** A value whose printed form is read back as the same value: an atom that
    is printed as a canonical atom which [parseAtom] turns into it again, or
    a list, not empty and ended by the empty list, of such values. *)
Fixpoint printable (v : Value) : Prop :=
  match v with
  | Cons a d =>
      printable a /\
      match d with
      | Null => True
      | Cons _ _ => printable d
      | _ => False
      end
  | Num _ | Bool _ | Str _ =>
      canonical_atom (printExpr v) = true /\ parseAtom (printExpr v) = v
  | _ => False
  end.

(** *** Values and the store they refer to *)

(** A value the program may bind, pass or return: there is no thunk in it,
    and every closure in it captured one of the first [n] environments of
    the store. *)
Fixpoint data_ok (n : nat) (v : Value) : Prop :=
  match v with
  | Cons a d => data_ok n a /\ data_ok n d
  | Closure args env => data_ok n args /\ (env < n)%nat
  | Thunk _ => False
  | _ => True
  end.

(** A thunk whose captured variables are such values. *)
Definition thunk_ok (n : nat) (f : ThunkFunc) : Prop :=
  match f with
  | ThIf args env => data_ok n args /\ (env < n)%nat
  | ThBegin expressions env => data_ok n expressions /\ (env < n)%nat
  | ThApply proc evaluatedArgs => data_ok n proc /\ Forall (data_ok n) evaluatedArgs
  end.

(** What [evaluateWithTailCall] may return: such a value, or such a thunk. *)
Definition result_ok (n : nat) (v : Value) : Prop :=
  match v with
  | Thunk f => thunk_ok n f
  | _ => data_ok n v
  end.

(** A store in which the parent of every environment is older than the
    environment, and every value bound is a value as above. *)
Definition store_ok (st : Store) : Prop :=
  wf_store st /\
  forall a frame k v,
    st !! a = Some frame -> In (k, v) (vars frame) -> data_ok (length st) v.

(** Started in such a store of at least [n] environments, the computation
    [c] leaves such a store, no shorter, and what it returns satisfies [Q]
    there. *)
Definition sound {A} (n : nat) (c : M A) (Q : nat -> A -> Prop) : Prop :=
  forall st r st',
    store_ok st -> (n <= length st)%nat -> c st = (r, st') ->
    store_ok st' /\ (length st <= length st')%nat /\
    forall a, r = Ok a -> Q (length st') a.

(** The store after the turns of the loop of [repl] on the lines [inputs],
    one after the other: an error is caught and the loop goes on. *)
Fixpoint repl_turns (stk gas : nat) (inputs : list string) (st : Store) : Store :=
  match inputs with
  | [] => st
  | input :: rest => repl_turns stk gas rest (snd (repl_turn stk gas input st))
  end.

(** *** Environments *)

(** [a] is [env] or one of the environments [env] inherits from. *)
Definition in_chain (st : Store) (env a : addr) : Prop :=
  a = env \/ ancestor st env a.

(** The global store of [repl] with [x] bound to 1, and two environments
    created one inside the other, the inner one binding [y] to 2. *)
Definition three_frames : Store :=
  [mkEnvironment (vars (hd (mkEnvironment [] None) globalStore) ++ [("x", num 1)]) None;
   mkEnvironment [] (Some 0%nat);
   mkEnvironment [("y", num 2)] (Some 1%nat)].

(** *** Forms *)

(** Whether [switch (op)] takes one of its five cases rather than
    [default]. *)
Definition special_form (op : Value) : bool :=
  case_label op "quote" || case_label op "if" || case_label op "lambda"
  || case_label op "define" || case_label op "begin".

(** The expression [(quote e)]. *)
Definition quote_form (e : Value) : Value := Cons (Str "quote") (Cons e Null).

(** The bindings that [forEach] makes of the parameters [names] to the
    arguments [params], as far as both go. *)
Definition bind_all (m : list (string * Value)) (names : list string)
  (params : list Value) : list (string * Value) :=
  fold_left (fun m b => map_set m (fst b) (snd b)) (combine names params) m.

(** The parameter list [(n1 ... nk)]. *)
Definition param_list (names : list string) : Value :=
  arrayToLinkedList (map Str names).

(** ** The evaluator without trampoline

    The other version of the program in [src/jscheme.js] has the same
    reader, printer, environments and [repl], no [Thunk] and no
    [trampoline], and an [evaluate] that calls itself for every
    subexpression, also in tail position. It has no case ['begin'], and it
    calls the value of the operator without looking at its type. *)

Module Direct.

(** The text of the [function(...params)] of case ['lambda'], which ends
    with a call of [evaluate]. *)
Definition closure_source : string :=
  "function(...params) {" +:+ nl +:+
  "        const newEnv = new Environment(env);" +:+ nl +:+
  "        let paramList = args.car;" +:+ nl +:+
  "        params.forEach(param => {" +:+ nl +:+
  "          newEnv.define(paramList.car, param);" +:+ nl +:+
  "          paramList = paramList.cdr;" +:+ nl +:+
  "        });" +:+ nl +:+
  "        return evaluate(args.cdr.car, newEnv);" +:+ nl +:+
  "      }".

(** [String(v)] *)
Definition js_String (v : Value) : string :=
  match v with
  | Closure _ _ => closure_source
  | _ => js_String v
  end.

(** [ToPrimitive] *)
Definition ToPrimitive (v : Value) : Value :=
  match v with
  | Cons _ _ | Thunk _ | Primitive _ | Closure _ _ => Str (js_String v)
  | _ => v
  end.

(** [ToNumber] *)
Definition ToNumber (v : Value) : spec_float :=
  match ToPrimitive v with
  | Num x => x
  | Bool true => Float64.of_Z 1
  | Bool false => Float64.zero
  | Null => Float64.zero
  | Str s => StringToNumber s
  | _ => Float64.nan
  end.

(** [a + b] *)
Definition js_add (a b : Value) : Value :=
  let pa := ToPrimitive a in
  let pb := ToPrimitive b in
  if is_string pa || is_string pb then Str (js_String pa +:+ js_String pb)
  else Num (Float64.add (ToNumber pa) (ToNumber pb)).

(** [a < b] *)
Definition js_lt (a b : Value) : bool :=
  match ToPrimitive a, ToPrimitive b with
  | Str s, Str t => String.ltb s t
  | pa, pb => Float64.ltb (ToNumber pa) (ToNumber pb)
  end.

(** A call of one of the seven arrow functions of [repl]. *)
Definition apply_primitive (p : PrimOp) (params : list Value) : Outcome Value :=
  let a := nth 0 params Undefined in
  let b := nth 1 params Undefined in
  match p with
  | PAdd => Ok (js_add a b)
  | PSub => Ok (Num (Float64.sub (ToNumber a) (ToNumber b)))
  | PMul => Ok (Num (Float64.mul (ToNumber a) (ToNumber b)))
  | PDiv => Ok (Num (Float64.div (ToNumber a) (ToNumber b)))
  | PEq =>
      match js_strict_equal a b with
      | Ok r => Ok (Bool r)
      | Throw e => Throw e
      | OutOfGas => OutOfGas
      | Unmodelled => Unmodelled
      end
  | PLt => Ok (Bool (js_lt a b))
  | PGt => Ok (Bool (js_lt b a))
  end.

(** The call [proc(...params)] of a function, [evaluate] being the
    evaluator with the frames left to the body of a closure. *)
Definition call (evaluate : Value -> addr -> M Value)
  (proc : Value) (params : list Value) : M Value :=
  match proc with
  | Primitive p => lift (apply_primitive p params)
  | Closure args env =>
      let* newEnv := new_Environment (Some env) in
      let* paramList := lift (get_car args) in
      let* _ := bind_params newEnv params paramList in
      let* rest := lift (get_cdr args) in
      let* body := lift (get_car rest) in
      evaluate body newEnv
  | _ => throw TypeError
  end.

(** [function evaluate(expr, env)]. Each call of [evaluate], of [lookup]
    and of a function takes a frame of the [stk] its caller has left, as in
    the version with the trampoline. *)
Fixpoint evaluate (stk : nat) (expr : Value) (env : addr) {struct stk} : M Value :=
  match stk with
  | O => throw RangeError
  | S stk' =>
      match expr with
      | Str symbol => Environment_lookup stk' env symbol
      | Cons op args =>
          if case_label op "quote" then lift (get_car args)
          else if case_label op "if" then
            let* c := lift (get_car args) in
            let* condition := evaluate stk' c env in
            let* rest := lift (get_cdr args) in
            let* e :=
              if truthy condition then lift (get_car rest)
              else let* rest' := lift (get_cdr rest) in lift (get_car rest') in
            evaluate stk' e env
          else if case_label op "lambda" then ret (Closure args env)
          else if case_label op "define" then
            let* symbol := lift (get_car args) in
            let* rest := lift (get_cdr args) in
            let* e := lift (get_car rest) in
            let* value := evaluate stk' e env in
            let* _ := Environment_define env symbol value in
            ret Undefined
          else
            let* proc := evaluate stk' op env in
            let* evaluatedArgs := args_loop (evaluate stk') env args [] in
            if is_function proc then
              match stk' with
              | O => throw RangeError
              | S stk'' => call (evaluate stk'') proc evaluatedArgs
              end
            else throw TypeError
      | _ => ret expr
      end
  end.

End Direct.

(** *** Numerals *)

(** The decimal numeral of a whole number: its digits, after a minus sign
    when it is negative. *)
Definition numeral (n : Z) : string :=
  if n <? 0 then "-" +:+ NumberToString.digits (- n) else NumberToString.digits n.

(** * Properties *)

(** ** Reader: fuel *)

(** More fuel does not change what the parser returns. *)
Lemma parse_fuel_mono (tokens : list string) (f : nat) :
  (forall pos f', (f <= f')%nat ->
     parseExpression f tokens pos <> OutOfGas ->
     parseExpression f' tokens pos = parseExpression f tokens pos) /\
  (forall l pos f', (f <= f')%nat ->
     parseList f tokens l pos <> OutOfGas ->
     parseList f' tokens l pos = parseList f tokens l pos).
Proof.
  induction f as [|f [IHe IHl]]; split; intros; try (simpl in *; congruence).
  - destruct f' as [|f']; [lia|]. simpl in *.
    destruct (tokens !! pos) as [token|]; [|reflexivity].
    destruct (String.eqb token "("); [apply IHl; [lia|assumption]|].
    destruct (String.eqb token ")"); [reflexivity|].
    destruct (String.eqb token "'"); [|reflexivity].
    rewrite (IHe (S pos) f'); [reflexivity|lia|].
    intros E. rewrite E in H0. congruence.
  - destruct f' as [|f']; [lia|]. simpl in *.
    destruct (tokens !! pos) as [token|]; [|reflexivity].
    destruct (String.eqb token ")"); [reflexivity|].
    assert (Hne : parseExpression f tokens pos <> OutOfGas).
    { intros E. rewrite E in H0. congruence. }
    rewrite (IHe pos f'); [|lia|assumption].
    destruct (parseExpression f tokens pos) as [[e p]| | |]; try reflexivity.
    apply IHl; [lia|assumption].
Qed.

(** With two units of fuel for each token left and one more, the parser
    returns or throws, and a returned cursor has moved on, no further than
    the end of the tokens. *)
Lemma parse_fuel_enough (tokens : list string) (f : nat) :
  (forall pos, (2 * (length tokens - pos) + 1 <= f)%nat ->
     match parseExpression f tokens pos with
     | Ok (_, p) => (pos < p <= length tokens)%nat
     | Throw _ => True
     | _ => False
     end) /\
  (forall l pos, (2 * (length tokens - pos) + 2 <= f)%nat ->
     match parseList f tokens l pos with
     | Ok (_, p) => (pos < p <= length tokens)%nat
     | Throw _ => True
     | _ => False
     end).
Proof.
  induction f as [|f [IHe IHl]]; split; intros; try lia.
  - simpl. destruct (tokens !! pos) as [token|] eqn:Hl; [|exact I].
    apply lookup_lt_Some in Hl.
    destruct (String.eqb token "(").
    { specialize (IHl [] (S pos)).
      destruct (parseList f tokens [] (S pos)) as [[e p]| | |];
        try (apply IHl; lia).
      assert (S pos < p <= length tokens)%nat by (apply IHl; lia). lia. }
    destruct (String.eqb token ")"); [exact I|].
    destruct (String.eqb token "'"); [|lia].
    specialize (IHe (S pos)).
    destruct (parseExpression f tokens (S pos)) as [[e p]| | |];
      try (apply IHe; lia).
    assert (S pos < p <= length tokens)%nat by (apply IHe; lia). lia.
  - simpl. destruct (tokens !! pos) as [token|] eqn:Hl; [|exact I].
    apply lookup_lt_Some in Hl.
    destruct (String.eqb token ")"); [lia|].
    specialize (IHe pos).
    destruct (parseExpression f tokens pos) as [[e p]| | |];
      try (apply IHe; lia).
    assert (pos < p <= length tokens)%nat by (apply IHe; lia).
    specialize (IHl (l ++ [e]) p).
    destruct (parseList f tokens (l ++ [e]) p) as [[e' p']| | |];
      try (apply IHl; lia).
    assert (p < p' <= length tokens)%nat by (apply IHl; lia). lia.
Qed.


(** Any sufficient fuel gives the result of [parse]. *)
Lemma parse_tokens_fuel (tokens : list string) (f : nat) (e : Value) :
  parseExpression f tokens 0 = Ok (e, length tokens) ->
  parse_tokens tokens = Ok e.
Proof.
  intros H. unfold parse_tokens.
  pose proof (proj1 (parse_fuel_enough tokens (parse_fuel tokens)) 0%nat) as T.
  assert (E : parseExpression (parse_fuel tokens) tokens 0 = Ok (e, length tokens)).
  { destruct (Nat.le_ge_cases f (parse_fuel tokens)) as [L|L].
    - rewrite (proj1 (parse_fuel_mono tokens f) 0%nat _ L); [assumption|].
      rewrite H. discriminate.
    - rewrite <- H. symmetry.
      apply (proj1 (parse_fuel_mono tokens (parse_fuel tokens)) 0%nat _ L).
      intros E. rewrite E in T. apply T. unfold parse_fuel. lia. }
  rewrite E. rewrite Nat.eqb_refl. reflexivity.
Qed.

(** ** Reader: one expression for each input *)

(** Tokens after those of an expression do not change how it is parsed. *)
Lemma parse_more_tokens (tokens rest : list string) (f : nat) :
  (forall pos r, parseExpression f tokens pos = Ok r ->
     parseExpression f (tokens ++ rest) pos = Ok r) /\
  (forall l pos r, parseList f tokens l pos = Ok r ->
     parseList f (tokens ++ rest) l pos = Ok r).
Proof.
  induction f as [|f [IHe IHl]]; split; intros; try (simpl in *; congruence).
  - simpl in *. destruct (tokens !! pos) as [token|] eqn:Hl; [|congruence].
    rewrite (lookup_app_l_Some _ _ _ _ Hl).
    destruct (String.eqb token "("); [apply IHl; assumption|].
    destruct (String.eqb token ")"); [congruence|].
    destruct (String.eqb token "'"); [|assumption].
    destruct (parseExpression f tokens (S pos)) as [[e p]| | |] eqn:E;
      try congruence.
    rewrite (IHe _ _ E). assumption.
  - simpl in *. destruct (tokens !! pos) as [token|] eqn:Hl; [|congruence].
    rewrite (lookup_app_l_Some _ _ _ _ Hl).
    destruct (String.eqb token ")"); [assumption|].
    destruct (parseExpression f tokens pos) as [[e p]| | |] eqn:E;
      try congruence.
    rewrite (IHe _ _ E). apply IHl; assumption.
Qed.

(** What [parse_tokens] returns was parsed from all the tokens. *)
Lemma parse_tokens_Ok (tokens : list string) (e : Value) :
  parse_tokens tokens = Ok e ->
  parseExpression (parse_fuel tokens) tokens 0 = Ok (e, length tokens).
Proof.
  unfold parse_tokens.
  destruct (parseExpression _ tokens 0) as [[e' p]| | |]; try discriminate.
  destruct (Nat.eqb p (length tokens)) eqn:E; simpl; [|discriminate].
  apply Nat.eqb_eq in E. congruence.
Qed.

(** C6. When the tokens of the input are those of one complete expression
    followed by more tokens, [parse] throws 'Unexpected extra input' and
    does not return the expression; when nothing follows them, [parse]
    returns the expression. *)
Theorem parse_rejects_trailing_input
  (input : string) (tokens rest : list string) (e : Value) :
  tokenize input = tokens ++ rest ->
  parse_tokens tokens = Ok e ->
  (rest <> [] -> parse input = Throw UnexpectedExtraInput) /\
  (rest = [] -> parse input = Ok e).
Proof.
  intros Htok He. unfold parse. rewrite Htok. split.
  - intros Hrest. apply parse_tokens_Ok in He.
    apply (proj1 (parse_more_tokens tokens rest _)) in He.
    unfold parse_tokens.
    pose proof (proj1 (parse_fuel_enough (tokens ++ rest)
                         (parse_fuel (tokens ++ rest))) 0%nat) as T.
    assert (L : (parse_fuel tokens <= parse_fuel (tokens ++ rest))%nat).
    { unfold parse_fuel. rewrite length_app. lia. }
    rewrite (proj1 (parse_fuel_mono (tokens ++ rest) (parse_fuel tokens)) 0%nat _ L);
      [|rewrite He; discriminate].
    rewrite He.
    destruct (Nat.eqb (length tokens) (length (tokens ++ rest))) eqn:E;
      [|reflexivity].
    apply Nat.eqb_eq in E. rewrite length_app in E.
    destruct rest; [congruence|simpl in E; lia].
  - intros ->. rewrite app_nil_r. assumption.
Qed.

(** The input of the specification: a definition followed by a symbol. *)
Lemma parse_rejects_trailing_input_witness :
  parse "(define x 5) x" = Throw UnexpectedExtraInput /\
  parse "(define x 5)" =
    Ok (Cons (Str "define") (Cons (Str "x") (Cons (Num (Float64.of_Z 5)) Null))).
Proof.
  split.
  - apply (proj1 (parse_rejects_trailing_input "(define x 5) x"
             ["("; "define"; "x"; "5"; ")"] ["x"]
             (Cons (Str "define") (Cons (Str "x") (Cons (Num (Float64.of_Z 5)) Null)))
             eq_refl eq_refl)).
    discriminate.
  - apply (proj2 (parse_rejects_trailing_input "(define x 5)"
             ["("; "define"; "x"; "5"; ")"] [] _ eq_refl eq_refl)).
    reflexivity.
Defined.

(** ** Reader: atoms *)

(** Rounding a mantissa that is not negative never gives NaN. *)
Lemma iter_pos_invariant {A} (P : A -> Prop) (f : A -> A) :
  (forall x, P x -> P (f x)) -> forall p x, P x -> P (SpecFloat.iter_pos f p x).
Proof.
  intros Hf. induction p as [p IH|p IH|]; intros x Hx; simpl; auto.
Qed.

Lemma shr_1_nonneg mrs : 0 <= shr_m mrs -> 0 <= shr_m (shr_1 mrs).
Proof.
  destruct mrs as [m r s]. simpl. intros H.
  destruct m as [|[p|p|]|p]; simpl; lia.
Qed.

Lemma shr_fexp_nonneg m e l :
  0 <= m -> 0 <= shr_m (fst (shr_fexp Float64.prec Float64.emax m e l)).
Proof.
  intros H. unfold shr_fexp, shr.
  assert (H0 : 0 <= shr_m (shr_record_of_loc m l)).
  { destruct l as [|[| |]]; simpl; assumption. }
  destruct (_ - e); simpl; try assumption.
  apply (iter_pos_invariant (fun mrs => 0 <= shr_m mrs)); [apply shr_1_nonneg|assumption].
Qed.

Lemma round_nearest_even_nonneg m l : 0 <= m -> 0 <= round_nearest_even m l.
Proof.
  intros H. destruct l as [|[| |]]; simpl; try lia. destruct (Z.even m); lia.
Qed.

Lemma binary_round_aux_not_nan s m e l :
  0 <= m -> Float64.is_nan (binary_round_aux Float64.prec Float64.emax s m e l) = false.
Proof.
  intros H. unfold binary_round_aux.
  pose proof (shr_fexp_nonneg m e l H) as H1.
  destruct (shr_fexp Float64.prec Float64.emax m e l) as [mrs' e']. simpl in H1.
  pose proof (shr_fexp_nonneg _ e' loc_Exact
                (round_nearest_even_nonneg _ (loc_of_shr_record mrs') H1)) as H2.
  destruct (shr_fexp _ _ _ e' loc_Exact) as [mrs'' e'']. simpl in H2.
  destruct (shr_m mrs''); try reflexivity; [|lia].
  destruct (e'' <=? _); reflexivity.
Qed.

Lemma of_Z_not_nan n : Float64.is_nan (Float64.of_Z n) = false.
Proof.
  unfold Float64.of_Z, binary_normalize, binary_round.
  destruct n; try reflexivity;
    destruct (shl_align _ _ _); apply binary_round_aux_not_nan; lia.
Qed.

Lemma of_decimal_not_nan m e : 0 <= m -> Float64.is_nan (Float64.of_decimal m e) = false.
Proof.
  intros H. unfold Float64.of_decimal. destruct m; try reflexivity; [|lia].
  destruct e; try apply of_Z_not_nan.
  unfold SFdiv_core_binary.
  match goal with |- context [Z.div_eucl ?a ?b] =>
    pose proof (Z.div_eucl_eq a b) as E; 
    pose proof (Z_div_mod a b) as D;
    destruct (Z.div_eucl a b) as [q r] end.
  apply binary_round_aux_not_nan.
  assert (0 < 10 ^ Z.pos p0) by (apply Z.pow_pos_nonneg; lia).
  specialize (D ltac:(lia)). 
  match type of D with ?a = _ /\ _ => assert (0 <= a) end.
  { destruct (_ - _); try lia. apply Z.shiftl_nonneg. lia. }
  nia.
Qed.

(** *** The longest numeric prefix *)

Lemma string_app_cons a (s t : string) : String a s +:+ t = String a (s +:+ t).
Proof. reflexivity. Qed.

Lemma string_app_nil_l (s : string) : "" +:+ s = s.
Proof. reflexivity. Qed.

Lemma string_app_nil_r (s : string) : s +:+ "" = s.
Proof. induction s as [|a s IH]; [reflexivity|]. rewrite string_app_cons, IH. reflexivity. Qed.

Lemma scan_digits_nonneg s : forall acc len,
  0 <= acc -> 0 <= fst (fst (scan_digits s acc len)).
Proof.
  induction s as [|a s IH]; intros acc len H; simpl; [assumption|].
  destruct (is_digit a) eqn:D; [|assumption].
  apply IH. unfold is_digit in D. apply andb_prop in D as [D1 D2].
  apply N.leb_le in D1. unfold digit_val. lia.
Qed.

Lemma ends_literal_digits junk :
  ends_literal junk = true -> forall acc len, scan_digits junk acc len = (acc, len, junk).
Proof.
  destruct junk as [|c junk]; intros H acc len; [reflexivity|].
  simpl in *. destruct (is_digit c); [discriminate|reflexivity].
Qed.

Lemma scan_digits_app junk s : forall acc len v n r,
  scan_digits s acc len = (v, n, r) ->
  r <> "" \/ ends_literal junk = true ->
  scan_digits (s +:+ junk) acc len = (v, n, r +:+ junk).
Proof.
  induction s as [|a s IH]; intros acc len v n r H Hr.
  - simpl in H. injection H as <- <- <-. destruct Hr as [Hr|Hr]; [congruence|].
    rewrite !string_app_nil_l. apply ends_literal_digits. assumption.
  - simpl in H. rewrite string_app_cons. simpl.
    destruct (is_digit a); [apply IH; assumption|].
    injection H as <- <- <-. reflexivity.
Qed.

Lemma scan_exponent_app junk s e :
  scan_exponent s = (e, "") -> ends_literal junk = true ->
  scan_exponent (s +:+ junk) = (e, junk).
Proof.
  intros H J. destruct s as [|a s].
  - rewrite string_app_nil_l. simpl in *. injection H as <-. destruct junk as [|c junk]; [reflexivity|].
    simpl in *. destruct (Ascii.eqb c "e"), (Ascii.eqb c "E"); simpl in *; try reflexivity;
    rewrite ?orb_true_r in J; try discriminate;
    destruct (is_digit c), (Ascii.eqb c "."); simpl in J; discriminate.
  - rewrite string_app_cons. unfold scan_exponent in *.
    destruct (Ascii.eqb a "e" || Ascii.eqb a "E"); [|discriminate].
    assert (X : forall neg ds, 
      (let '(v, n, rest) := scan_digits ds 0 0 in
       if 0 <? n then (if neg : bool then - v else v, rest) else (0, String a s)) = (e, "") ->
      (let '(v, n, rest) := scan_digits (ds +:+ junk) 0 0 in
       if 0 <? n then (if neg then - v else v, rest) else (0, String a (s +:+ junk))) = (e, junk)).
    { intros neg ds. destruct (scan_digits ds 0 0) as [[v n] rest] eqn:E.
      destruct (0 <? n) eqn:N; [|discriminate].
      intros [= <- ->].
      rewrite (scan_digits_app junk ds 0 0 v n "" E (or_intror J)). rewrite N. reflexivity. }
    destruct s as [|c s'].
    + simpl in H. discriminate.
    + rewrite string_app_cons.
      destruct (Ascii.eqb c "+"); [exact (X false s' H)|].
      destruct (Ascii.eqb c "-"); [exact (X true s' H)|].
      exact (X false (String c s') H).
Qed.

Lemma after_prefix_app_r p : forall s rest junk,
  after_prefix p s = Some rest -> after_prefix p (s +:+ junk) = Some (rest +:+ junk).
Proof.
  induction p as [|a p IH]; intros s rest junk H; simpl in *.
  - congruence.
  - destruct s as [|b s]; [discriminate|]. rewrite string_app_cons.
    destruct (Ascii.eqb a b); [apply IH; assumption|discriminate].
Qed.

(** A string that is not empty and does not start with [I] keeps not
    starting with [Infinity] whatever is appended. *)
Lemma strip_Infinity_app c s junk :
  Ascii.eqb "I" c = false ->
  after_prefix "Infinity" (String c s +:+ junk) = None.
Proof.
  intros H. rewrite string_app_cons.
  change (after_prefix "Infinity" (String c (s +:+ junk)))
    with (if Ascii.eqb "I" c then after_prefix "nfinity" (s +:+ junk) else None).
  rewrite H. reflexivity.
Qed.

Lemma scan_unsigned_app junk s x :
  scan_unsigned s = Some (x, "") -> ends_literal junk = true ->
  scan_unsigned (s +:+ junk) = Some (x, junk).
Proof.
  intros H J. unfold scan_unsigned in *.
  destruct (after_prefix "Infinity" s) as [rest|] eqn:P.
  { injection H as <- ->. rewrite (after_prefix_app_r _ _ _ junk P). reflexivity. }
  destruct (scan_digits s 0 0) as [[int_v int_n] r1] eqn:D.
  assert (P' : after_prefix "Infinity" (s +:+ junk) = None).
  { destruct s as [|c s].
    - simpl in D. injection D as <- <- <-. simpl in H. discriminate.
    - apply strip_Infinity_app. destruct (Ascii.eqb "I" c) eqn:E; [|reflexivity].
      apply Ascii.eqb_eq in E. subst c. simpl in D. injection D as <- <- <-.
      simpl in H. discriminate. }
  rewrite P'.
  assert (R1 : r1 <> "" \/ ends_literal junk = true) by (right; assumption).
  rewrite (scan_digits_app junk s 0 0 _ _ _ D R1).
  destruct r1 as [|c r2].
  - rewrite string_app_nil_l. 
    destruct (int_n + 0 =? 0) eqn:Z0; [discriminate|].
    simpl in H. injection H as <-.
    assert (JJ : match junk with
      | "" => (int_v, 0, junk)
      | String c r2 => if Ascii.eqb c "." then scan_digits r2 int_v 0 else (int_v, 0, junk)
      end = (int_v, 0, junk)).
    { destruct junk as [|c j]; [reflexivity|]. simpl in J.
      destruct (Ascii.eqb c "."); [|reflexivity].
      rewrite !orb_true_r in J. discriminate. }
    rewrite JJ, Z0.
    pose proof (scan_exponent_app junk "" 0 eq_refl J) as EJ.
    rewrite string_app_nil_l in EJ. rewrite EJ. reflexivity.
  - rewrite string_app_cons.
    destruct (Ascii.eqb c ".").
    + destruct (scan_digits r2 int_v 0) as [[m frac_n] r3] eqn:D2.
      destruct (int_n + frac_n =? 0) eqn:Z1; [discriminate|].
      destruct (scan_exponent r3) as [e rest] eqn:E. injection H as <- ->.
      assert (R3 : r3 <> "" \/ ends_literal junk = true) by (right; assumption).
      rewrite (scan_digits_app junk r2 _ _ _ _ _ D2 R3), Z1.
      rewrite (scan_exponent_app junk r3 e E J). reflexivity.
    + destruct (int_n + 0 =? 0) eqn:Z1; [discriminate|].
      destruct (scan_exponent (String c r2)) as [e rest] eqn:E. injection H as <- ->.
      change (String c (r2 +:+ junk)) with (String c r2 +:+ junk).
      rewrite (scan_exponent_app junk _ e E J). reflexivity.
Qed.

Lemma scan_decimal_app junk s x :
  scan_decimal s = Some (x, "") -> ends_literal junk = true ->
  scan_decimal (s +:+ junk) = Some (x, junk).
Proof.
  intros H J. destruct s as [|c s]; [discriminate|].
  rewrite string_app_cons. unfold scan_decimal in *.
  destruct (Ascii.eqb c "-").
  { destruct (scan_unsigned s) as [[y rest]|] eqn:U; [|discriminate].
    injection H as <- ->. rewrite (scan_unsigned_app junk s y U J). reflexivity. }
  destruct (Ascii.eqb c "+"); [apply scan_unsigned_app; assumption|].
  change (String c (s +:+ junk)) with (String c s +:+ junk).
  apply scan_unsigned_app; assumption.
Qed.

Lemma scan_unsigned_not_nan s x rest :
  scan_unsigned s = Some (x, rest) -> Float64.is_nan x = false.
Proof.
  unfold scan_unsigned.
  destruct (after_prefix "Infinity" s); [intros [= <- _]; reflexivity|].
  pose proof (scan_digits_nonneg s 0 0 ltac:(lia)) as N1.
  destruct (scan_digits s 0 0) as [[int_v int_n] r1]. simpl in N1.
  assert (N2 : 0 <= fst (fst (match r1 with
            | "" => (int_v, 0, r1)
            | String c r2 =>
                if Ascii.eqb c "." then scan_digits r2 int_v 0 else (int_v, 0, r1)
            end))).
  { destruct r1 as [|c r2]; [assumption|].
    destruct (Ascii.eqb c "."); [|assumption].
    apply scan_digits_nonneg. assumption. }
  destruct (match r1 with "" => _ | String _ _ => _ end) as [[m frac_n] r3].
  simpl in N2.
  destruct (int_n + frac_n =? 0); [discriminate|].
  destruct (scan_exponent r3) as [e rest']. intros [= <- _].
  apply of_decimal_not_nan. assumption.
Qed.

Lemma scan_decimal_not_nan s x rest :
  scan_decimal s = Some (x, rest) -> Float64.is_nan x = false.
Proof.
  destruct s as [|c s]; [discriminate|]. unfold scan_decimal.
  destruct (Ascii.eqb c "-").
  { destruct (scan_unsigned s) as [[y r]|] eqn:U; [|discriminate].
    intros [= <- _]. apply scan_unsigned_not_nan in U. destruct y; auto. }
  destruct (Ascii.eqb c "+"); apply scan_unsigned_not_nan.
Qed.

(** A decimal literal starts with neither white space nor [#]. *)
Lemma scan_decimal_first c s r :
  scan_decimal (String c s) = Some r ->
  is_space c = false /\ Ascii.eqb c "#" = false.
Proof.
  intros H.
  destruct c as [[] [] [] [] [] [] [] []];
    try (split; reflexivity); exfalso; revert H;
    unfold scan_decimal, scan_unsigned; simpl;
    try discriminate.
Qed.

(** [parseAtom], by the longest numeric prefix of the token. *)
Lemma parseAtom_cases (token : string) :
  parseAtom token =
    if String.eqb token "#t" || String.eqb token "#f"
    then Bool (String.eqb token "#t")
    else match scan_decimal (trimStart token) with
         | Some (x, _) => Num x
         | None => Str token
         end.
Proof.
  unfold parseAtom, parseFloat.
  destruct (String.eqb token "#t" || String.eqb token "#f"); [reflexivity|].
  destruct (scan_decimal (trimStart token)) as [[x rest]|] eqn:S; [|reflexivity].
  rewrite (scan_decimal_not_nan _ _ _ S). reflexivity.
Qed.

(** C10. A token made of a decimal literal and of characters that do not
    extend it is read as the number of the literal, not as a symbol; and a
    token is read as a symbol only when it is not [#t] or [#f] and no
    prefix of it is a decimal literal, in which case the symbol is the
    token. *)
Theorem parseAtom_numeric_prefix (lit junk : string) (x : spec_float) :
  scan_decimal lit = Some (x, "") ->
  ends_literal junk = true ->
  parseAtom (lit +:+ junk) = Num x /\
  (forall token s, parseAtom token = Str s ->
     s = token /\ token <> "#t" /\ token <> "#f" /\
     scan_decimal (trimStart token) = None) /\
  (forall token, token <> "#t" -> token <> "#f" ->
     scan_decimal (trimStart token) = None -> parseAtom token = Str token).
Proof.
  intros H J. split; [|split].
  - rewrite parseAtom_cases.
    destruct lit as [|c lit]; [discriminate|].
    destruct (scan_decimal_first c lit _ H) as [Hs Hh].
    rewrite string_app_cons.
    assert (E1 : String.eqb (String c (lit +:+ junk)) "#t" = false).
    { simpl. rewrite Hh. reflexivity. }
    assert (E2 : String.eqb (String c (lit +:+ junk)) "#f" = false).
    { simpl. rewrite Hh. reflexivity. }
    rewrite E1, E2. simpl. rewrite Hs.
    change (String c (lit +:+ junk)) with (String c lit +:+ junk).
    rewrite (scan_decimal_app junk _ x H J). reflexivity.
  - intros token s. rewrite parseAtom_cases.
    destruct (String.eqb token "#t") eqn:E1; [discriminate|].
    destruct (String.eqb token "#f") eqn:E2; [discriminate|]. simpl.
    apply String.eqb_neq in E1, E2.
    destruct (scan_decimal (trimStart token)) as [[y r]|]; [discriminate|].
    intros [= <-]. auto.
  - intros token H1 H2 N. rewrite parseAtom_cases, N.
    apply String.eqb_neq in H1, H2. rewrite H1, H2. reflexivity.
Qed.

(** The tokens [3.5x] and [1abc]. *)
Lemma parseAtom_numeric_prefix_witness :
  parseAtom "3.5x" = Num (Float64.of_decimal 35 (-1)) /\
  parseAtom "1abc" = Num (Float64.of_Z 1) /\
  parseAtom "abc" = Str "abc".
Proof.
  split; [|split].
  - exact (proj1 (parseAtom_numeric_prefix "3.5" "x" _ eq_refl eq_refl)).
  - exact (proj1 (parseAtom_numeric_prefix "1" "abc" _ eq_refl eq_refl)).
  - apply (proj2 (proj2 (parseAtom_numeric_prefix "1" "abc" _ eq_refl eq_refl)));
      [discriminate|discriminate|reflexivity].
Defined.

(** ** Evaluator: unfolding *)

Lemma bind_Ok {A B} (c : M A) (k : A -> M B) st a st' :
  c st = (Ok a, st') -> bind c k st = k a st'.
Proof. intros H. unfold bind. rewrite H. reflexivity. Qed.

Lemma bind_inv {A B} (c : M A) (k : A -> M B) st b st2 :
  bind c k st = (Ok b, st2) ->
  exists a st1, c st = (Ok a, st1) /\ k a st1 = (Ok b, st2).
Proof.
  unfold bind. destruct (c st) as [[a| | |] st1]; try discriminate.
  intros H. exists a, st1. auto.
Qed.

Lemma evaluate_S stk gas expr env :
  evaluate (S stk) gas expr env =
    (let* result := evaluateWithTailCall stk gas expr env in
     trampoline stk gas result).
Proof. reflexivity. Qed.

Lemma trampoline_S stk gas result :
  trampoline (S stk) gas result = trampoline_loop (call_func stk gas) gas result.
Proof. reflexivity. Qed.

Lemma trampoline_loop_not_thunk (f : ThunkFunc -> M Value) (gas : nat) :
  forall result st v st',
    trampoline_loop f gas result st = (Ok v, st') -> is_thunk v = false.
Proof.
  induction gas as [|gas IH]; intros result st v st' H.
  - destruct result; simpl in H; try discriminate; injection H as <- _; reflexivity.
  - destruct result; simpl in H; try (injection H as <- _; reflexivity).
    apply bind_inv in H as (r & st1 & _ & H). eapply IH. exact H.
Qed.

(** ** Evaluator: budgets *)

(** A larger stack and more gas do not change an outcome reached within the
    smaller budget. *)
Lemma agrees_refl {A} (c : M A) : agrees c c.
Proof. intros st r st' H _. exact H. Qed.

Lemma definite_Ok {A} (a : A) : definite (Ok a).
Proof. reflexivity. Qed.

Lemma agrees_bind {A B} (c1 c2 : M A) (k1 k2 : A -> M B) :
  agrees c1 c2 -> (forall a, agrees (k1 a) (k2 a)) ->
  agrees (bind c1 k1) (bind c2 k2).
Proof.
  intros Hc Hk st r st' H D. unfold bind in *.
  destruct (c1 st) as [[a|e| |] st1] eqn:E.
  - rewrite (Hc _ _ _ E (definite_Ok a)). apply Hk; assumption.
  - injection H as <- <-. rewrite (Hc _ _ _ E D). reflexivity.
  - injection H as <- <-. discriminate D.
  - injection H as <- <-. rewrite (Hc _ _ _ E D). reflexivity.
Qed.

Lemma agrees_throw_RangeError {A} (c : M A) : agrees (throw RangeError) c.
Proof. intros st r st' [= <- <-] D. discriminate D. Qed.

Lemma agrees_OutOfGas {A} (c : M A) : agrees (lift OutOfGas) c.
Proof. intros st r st' [= <- <-] D. discriminate D. Qed.

Lemma lookup_agrees stk : forall stk' this symbol, (stk <= stk')%nat ->
  agrees (Environment_lookup stk this symbol) (Environment_lookup stk' this symbol).
Proof.
  induction stk as [|stk IH]; intros stk' this symbol L st r st' H D.
  - simpl in H. injection H as <- <-. discriminate D.
  - destruct stk' as [|stk']; [lia|]. simpl in *.
    destruct (st !! this) as [frame|]; [|assumption].
    destruct (map_get (vars frame) symbol); [assumption|].
    destruct (parent frame) as [p|]; [|assumption].
    apply (IH stk' p symbol ltac:(lia) st r st' H D).
Qed.

Section LoopsAgree.
Variables ev1 ev2 : Value -> addr -> M Value.
Hypothesis Hev : forall e env, agrees (ev1 e env) (ev2 e env).

Lemma begin_loop_agrees env expressions : forall result,
  agrees (begin_loop ev1 env expressions result) (begin_loop ev2 env expressions result).
Proof.
  induction expressions as [| | | | |car _ cdr IH| | |]; intros result;
    try apply agrees_refl.
  simpl. destruct cdr; try apply agrees_refl;
    (apply agrees_bind; [apply Hev|intros a; apply IH]).
Qed.

Lemma args_loop_agrees env argList : forall evaluatedArgs,
  agrees (args_loop ev1 env argList evaluatedArgs) (args_loop ev2 env argList evaluatedArgs).
Proof.
  induction argList as [| | | | |car _ cdr IH| | |]; intros evaluatedArgs;
    try apply agrees_refl.
  simpl. apply agrees_bind; [apply Hev|intros a; apply IH].
Qed.

Variables f1 f2 : ThunkFunc -> M Value.
Hypothesis Hf : forall t, agrees (f1 t) (f2 t).

Lemma trampoline_loop_agrees gas : forall gas' result, (gas <= gas')%nat ->
  agrees (trampoline_loop f1 gas result) (trampoline_loop f2 gas' result).
Proof.
  induction gas as [|gas IH]; intros gas' result L.
  - destruct result; try (destruct gas'; apply agrees_refl).
    simpl. apply agrees_OutOfGas.
  - destruct gas' as [|gas']; [lia|].
    destruct result; try apply agrees_refl.
    simpl. apply agrees_bind; [apply Hf|intros a; apply IH; lia].
Qed.
End LoopsAgree.

Lemma evaluate_agrees stk :
  forall stk' gas gas', (stk <= stk')%nat -> (gas <= gas')%nat ->
  (forall expr env, agrees (evaluate stk gas expr env) (evaluate stk' gas' expr env)) /\
  (forall expr env, agrees (evaluateWithTailCall stk gas expr env)
                           (evaluateWithTailCall stk' gas' expr env)) /\
  (forall result, agrees (trampoline stk gas result) (trampoline stk' gas' result)) /\
  (forall func, agrees (call_func stk gas func) (call_func stk' gas' func)) /\
  (forall proc params, agrees (call_proc stk gas proc params)
                              (call_proc stk' gas' proc params)).
Proof.
  induction stk as [|stk IH]; intros stk' gas gas' Ls Lg.
  { repeat split; intros; apply agrees_throw_RangeError. }
  destruct stk' as [|stk']; [lia|].
  destruct (IH stk' gas gas' ltac:(lia) Lg) as (IHe & IHt & IHtr & IHf & IHp).
  repeat split.
  - intros expr env. simpl. apply agrees_bind; [apply IHt|intros a; apply IHtr].
  - intros expr env. simpl. destruct expr; try apply agrees_refl.
    + apply lookup_agrees. lia.
    + destruct (case_label expr1 "quote"); [apply agrees_refl|].
      destruct (case_label expr1 "if"); [apply agrees_refl|].
      destruct (case_label expr1 "lambda"); [apply agrees_refl|].
      destruct (case_label expr1 "define").
      { repeat (apply agrees_bind; [first [apply agrees_refl | apply IHe]|intros ?]).
        apply agrees_refl. }
      destruct (case_label expr1 "begin").
      { apply begin_loop_agrees. apply IHe. }
      apply agrees_bind; [apply IHe|intros proc].
      apply agrees_bind; [apply args_loop_agrees; apply IHe|intros args].
      apply agrees_refl.
  - intros result. simpl. apply trampoline_loop_agrees; [apply IHf|assumption].
  - intros func. simpl. destruct func.
    + repeat (apply agrees_bind; [first [apply agrees_refl | apply IHe]|intros ?]).
      apply IHt.
    + apply agrees_bind; [apply agrees_refl|intros ?]. apply IHt.
    + apply IHp.
  - intros proc params. simpl. destruct proc; try apply agrees_refl.
    repeat (apply agrees_bind; [apply agrees_refl|intros ?]). apply IHt.
Qed.

(** What [evaluate] returns within a budget, it returns within any larger
    one. *)
Lemma evaluate_budget stk gas stk' gas' expr env st r st' :
  evaluate stk gas expr env st = (r, st') -> definite r ->
  (stk <= stk')%nat -> (gas <= gas')%nat ->
  evaluate stk' gas' expr env st = (r, st').
Proof.
  intros H D Ls Lg.
  exact (proj1 (evaluate_agrees stk stk' gas gas' Ls Lg) expr env st r st' H D).
Qed.

(** ** Evaluator: the trampoline is resolved *)

(** C3. A value that [evaluate] returns is never a thunk: the loop of
    [trampoline] has called every pending thunk before. *)
Theorem evaluate_never_returns_thunk stk gas expr env st v st' :
  evaluate stk gas expr env st = (Ok v, st') -> is_thunk v = false.
Proof.
  destruct stk as [|stk]; [discriminate|].
  rewrite evaluate_S. intros H.
  apply bind_inv in H as (r & st1 & _ & H).
  destruct stk as [|stk]; [discriminate|].
  rewrite trampoline_S in H. eapply trampoline_loop_not_thunk. exact H.
Qed.

(** [(if #f 1 2)]: the step function returns a thunk, [evaluate] the value
    the thunk leads to. *)
Lemma evaluate_never_returns_thunk_witness :
  is_thunk (num 2) = false /\
  evaluate 5 1 (if_form (Bool false) (num 1) (num 2)) globalEnv globalStore
    = (Ok (num 2), globalStore) /\
  evaluateWithTailCall 5 1 (if_form (Bool false) (num 1) (num 2)) globalEnv globalStore
    = (Ok (Thunk (ThIf (Cons (Bool false) (Cons (num 1) (Cons (num 2) Null))) globalEnv)),
       globalStore).
Proof.
  split; [|split; reflexivity].
  apply (evaluate_never_returns_thunk 5 1
           (if_form (Bool false) (num 1) (num 2)) globalEnv globalStore
           (num 2) globalStore).
  reflexivity.
Defined.

(** ** Evaluator: [if] *)

(** The values that select the alternative of an [if]. *)
Lemma truthy_false (v : Value) :
  truthy v = false <->
  v = Bool false \/ (exists s, v = Num (S754_zero s)) \/ v = Num S754_nan \/
  v = Str "" \/ v = Null \/ v = Undefined.
Proof.
  split.
  - destruct v as [x|b|s| | | | | |]; simpl; try discriminate; auto 8.
    + destruct x; simpl; try discriminate; eauto 6.
    + destruct b; [discriminate|auto].
    + destruct s; simpl; [auto 6|discriminate].
  - intros [->|[[s ->]|[->|[->|[->| ->]]]]]; reflexivity.
Qed.

(** C1, as the program has it. [(if C T F)] first evaluates [C] and then
    continues at [T] when the value of [C] converts to [true] and at [F]
    when it converts to [false], which [false], [0], [NaN], the empty list,
    the value of a [define] and the symbol of empty name do. In the global
    environment [(if #f 1 2)] and [(if 0 1 2)] both evaluate to 2. *)
Theorem if_continues_by_conversion_to_boolean :
  (forall stk gas C T F env st,
     evaluate (S (S (S stk))) (S gas) (if_form C T F) env st =
       (let* condition := evaluate stk (S gas) C env in
        let* result :=
          evaluateWithTailCall stk (S gas) (if truthy condition then T else F) env in
        trampoline_loop (call_func (S stk) (S gas)) gas result) st) /\
  (forall v, truthy v = false <->
     v = Bool false \/ (exists s, v = Num (S754_zero s)) \/ v = Num S754_nan \/
     v = Str "" \/ v = Null \/ v = Undefined) /\
  (forall stk gas, (5 <= stk)%nat -> (1 <= gas)%nat ->
     parse "(if #f 1 2)" = Ok (if_form (Bool false) (num 1) (num 2)) /\
     evaluate stk gas (if_form (Bool false) (num 1) (num 2)) globalEnv globalStore
       = (Ok (num 2), globalStore) /\
     parse "(if 0 1 2)" = Ok (if_form (num 0) (num 1) (num 2)) /\
     evaluate stk gas (if_form (num 0) (num 1) (num 2)) globalEnv globalStore
       = (Ok (num 2), globalStore)).
Proof.
  split; [|split].
  - intros stk gas C T F env st.
    rewrite evaluate_S. unfold if_form.
    change (evaluateWithTailCall (S (S stk)) (S gas)
              (Cons (Str "if") (Cons C (Cons T (Cons F Null)))) env)
      with (ret (A:=Value) (Thunk (ThIf (Cons C (Cons T (Cons F Null))) env))).
    unfold bind at 1, ret at 1.
    rewrite trampoline_S.
    change (trampoline_loop (call_func (S stk) (S gas)) (S gas)
              (Thunk (ThIf (Cons C (Cons T (Cons F Null))) env)))
      with (let* result := call_func (S stk) (S gas)
                             (ThIf (Cons C (Cons T (Cons F Null))) env) in
            trampoline_loop (call_func (S stk) (S gas)) gas result).
    unfold bind. simpl. unfold bind, lift.
    destruct (evaluate stk (S gas) C env st) as [[c| | |] st1]; try reflexivity.
    destruct (truthy c); reflexivity.
  - exact truthy_false.
  - intros stk gas Ls Lg. repeat split; try reflexivity.
    + apply (evaluate_budget 5 1); [reflexivity|reflexivity|assumption|assumption].
    + apply (evaluate_budget 5 1); [reflexivity|reflexivity|assumption|assumption].
Qed.

(** [(if 0 1 2)] does not evaluate to 1, whatever the budget. *)
Lemma if_zero_is_not_truthy :
  ~ (exists stk gas e st',
       parse "(if 0 1 2)" = Ok e /\
       evaluate stk gas e globalEnv globalStore = (Ok (num 1), st')).
Proof.
  intros (stk & gas & e & st' & Hp & He).
  assert (Hp' : parse "(if 0 1 2)" = Ok (if_form (num 0) (num 1) (num 2)))
    by reflexivity.
  rewrite Hp' in Hp. injection Hp as <-.
  apply (evaluate_budget _ _ (Nat.max stk 5) (Nat.max gas 1)) in He;
    [|reflexivity|lia|lia].
  assert (H2 : evaluate (Nat.max stk 5) (Nat.max gas 1)
                 (if_form (num 0) (num 1) (num 2)) globalEnv globalStore
               = (Ok (num 2), globalStore)).
  { apply (evaluate_budget 5 1); [reflexivity|reflexivity|lia|lia]. }
  rewrite H2 in He. discriminate He.
Qed.

(** ** The global environment *)

(** C5. The global environment binds [+], [-], [*], [/], [=], [<] and [>]
    to the primitive procedures; applied to two numbers the first four
    return the number of the binary64 operation and the last three the
    boolean of the comparison; and [(+ 1 2)] evaluates to 3 there. *)
Theorem global_environment_primitives :
  (forall stk sym p,
     In (sym, p) [("+", PAdd); ("-", PSub); ("*", PMul); ("/", PDiv);
                  ("=", PEq); ("<", PLt); (">", PGt)] ->
     Environment_lookup (S stk) globalEnv sym globalStore
       = (Ok (Primitive p), globalStore)) /\
  (forall stk gas a b st,
     call_proc (S stk) gas (Primitive PAdd) [Num a; Num b] st
       = (Ok (Num (Float64.add a b)), st) /\
     call_proc (S stk) gas (Primitive PSub) [Num a; Num b] st
       = (Ok (Num (Float64.sub a b)), st) /\
     call_proc (S stk) gas (Primitive PMul) [Num a; Num b] st
       = (Ok (Num (Float64.mul a b)), st) /\
     call_proc (S stk) gas (Primitive PDiv) [Num a; Num b] st
       = (Ok (Num (Float64.div a b)), st) /\
     call_proc (S stk) gas (Primitive PEq) [Num a; Num b] st
       = (Ok (Bool (Float64.eqb a b)), st) /\
     call_proc (S stk) gas (Primitive PLt) [Num a; Num b] st
       = (Ok (Bool (Float64.ltb a b)), st) /\
     call_proc (S stk) gas (Primitive PGt) [Num a; Num b] st
       = (Ok (Bool (Float64.ltb b a)), st)) /\
  (forall stk gas, (5 <= stk)%nat -> (1 <= gas)%nat ->
     parse "(+ 1 2)" = Ok (Cons (Str "+") (Cons (num 1) (Cons (num 2) Null))) /\
     evaluate stk gas (Cons (Str "+") (Cons (num 1) (Cons (num 2) Null)))
       globalEnv globalStore
       = (Ok (num 3), globalStore)).
Proof.
  split; [|split].
  - intros stk sym p H. simpl in H.
    repeat (destruct H as [[= <- <-]|H]; [reflexivity|]). destruct H.
  - intros stk gas a b st. repeat split; reflexivity.
  - intros stk gas Ls Lg. split; [reflexivity|].
    apply (evaluate_budget 5 1); [reflexivity|reflexivity|assumption|assumption].
Qed.

(** ** Evaluator: what a call leaves in the store *)

(** A relation between stores that holds from a store to itself, composes,
    and holds across the creation of an environment and across a [define],
    holds from the store a call starts in to the store it leaves, however the
    call ends. *)
Section Keeps.
Variable R : Store -> Store -> Prop.
Hypothesis R_refl : forall st, R st st.
Hypothesis R_trans : forall st1 st2 st3, R st1 st2 -> R st2 st3 -> R st1 st3.
Hypothesis R_new : forall st p, R st (st ++ [mkEnvironment [] p]).
Hypothesis R_define : forall st this frame s v,
  st !! this = Some frame ->
  R st (<[this := mkEnvironment (map_set (vars frame) s v) (parent frame)]> st).

Lemma keeps_ret {A} (a : A) : keeps R (ret a).
Proof. intros st. apply R_refl. Qed.

Lemma keeps_throw {A} e : keeps R (throw (A:=A) e).
Proof. intros st. apply R_refl. Qed.

Lemma keeps_lift {A} (o : Outcome A) : keeps R (lift o).
Proof. intros st. apply R_refl. Qed.

Lemma keeps_bind {A B} (c : M A) (k : A -> M B) :
  keeps R c -> (forall a, keeps R (k a)) -> keeps R (bind c k).
Proof.
  intros Hc Hk st. unfold bind. specialize (Hc st).
  destruct (c st) as [[a| | |] st1]; simpl in *; try assumption.
  eapply R_trans; [exact Hc|apply Hk].
Qed.

Lemma keeps_new p : keeps R (new_Environment p).
Proof. intros st. apply R_new. Qed.

Lemma keeps_define this symbol value : keeps R (Environment_define this symbol value).
Proof.
  intros st. unfold Environment_define.
  destruct symbol; try apply R_refl.
  destruct (st !! this) as [frame|] eqn:E; [|apply R_refl].
  simpl. apply R_define. assumption.
Qed.

Lemma keeps_lookup stk : forall this symbol, keeps R (Environment_lookup stk this symbol).
Proof.
  induction stk as [|stk IH]; intros this symbol st; simpl; [apply R_refl|].
  destruct (st !! this) as [frame|]; [|apply R_refl].
  destruct (map_get (vars frame) symbol); [apply R_refl|].
  destruct (parent frame); [apply IH|apply R_refl].
Qed.

Lemma keeps_bind_params newEnv params : forall paramList,
  keeps R (bind_params newEnv params paramList).
Proof.
  induction params as [|param rest IH]; intros paramList; simpl; [apply keeps_ret|].
  apply keeps_bind; [apply keeps_lift|intros key].
  apply keeps_bind; [apply keeps_define|intros _].
  apply keeps_bind; [apply keeps_lift|intros next]. apply IH.
Qed.

Lemma keeps_begin_loop ev env expressions :
  (forall e env, keeps R (ev e env)) ->
  forall result, keeps R (begin_loop ev env expressions result).
Proof.
  intros Hev.
  induction expressions as [| | | | |car _ cdr IH| | |]; intros result;
    try apply keeps_ret.
  simpl. destruct cdr; try apply keeps_ret;
    (apply keeps_bind; [apply Hev|intros a; apply IH]).
Qed.

Lemma keeps_args_loop ev env argList :
  (forall e env, keeps R (ev e env)) ->
  forall evaluatedArgs, keeps R (args_loop ev env argList evaluatedArgs).
Proof.
  intros Hev.
  induction argList as [| | | | |car _ cdr IH| | |]; intros evaluatedArgs;
    try apply keeps_ret.
  simpl. apply keeps_bind; [apply Hev|intros a; apply IH].
Qed.

Lemma keeps_trampoline_loop f gas :
  (forall t, keeps R (f t)) ->
  forall result, keeps R (trampoline_loop f gas result).
Proof.
  intros Hf. induction gas as [|gas IH]; intros result.
  - destruct result; try apply keeps_ret. apply keeps_lift.
  - destruct result; try apply keeps_ret.
    simpl. apply keeps_bind; [apply Hf|intros a; apply IH].
Qed.

Lemma keeps_evaluator stk gas :
  (forall expr env, keeps R (evaluate stk gas expr env)) /\
  (forall expr env, keeps R (evaluateWithTailCall stk gas expr env)) /\
  (forall result, keeps R (trampoline stk gas result)) /\
  (forall func, keeps R (call_func stk gas func)) /\
  (forall proc params, keeps R (call_proc stk gas proc params)).
Proof.
  induction stk as [|stk (IHe & IHt & IHtr & IHf & IHp)].
  { repeat split; intros; apply keeps_throw. }
  repeat split.
  - intros expr env. simpl. apply keeps_bind; [apply IHt|intros a; apply IHtr].
  - intros expr env. simpl. destruct expr; try apply keeps_ret.
    + apply keeps_lookup.
    + destruct (case_label expr1 "quote"); [apply keeps_lift|].
      destruct (case_label expr1 "if"); [apply keeps_ret|].
      destruct (case_label expr1 "lambda"); [apply keeps_ret|].
      destruct (case_label expr1 "define").
      { repeat (apply keeps_bind; [first [apply keeps_lift | apply IHe | apply keeps_define]|intros ?]).
        apply keeps_ret. }
      destruct (case_label expr1 "begin").
      { apply keeps_begin_loop. apply IHe. }
      apply keeps_bind; [apply IHe|intros proc].
      apply keeps_bind; [apply keeps_args_loop; apply IHe|intros args].
      destruct (is_function proc); [apply keeps_ret|apply keeps_throw].
  - intros result. simpl. apply keeps_trampoline_loop. apply IHf.
  - intros func. simpl. destruct func.
    + apply keeps_bind; [apply keeps_lift|intros c].
      apply keeps_bind; [apply IHe|intros condition].
      apply keeps_bind; [apply keeps_lift|intros rest].
      apply keeps_bind; [|intros e; apply IHt].
      destruct (truthy condition); [apply keeps_lift|].
      apply keeps_bind; [apply keeps_lift|intros ?; apply keeps_lift].
    + apply keeps_bind; [apply keeps_lift|intros ?]. apply IHt.
    + apply IHp.
  - intros proc params. simpl. destruct proc; try apply keeps_throw.
    + apply keeps_lift.
    + apply keeps_bind; [apply keeps_new|intros newEnv].
      apply keeps_bind; [apply keeps_lift|intros paramList].
      apply keeps_bind; [apply keeps_bind_params|intros _].
      apply keeps_bind; [apply keeps_lift|intros rest].
      apply keeps_bind; [apply keeps_lift|intros body]. apply IHt.
Qed.
End Keeps.

Lemma map_set_keys m k v :
  map fst m `prefix_of` map fst (map_set m k v).
Proof.
  induction m as [|[k' v'] m IH]; simpl.
  - apply prefix_nil.
  - destruct (String.eqb k' k) eqn:E; simpl.
    + apply String.eqb_eq in E. subst. reflexivity.
    + apply prefix_cons. assumption.
Qed.

Lemma store_le_refl st : store_le st st.
Proof. intros a frame H. exists frame. split; [assumption|split; reflexivity]. Qed.

Lemma store_le_trans st1 st2 st3 : store_le st1 st2 -> store_le st2 st3 -> store_le st1 st3.
Proof.
  intros H12 H23 a f1 H1.
  destruct (H12 a f1 H1) as (f2 & H2 & P2 & K2).
  destruct (H23 a f2 H2) as (f3 & H3 & P3 & K3).
  exists f3. split; [assumption|split; [congruence|etransitivity; eassumption]].
Qed.

Lemma store_le_new st p : store_le st (st ++ [mkEnvironment [] p]).
Proof.
  intros a frame H. exists frame. split; [|split; reflexivity].
  apply lookup_app_l_Some. assumption.
Qed.

Lemma store_le_define st this frame s v :
  st !! this = Some frame ->
  store_le st (<[this := mkEnvironment (map_set (vars frame) s v) (parent frame)]> st).
Proof.
  intros H a f Ha. destruct (decide (a = this)) as [->|N].
  - rewrite H in Ha. injection Ha as <-.
    eexists. split; [apply list_lookup_insert_eq; eapply lookup_lt_Some; eassumption|].
    split; [reflexivity|]. apply map_set_keys.
  - exists f. split; [|split; reflexivity].
    rewrite list_lookup_insert_ne; [assumption|congruence].
Qed.

Lemma evaluate_store_le stk gas expr env st :
  store_le st (snd (evaluate stk gas expr env st)).
Proof.
  apply (proj1 (keeps_evaluator store_le store_le_refl store_le_trans
                  store_le_new store_le_define stk gas)).
Qed.

(** ** Evaluator: a failure does not undo definitions *)

(** A list made from a sequence that is not empty is a pair. *)
Lemma arrayToLinkedList_app_cons (before : list Value) (x : Value) (more : list Value) :
  exists car cdr, arrayToLinkedList (before ++ x :: more) = Cons car cdr.
Proof. destruct before; simpl; eauto. Qed.

(** The loop of [begin] stops at the first expression that throws, in the
    store that expression leaves. *)
Lemma begin_loop_failure ev env F more err (Hmore : more <> []) :
  forall before st st1 st2 result,
    eval_seq ev env before st = (Ok tt, st1) ->
    ev F env st1 = (Throw err, st2) ->
    begin_loop ev env (arrayToLinkedList (before ++ F :: more)) result st
      = (Throw err, st2).
Proof.
  induction before as [|e before IH]; intros st st1 st2 result Hseq HF.
  - simpl in Hseq. injection Hseq as <-.
    destruct more as [|m more]; [congruence|].
    simpl. unfold bind. rewrite HF. reflexivity.
  - simpl in Hseq. unfold bind in Hseq.
    destruct (ev e env st) as [[v| | |] st'] eqn:E; try discriminate.
    destruct (arrayToLinkedList_app_cons before F more) as (car & cdr & L).
    change ((e :: before) ++ F :: more) with (e :: (before ++ F :: more)).
    cbn [arrayToLinkedList begin_loop]. rewrite L. rewrite <- L.
    unfold bind. rewrite E. apply (IH st' st1 st2 v Hseq HF).
Qed.

(** C9. When the expressions before [F] in a [begin] have been evaluated,
    leaving the store [st1], and [F], which is not the last one, throws,
    leaving [st2], then [evaluate] of the [begin] ends with the same error
    and leaves [st2]: the error reaches the caller as an outcome of its
    own, and every environment keeps the keys it had, in their order, from
    the start to [st1] and from [st1] to [st2]. *)
Theorem begin_failure_keeps_definitions
  stk gas env (before : list Value) (F : Value) (more : list Value)
  st st1 err st2 :
  eval_seq (evaluate stk gas) env before st = (Ok tt, st1) ->
  evaluate stk gas F env st1 = (Throw err, st2) ->
  more <> [] ->
  evaluate (S (S stk)) gas (begin_form (before ++ F :: more)) env st
    = (Throw err, st2) /\
  store_le st st1 /\ store_le st1 st2.
Proof.
  intros Hseq HF Hmore. split; [|split].
  - rewrite evaluate_S. unfold begin_form.
    change (evaluateWithTailCall (S stk) gas
              (Cons (Str "begin") (arrayToLinkedList (before ++ F :: more))) env)
      with (begin_loop (evaluate stk gas) env
              (arrayToLinkedList (before ++ F :: more)) Undefined).
    unfold bind.
    rewrite (begin_loop_failure _ _ _ _ _ Hmore _ _ _ _ _ Hseq HF). reflexivity.
  - clear HF. revert st Hseq.
    induction before as [|e before IH]; intros st Hseq.
    + injection Hseq as <-. apply store_le_refl.
    + simpl in Hseq. unfold bind in Hseq.
      pose proof (evaluate_store_le stk gas e env st) as L.
      destruct (evaluate stk gas e env st) as [[v| | |] st'];
        try discriminate.
      eapply store_le_trans; [exact L|apply IH; assumption].
  - pose proof (evaluate_store_le stk gas F env st1) as L.
    rewrite HF in L. exact L.
Qed.

(** Two definitions, a symbol without a binding, one more definition: the
    first two definitions are in the global environment after the error, in
    their order after the primitives, the third is not, and the next turn
    of the loop of [repl] reads the first. *)
Lemma begin_failure_keeps_definitions_witness :
  parse "(begin (define a 1) (define b 2) zz (define c 3))"
    = Ok (begin_form failing_sequence) /\
  evaluate 6 1 (begin_form failing_sequence) globalEnv globalStore
    = (Throw (UndefinedVariable "zz"), store_with_a_b) /\
  repl_turn 6 1 "a" store_with_a_b = (Ok "1", store_with_a_b) /\
  repl_turn 6 1 "c" store_with_a_b
    = (Throw (UndefinedVariable "c"), store_with_a_b).
Proof.
  split; [reflexivity|]. split; [|split; reflexivity].
  apply (begin_failure_keeps_definitions 4 1 globalEnv
           [define_form "a" (num 1); define_form "b" (num 2)] (Str "zz")
           [define_form "c" (num 3)] globalStore store_with_a_b
           (UndefinedVariable "zz") store_with_a_b).
  - reflexivity.
  - reflexivity.
  - discriminate.
Defined.

(** ** Environments: [define] and the chain of parents *)

Lemma map_get_set_eq m k v : map_get (map_set m k v) k = Some v.
Proof.
  induction m as [|[k' v'] m IH]; simpl.
  - rewrite String.eqb_refl. reflexivity.
  - destruct (String.eqb k' k) eqn:E; simpl.
    + rewrite String.eqb_refl. reflexivity.
    + rewrite E. assumption.
Qed.

Lemma map_get_set_ne m k v k' : k' <> k -> map_get (map_set m k v) k' = map_get m k'.
Proof.
  intros N. induction m as [|[k0 v0] m IH]; simpl.
  - destruct (String.eqb k k') eqn:E; [|reflexivity].
    apply String.eqb_eq in E. congruence.
  - destruct (String.eqb k0 k) eqn:E; simpl.
    + apply String.eqb_eq in E. subst k0.
      destruct (String.eqb k k') eqn:E'; [|reflexivity].
      apply String.eqb_eq in E'. congruence.
    + destruct (String.eqb k0 k'); [reflexivity|assumption].
Qed.

Lemma Environment_lookup_S stk this symbol st :
  Environment_lookup (S stk) this symbol st =
    match st !! this with
    | None => (Unmodelled, st)
    | Some frame =>
        match map_get (vars frame) symbol with
        | Some v => (Ok v, st)
        | None =>
            match parent frame with
            | Some p => Environment_lookup stk p symbol st
            | None => (Throw (UndefinedVariable symbol), st)
            end
        end
    end.
Proof. reflexivity. Qed.

(** An ancestor of an environment was created before it. *)
Lemma ancestor_lt st a b : wf_store st -> ancestor st a b -> (b < a)%nat.
Proof.
  intros W H. induction H as [a frame p Ha Hp|a frame p b Ha Hp _ IH].
  - exact (W a frame p Ha Hp).
  - pose proof (W a frame p Ha Hp). lia.
Qed.

(** The two operations that change the store keep parents before their
    children. *)
Lemma wf_store_new st p :
  wf_store st -> (forall a, p = Some a -> (a < length st)%nat) ->
  wf_store (st ++ [mkEnvironment [] p]).
Proof.
  intros W Hp a frame q Ha Hq.
  destruct (decide (a < length st)%nat) as [L|L].
  - rewrite lookup_app_l in Ha by assumption. exact (W a frame q Ha Hq).
  - rewrite lookup_app_r in Ha by lia.
    destruct (a - length st)%nat as [|k] eqn:E; simpl in Ha; [|discriminate].
    injection Ha as <-. simpl in Hq. specialize (Hp q Hq). lia.
Qed.

Lemma wf_store_define st this frame s v :
  wf_store st -> st !! this = Some frame ->
  wf_store (<[this := mkEnvironment (map_set (vars frame) s v) (parent frame)]> st).
Proof.
  intros W H a f q Ha Hq. destruct (decide (a = this)) as [->|N].
  - rewrite list_lookup_insert_eq in Ha by (eapply lookup_lt_Some; eassumption).
    injection Ha as <-. simpl in Hq. exact (W this frame q H Hq).
  - rewrite list_lookup_insert_ne in Ha by congruence. exact (W a f q Ha Hq).
Qed.

(** A lookup only reads the environments it visits: it gives the same in
    two stores that agree below and at the environment it starts from. *)
Lemma lookup_below st st' env (W : wf_store st)
  (Hsame : forall a, (a < env)%nat -> st' !! a = st !! a) stk :
  forall a symbol, (a < env)%nat ->
    fst (Environment_lookup stk a symbol st') = fst (Environment_lookup stk a symbol st).
Proof.
  induction stk as [|stk IH]; intros a symbol L; [reflexivity|].
  rewrite !Environment_lookup_S, (Hsame a L).
  destruct (st !! a) as [frame|] eqn:E; [|reflexivity].
  destruct (map_get (vars frame) symbol); [reflexivity|].
  destruct (parent frame) as [p|] eqn:P; [|reflexivity].
  apply IH. pose proof (W a frame p E P). lia.
Qed.

(** C7. [define] on the environment [env] changes the frame of [env] only:
    every other environment of the store, so every ancestor, is as it was;
    a lookup of the symbol from [env] then returns the new value, whether
    or not an ancestor binds the symbol; and a lookup of any symbol from an
    ancestor returns what it returned before. *)
Theorem define_changes_current_frame_only
  (st : Store) (env : addr) (frame : Environment) (symbol : string) (value : Value) :
  st !! env = Some frame ->
  wf_store st ->
  exists st',
    Environment_define env (Str symbol) value st = (Ok tt, st') /\
    (forall a, a <> env -> st' !! a = st !! a) /\
    (forall stk, Environment_lookup (S stk) env symbol st' = (Ok value, st')) /\
    (forall anc, ancestor st env anc ->
       st' !! anc = st !! anc /\
       forall stk s,
         fst (Environment_lookup stk anc s st') = fst (Environment_lookup stk anc s st)).
Proof.
  intros Hf W.
  exists (<[env := mkEnvironment (map_set (vars frame) symbol value) (parent frame)]> st).
  assert (Hne : forall a, a <> env ->
            <[env := mkEnvironment (map_set (vars frame) symbol value) (parent frame)]> st !! a
            = st !! a).
  { intros a N. apply list_lookup_insert_ne. congruence. }
  split; [|split; [|split]].
  - unfold Environment_define. rewrite Hf. reflexivity.
  - exact Hne.
  - intros stk. rewrite Environment_lookup_S.
    rewrite list_lookup_insert_eq by (eapply lookup_lt_Some; eassumption).
    simpl. rewrite map_get_set_eq. reflexivity.
  - intros anc A. pose proof (ancestor_lt st env anc W A) as L.
    split; [apply Hne; lia|].
    intros stk s. apply (lookup_below st _ env W); [|assumption].
    intros a La. apply Hne. lia.
Qed.

(** A global environment that binds [x] to 1 and a child of it: [define]
    of [x] in the child shadows the binding, which the global environment
    keeps. *)
Lemma define_changes_current_frame_only_witness :
  exists st',
    Environment_define 1 (Str "x") (num 5) two_frames = (Ok tt, st') /\
    Environment_lookup 2 1 "x" two_frames = (Ok (num 1), two_frames) /\
    Environment_lookup 2 1 "x" st' = (Ok (num 5), st') /\
    Environment_lookup 2 0 "x" st' = (Ok (num 1), st').
Proof.
  assert (W : wf_store two_frames).
  { intros [|[|a]] frame p H P; simpl in H; try discriminate;
      injection H as <-; simpl in P; [discriminate|injection P as <-; lia]. }
  destruct (define_changes_current_frame_only two_frames 1
              (mkEnvironment [] (Some 0%nat)) "x" (num 5) eq_refl W)
    as (st' & Hd & Hne & Hl & Ha).
  exists st'. split; [exact Hd|]. split; [reflexivity|]. split; [apply Hl|].
  unfold Environment_define in Hd. simpl in Hd. injection Hd as <-. reflexivity.
Defined.

(** ** Numbers: integers below [2^53] *)

Lemma digits2_iter_xO m q :
  Zpos (digits2_pos (Pos.iter xO m q)) = Zpos (digits2_pos m) + Zpos q.
Proof.
  induction q as [|q IH] using Pos.peano_ind.
  - simpl. lia.
  - rewrite Pos.iter_succ. simpl. lia.
Qed.

Lemma Zpos_iter_xO m q : Zpos (Pos.iter xO m q) = Zpos m * 2 ^ Zpos q.
Proof.
  induction q as [|q IH] using Pos.peano_ind.
  - simpl. lia.
  - rewrite Pos.iter_succ, Pos2Z.inj_succ, Z.pow_succ_r by lia.
    rewrite Pos2Z.inj_xO, IH. lia.
Qed.

Lemma digits2_shl m k : 0 <= k ->
  Zpos (digits2_pos (shl m k)) = Zpos (digits2_pos m) + k.
Proof.
  intros H. destruct k as [|q|q]; simpl; [lia| |lia]. apply digits2_iter_xO.
Qed.

Lemma shl_shl m a b : 0 <= a -> 0 <= b -> shl (shl m a) b = shl m (a + b).
Proof.
  intros Ha Hb. destruct a as [|p|p], b as [|q|q]; simpl; try reflexivity; try lia.
  rewrite Pos.add_comm. symmetry. apply Pos.iter_add.
Qed.

(** Shifting right by [p] a mantissa that ends in [p] zeros loses nothing. *)
Lemma shr_iter_exact p : forall a,
  SpecFloat.iter_pos shr_1 p
    {| shr_m := Zpos (Pos.iter xO a p); shr_r := false; shr_s := false |}
  = {| shr_m := Zpos a; shr_r := false; shr_s := false |}.
Proof.
  induction p as [p IH|p IH|]; intros a; simpl.
  - rewrite IH, IH. reflexivity.
  - rewrite IH, IH. reflexivity.
  - reflexivity.
Qed.

Lemma fexp_small d : 1 <= d <= 53 -> fexp Float64.prec Float64.emax d = d - 53.
Proof. intros H. unfold fexp, emin, Float64.prec, Float64.emax. lia. Qed.

(** A mantissa of exactly 53 digits with an exponent in range is already
    rounded. *)
Lemma binary_round_aux_53 m e :
  Zpos (digits2_pos m) = 53 -> -52 <= e <= 0 ->
  binary_round_aux Float64.prec Float64.emax false (Zpos m) e loc_Exact
  = S754_finite false m e.
Proof.
  intros D E. unfold binary_round_aux, shr_fexp. cbn [Zdigits2 shr_record_of_loc].
  rewrite D. 
  replace (fexp Float64.prec Float64.emax (53 + e) - e) with 0
    by (unfold fexp, emin, Float64.prec, Float64.emax; lia).
  cbn [shr shr_m loc_of_shr_record round_nearest_even Zdigits2 shr_record_of_loc].
  rewrite D.
  replace (fexp Float64.prec Float64.emax (53 + e) - e) with 0
    by (unfold fexp, emin, Float64.prec, Float64.emax; lia).
  cbn [shr shr_m].
  replace (e <=? Float64.emax - Float64.prec) with true; [reflexivity|].
  symmetry. apply Z.leb_le. unfold Float64.prec, Float64.emax. lia.
Qed.

(** Rounding [m * 2^j * 2^(-j)], which 53 digits represent exactly. *)
Lemma binary_round_exact m j :
  Zpos (digits2_pos m) <= 53 -> 0 <= j <= 52 ->
  binary_round Float64.prec Float64.emax false (shl m j) (- j)
  = S754_finite false (shl m (53 - Zpos (digits2_pos m)))
      (Zpos (digits2_pos m) - 53).
Proof.
  intros D J. set (d := Zpos (digits2_pos m)) in *.
  assert (D1 : 1 <= d) by (unfold d; lia).
  unfold binary_round.
  rewrite digits2_shl by lia. fold d.
  replace (d + j + - j) with d by lia. rewrite fexp_small by lia.
  unfold shl_align.
  destruct (d - 53 - - j) as [|p|p] eqn:S.
  - (* no shift at all *)
    assert (j = 53 - d) as -> by lia.
    replace (- (53 - d)) with (d - 53) by lia.
    apply binary_round_aux_53; [|lia].
    rewrite digits2_shl by lia. fold d. lia.
  - (* the mantissa has too many digits: shift right *)
    unfold binary_round_aux, shr_fexp. cbn [Zdigits2 shr_record_of_loc].
    rewrite digits2_shl by lia. fold d.
    replace (d + j + - j) with d by lia. rewrite fexp_small by lia.
    rewrite S. cbn [shr].
    assert (Ej : shl m j = Pos.iter xO (shl m (53 - d)) p).
    { change (Pos.iter xO (shl m (53 - d)) p) with (shl (shl m (53 - d)) (Zpos p)).
      rewrite shl_shl by lia. f_equal. lia. }
    rewrite Ej, shr_iter_exact.
    cbn [shr_m loc_of_shr_record round_nearest_even].
    replace (- j + Z.pos p) with (d - 53) by lia.
    cbn [Zdigits2].
    rewrite digits2_shl by lia. fold d.
    replace (fexp Float64.prec Float64.emax (d + (53 - d) + (d - 53)) - (d - 53)) with 0
      by (unfold fexp, emin, Float64.prec, Float64.emax; lia).
    cbn [shr shr_m].
    replace (d - 53 <=? Float64.emax - Float64.prec) with true; [reflexivity|].
    symmetry. apply Z.leb_le. unfold Float64.prec, Float64.emax. lia.
  - (* the mantissa has too few digits: shift left *)
    assert (Ej : Pos.iter xO (shl m j) p = shl m (53 - d)).
    { change (Pos.iter xO (shl m j) p) with (shl (shl m j) (Zpos p)).
      rewrite shl_shl by lia. f_equal. lia. }
    rewrite Ej. apply binary_round_aux_53; [|lia].
    rewrite digits2_shl by lia. fold d. lia.
Qed.

Lemma digits2_lower m : 2 ^ (Zpos (digits2_pos m) - 1) <= Zpos m.
Proof.
  induction m as [m IH|m IH|]; simpl digits2_pos; [| |simpl; lia].
  - rewrite Pos2Z.inj_succ. replace (Z.succ (Zpos (digits2_pos m)) - 1)
      with (Z.succ (Zpos (digits2_pos m) - 1)) by lia.
    rewrite Z.pow_succ_r by lia. lia.
  - rewrite Pos2Z.inj_succ. replace (Z.succ (Zpos (digits2_pos m)) - 1)
      with (Z.succ (Zpos (digits2_pos m) - 1)) by lia.
    rewrite Z.pow_succ_r by lia. lia.
Qed.

Lemma digits2_bound m : Zpos m < 2 ^ 53 -> Zpos (digits2_pos m) <= 53.
Proof.
  intros H. pose proof (digits2_lower m) as L.
  destruct (Z_le_gt_dec (Zpos (digits2_pos m)) 53) as [|G]; [assumption|exfalso].
  assert (2 ^ 53 <= 2 ^ (Zpos (digits2_pos m) - 1))
    by (apply Z.pow_le_mono_r; lia).
  lia.
Qed.

(** The value of an integer below [2^53]. *)
Lemma of_Z_pos m :
  Zpos m < 2 ^ 53 ->
  Float64.of_Z (Zpos m)
  = S754_finite false (shl m (53 - Zpos (digits2_pos m))) (Zpos (digits2_pos m) - 53).
Proof.
  intros H. apply digits2_bound in H.
  exact (binary_round_exact m 0 H ltac:(lia)).
Qed.

(** Subtracting 1 from an integer below [2^53] is exact. *)
Lemma sub_one_exact n :
  1 <= n < 2 ^ 53 ->
  Float64.sub (Float64.of_Z n) (Float64.of_Z 1) = Float64.of_Z (n - 1).
Proof.
  intros H. destruct n as [|m|m]; try lia.
  pose proof (digits2_bound m ltac:(lia)) as D.
  rewrite of_Z_pos by lia.
  set (d := Zpos (digits2_pos m)) in *.
  assert (D1 : 1 <= d) by (unfold d; lia).
  change (Float64.of_Z 1) with (S754_finite false 4503599627370496 (-52)).
  unfold Float64.sub, SFsub. cbn [cond_Zopp].
  rewrite Z.min_r by lia.
  assert (Ex : fst (shl_align (shl m (53 - d)) (d - 53) (-52)) = shl m 52).
  { unfold shl_align. destruct (-52 - (d - 53)) as [|p|p] eqn:S; cbn [fst].
    - f_equal. lia.
    - lia.
    - change (Pos.iter xO (shl m (53 - d)) p) with (shl (shl m (53 - d)) (Zpos p)).
      rewrite shl_shl by lia. f_equal. lia. }
  rewrite Ex.
  change (fst (shl_align 4503599627370496 (-52) (-52))) with 4503599627370496%positive.
  assert (Ev : Zpos (shl m 52) - Zpos 4503599627370496 = (Zpos m - 1) * 2 ^ 52).
  { change (shl m 52) with (Pos.iter xO m 52). rewrite Zpos_iter_xO.
    change (Z.pos 4503599627370496) with (2 ^ 52). lia. }
  rewrite Ev.
  destruct (Z.eq_dec (Zpos m) 1) as [E1|N1].
  - rewrite E1. reflexivity.
  - assert (Hm : exists m', Zpos m - 1 = Zpos m') by (destruct (Zpos m - 1) eqn:E; try lia; eauto).
    destruct Hm as [m' Hm]. rewrite Hm.
    assert (Ev' : Zpos m' * 2 ^ 52 = Zpos (shl m' 52)).
    { change (shl m' 52) with (Pos.iter xO m' 52). rewrite Zpos_iter_xO.
      reflexivity. }
    rewrite Ev'.
    assert (Dm' : Zpos (digits2_pos m') <= 53) by (apply digits2_bound; lia).
    pose proof (binary_round_exact m' 52 Dm' ltac:(lia)) as R.
    change (Z.opp 52) with (Zneg 52) in R.
    unfold binary_normalize. rewrite R.
    symmetry. apply of_Z_pos. lia.
Qed.

Lemma countdown_of_nat (k : nat) :
  Z.of_nat k < 2 ^ 53 -> countdown (Float64.of_Z (Z.of_nat k)) k = true.
Proof.
  induction k as [|k IH]; intros H; [reflexivity|].
  cbn [countdown]. rewrite sub_one_exact by lia.
  replace (Z.of_nat (S k) - 1) with (Z.of_nat k) by lia.
  rewrite IH by lia. rewrite andb_true_r.
  destruct (Z.of_nat (S k)) as [|m|m] eqn:E; try lia.
  rewrite of_Z_pos by lia. reflexivity.
Qed.

(** ** Evaluator: a loop in tail position *)

Lemma insert_last {A} (l : list A) (x y : A) : <[length l := y]> (l ++ [x]) = l ++ [y].
Proof. induction l as [|a l IH]; simpl; [reflexivity|]. f_equal. exact IH. Qed.

Lemma lookup_last {A} (l : list A) (x : A) : (l ++ [x]) !! length l = Some x.
Proof. induction l as [|a l IH]; simpl; [reflexivity|]. exact IH. Qed.

Lemma trampoline_value stk gas v st :
  is_thunk v = false -> trampoline (S stk) gas v st = (Ok v, st).
Proof. intros H. rewrite trampoline_S. destruct gas, v; try discriminate; reflexivity. Qed.

Lemma evaluate_symbol stk gas s env st v :
  Environment_lookup stk env s st = (Ok v, st) -> is_thunk v = false ->
  evaluate (S (S stk)) gas (Str s) env st = (Ok v, st).
Proof.
  intros H T. rewrite evaluate_S.
  change (evaluateWithTailCall (S stk) gas (Str s) env) with (Environment_lookup stk env s).
  unfold bind. rewrite H. apply trampoline_value. assumption.
Qed.

Lemma evaluate_number stk gas x env st :
  evaluate (S (S stk)) gas (Num x) env st = (Ok (Num x), st).
Proof. rewrite evaluate_S. destruct gas; reflexivity. Qed.

(** An application whose operator is not the name of a special form. *)
Lemma evaluateWithTailCall_application stk gas op args env :
  case_label op "quote" = false -> case_label op "if" = false ->
  case_label op "lambda" = false -> case_label op "define" = false ->
  case_label op "begin" = false ->
  evaluateWithTailCall (S stk) gas (Cons op args) env =
    (let* proc := evaluate stk gas op env in
     let* evaluatedArgs := args_loop (evaluate stk gas) env args [] in
     if is_function proc then ret (Thunk (ThApply proc evaluatedArgs))
     else throw (NotAFunction op)).
Proof.
  intros H1 H2 H3 H4 H5.
  change (evaluateWithTailCall (S stk) gas (Cons op args) env) with
    (if case_label op "quote" then lift (get_car args)
     else if case_label op "if" then ret (Thunk (ThIf args env))
     else if case_label op "lambda" then ret (Closure args env)
     else if case_label op "define" then
       let* symbol := lift (get_car args) in
       let* rest := lift (get_cdr args) in
       let* e := lift (get_car rest) in
       let* value := evaluate stk gas e env in
       let* _ := Environment_define env symbol value in
       ret Undefined
     else if case_label op "begin" then
       begin_loop (evaluate stk gas) env args Undefined
     else
       let* proc := evaluate stk gas op env in
       let* evaluatedArgs := args_loop (evaluate stk gas) env args [] in
       if is_function proc then ret (Thunk (ThApply proc evaluatedArgs))
       else throw (NotAFunction op)).
  rewrite H1, H2, H3, H4, H5. reflexivity.
Qed.

(** A call of a primitive on two arguments whose evaluation leaves the
    store as it is. *)
Lemma evaluate_primitive_call stk gas s p a1 a2 v1 v2 r env st :
  case_label (Str s) "quote" = false -> case_label (Str s) "if" = false ->
  case_label (Str s) "lambda" = false -> case_label (Str s) "define" = false ->
  case_label (Str s) "begin" = false ->
  evaluate (S (S stk)) (S gas) (Str s) env st = (Ok (Primitive p), st) ->
  evaluate (S (S stk)) (S gas) a1 env st = (Ok v1, st) ->
  evaluate (S (S stk)) (S gas) a2 env st = (Ok v2, st) ->
  apply_primitive p [v1; v2] = Ok r -> is_thunk r = false ->
  evaluate (S (S (S (S stk)))) (S gas) (Cons (Str s) (Cons a1 (Cons a2 Null))) env st
    = (Ok r, st).
Proof.
  intros H1 H2 H3 H4 H5 Hop Ha1 Ha2 Hr T.
  rewrite evaluate_S, evaluateWithTailCall_application by assumption.
  unfold bind at 1 2. rewrite Hop.
  cbn [args_loop]. unfold bind at 1 2. rewrite Ha1. unfold bind at 1. rewrite Ha2.
  cbn [is_function ret app]. rewrite trampoline_S.
  cbn [trampoline_loop]. unfold bind at 1.
  change (call_func (S (S stk)) (S gas) (ThApply (Primitive p) [v1; v2]) st)
    with (apply_primitive p [v1; v2], st).
  rewrite Hr. destruct gas, r; try discriminate; reflexivity.
Qed.

Lemma call_func_closure stk gas args env params :
  call_func (S (S stk)) gas (ThApply (Closure args env) params) =
    (let* newEnv := new_Environment (Some env) in
     let* paramList := lift (get_car args) in
     let* _ := bind_params newEnv params paramList in
     let* rest := lift (get_cdr args) in
     let* body := lift (get_car rest) in
     evaluateWithTailCall stk gas body newEnv).
Proof. reflexivity. Qed.

Lemma call_func_if stk gas args env :
  call_func (S stk) gas (ThIf args env) =
    (let* c := lift (get_car args) in
     let* condition := evaluate stk gas c env in
     let* rest := lift (get_cdr args) in
     let* e :=
       if truthy condition then lift (get_car rest)
       else let* rest' := lift (get_cdr rest) in lift (get_car rest') in
     evaluateWithTailCall stk gas e env).
Proof. reflexivity. Qed.

Lemma evaluateWithTailCall_if stk gas args env :
  evaluateWithTailCall (S stk) gas (Cons (Str "if") args) env
    = ret (Thunk (ThIf args env)).
Proof. reflexivity. Qed.

Lemma loop_apply_step stk gas x st :
  call_func (3 + stk) gas (ThApply loop_closure [Num x]) st =
    (Ok (Thunk (ThIf loop_if_args (length st))),
     st ++ [mkEnvironment [("n", Num x)] (Some globalEnv)]).
Proof.
  unfold loop_closure, loop_lambda_args.
  change (3 + stk)%nat with (S (S (S stk))). rewrite call_func_closure.
  unfold bind, new_Environment, lift, ret. cbn [get_car get_cdr bind_params].
  unfold bind, Environment_define, lift, ret.
  rewrite lookup_last. cbn [vars parent map_set get_car get_cdr].
  rewrite insert_last, evaluateWithTailCall_if. reflexivity.
Qed.

Lemma loop_if_step stk gas x st env :
  loop_frame st env x ->
  call_func (8 + stk) (S gas) (ThIf loop_if_args env) st =
    (Ok (if Float64.eqb x Float64.zero then num 0
         else Thunk (ThApply loop_closure [Num (Float64.sub x (Float64.of_Z 1))])), st).
Proof.
  intros [Hn (G & HG & Hloop & Heq & Hsub)].
  assert (Ln : forall k, Environment_lookup (S k) env "n" st = (Ok (Num x), st)).
  { intros k. rewrite Environment_lookup_S, Hn. reflexivity. }
  assert (Lg : forall k s v, map_get (vars G) s = Some v -> String.eqb "n" s = false ->
             Environment_lookup (S (S k)) env s st = (Ok v, st)).
  { intros k s v Hs Ns. rewrite Environment_lookup_S, Hn. cbn [vars map_get parent].
    rewrite Ns. rewrite Environment_lookup_S, HG, Hs. reflexivity. }
  assert (Etest : evaluate (7 + stk) (S gas) loop_test env st
                  = (Ok (Bool (Float64.eqb x Float64.zero)), st)).
  { apply (evaluate_budget (6 + stk) (S gas)); [|reflexivity|lia|lia].
    apply (evaluate_primitive_call (2 + stk) gas "=" PEq (Str "n") (num 0)
             (Num x) (num 0)); try reflexivity.
    - apply evaluate_symbol; [apply (Lg _ _ _ Heq); reflexivity|reflexivity].
    - apply evaluate_symbol; [apply Ln|reflexivity]. }
  change (8 + stk)%nat with (S (7 + stk)). rewrite call_func_if.
  unfold loop_if_args at 1. unfold bind at 1 2, lift at 1. cbn [get_car].
  rewrite Etest. cbn [truthy]. unfold bind, lift, loop_if_args. cbn [get_car get_cdr].
  destruct (Float64.eqb x Float64.zero).
  { cbn [get_car get_cdr]. destruct stk; reflexivity. }
  cbn [get_car get_cdr].
  unfold loop_again.
  change (7 + stk)%nat with (S (6 + stk)).
  rewrite evaluateWithTailCall_application by reflexivity.
  assert (Eloop : evaluate (6 + stk) (S gas) (Str "loop") env st
                  = (Ok loop_closure, st)).
  { apply (evaluate_symbol (4 + stk));
      [apply (Lg _ _ _ Hloop); reflexivity|reflexivity]. }
  assert (Edec : evaluate (6 + stk) (S gas)
                   (Cons (Str "-") (Cons (Str "n") (Cons (num 1) Null))) env st
                 = (Ok (Num (Float64.sub x (Float64.of_Z 1))), st)).
  { apply (evaluate_primitive_call (2 + stk) gas "-" PSub (Str "n") (num 1)
             (Num x) (num 1)); try reflexivity.
    - apply evaluate_symbol; [apply (Lg _ _ _ Hsub); reflexivity|reflexivity].
    - apply evaluate_symbol; [apply Ln|reflexivity]. }
  unfold bind at 1 2. rewrite Eloop.
  cbn [args_loop]. unfold bind. rewrite Edec. reflexivity.
Qed.

Lemma loop_globals_app st frame : loop_globals st -> loop_globals (st ++ [frame]).
Proof.
  intros (G & HG & H). exists G. split; [|exact H].
  apply lookup_app_l_Some. exact HG.
Qed.

Lemma trampoline_loop_value f gas v st :
  is_thunk v = false -> trampoline_loop f gas v st = (Ok v, st).
Proof. intros H. destruct gas, v; try discriminate; reflexivity. Qed.

Lemma loop_runs stk gas : forall k x st g,
  countdown x k = true -> loop_globals st -> (2 * k + 2 <= g)%nat ->
  exists st',
    trampoline_loop (call_func (8 + stk) (S gas)) g
      (Thunk (ThApply loop_closure [Num x])) st = (Ok (num 0), st').
Proof.
  induction k as [|k IH]; intros x st g Hc Hst Hg;
    (destruct g as [|[|g]]; [lia|lia|]);
    cbn [trampoline_loop]; unfold bind at 1;
    rewrite (loop_apply_step (5 + stk)); unfold bind at 1;
    rewrite (loop_if_step stk gas x)
      by (split; [apply lookup_last|apply loop_globals_app; assumption]).
  - simpl in Hc. rewrite Hc. eexists. apply trampoline_loop_value. reflexivity.
  - simpl in Hc. apply andb_prop in Hc as [Hx Hc].
    apply negb_true_iff in Hx. rewrite Hx.
    apply IH; [assumption|apply loop_globals_app; assumption|lia].
Qed.

Lemma loop_store_globals : loop_globals loop_store.
Proof. eexists. split; [reflexivity|]. repeat split; reflexivity. Qed.

(** Any sufficient budget runs the loop from a number that counts down
    to 0. *)
Lemma loop_runs_from (x : spec_float) (k stk gas : nat) :
  countdown x k = true -> (10 <= stk)%nat -> (2 * k + 2 <= gas)%nat ->
  exists st',
    evaluate stk gas (loop_call x) globalEnv loop_store = (Ok (num 0), st').
Proof.
  intros Hc Hs Hg.
  destruct (loop_runs 0 (gas - 1) k x loop_store gas Hc loop_store_globals Hg)
    as (st' & H).
  exists st'.
  apply (evaluate_budget 10 gas); [|reflexivity|assumption|lia].
  replace (S (gas - 1)) with gas in H by lia.
  rewrite evaluate_S. unfold loop_call.
  rewrite evaluateWithTailCall_application by reflexivity.
  unfold bind at 1 2 3.
  rewrite (evaluate_symbol 6 gas "loop" globalEnv loop_store loop_closure)
    by reflexivity.
  cbn [args_loop]. unfold bind.
  destruct gas as [|gas']; [lia|].
  rewrite (evaluate_number 6 (S gas')).
  cbn [args_loop ret is_function loop_closure app].
  rewrite trampoline_S. exact H.
Qed.

(** C2. Once [loop] is defined in the global environment, [(loop n)]
    evaluates to 0 for every whole number [n] below [2^53], within a native
    stack of 10 frames whatever [n] is; the iterations of the loop of
    [trampoline] are what grows with [n]. *)
Theorem tail_call_loop_constant_stack (n : Z) (stk gas : nat) :
  0 <= n < 2 ^ 53 ->
  (10 <= stk)%nat ->
  (2 * Z.to_nat n + 2 <= gas)%nat ->
  exists st',
    evaluate stk gas (loop_call (Float64.of_Z n)) globalEnv loop_store
      = (Ok (num 0), st').
Proof.
  intros Hn Hs Hg.
  apply (loop_runs_from (Float64.of_Z n) (Z.to_nat n)); try assumption.
  rewrite <- (Z2Nat.id n) at 1 by lia.
  apply countdown_of_nat. rewrite Z2Nat.id by lia. lia.
Qed.

(** The program of the specification: the definition, then
    [(loop 1000000)]. *)
Lemma tail_call_loop_constant_stack_witness :
  parse "(define loop (lambda (n) (if (= n 0) 0 (loop (- n 1)))))"
    = Ok loop_definition /\
  evaluate 5 1 loop_definition globalEnv globalStore = (Ok Undefined, loop_store) /\
  parse "(loop 1000000)" = Ok (loop_call (Float64.of_Z 1000000)) /\
  exists st',
    evaluate 10 (Z.to_nat 2000002) (loop_call (Float64.of_Z 1000000))
      globalEnv loop_store = (Ok (num 0), st').
Proof.
  split; [reflexivity|]. split; [reflexivity|]. split; [reflexivity|].
  apply (tail_call_loop_constant_stack 1000000 10 (Z.to_nat 2000002)); lia.
Defined.

(** By contrast, a recursive call that is not in tail position takes native
    frames for each level: 10 frames run [(count 0)] but not [(count 1)],
    16 frames run [(count 1)] but not [(count 2)]. *)
Lemma recursion_out_of_tail_position_uses_stack :
  parse "(define count (lambda (n) (if (= n 0) 0 (+ 1 (count (- n 1))))))"
    = Ok count_definition /\
  fst (evaluate 10 100 (count_call 0) globalEnv count_store) = Ok (num 0) /\
  fst (evaluate 10 100 (count_call 1) globalEnv count_store) = Throw RangeError /\
  fst (evaluate 16 100 (count_call 1) globalEnv count_store) = Ok (num 1) /\
  fst (evaluate 16 100 (count_call 2) globalEnv count_store) = Throw RangeError.
Proof. repeat split; reflexivity. Qed.

(** ** Reader and printer: canonical text *)

Lemma string_app_assoc (a b c : string) : (a +:+ b) +:+ c = a +:+ (b +:+ c).
Proof.
  induction a as [|x a IH]; [reflexivity|].
  rewrite !string_app_cons, IH. reflexivity.
Qed.

Lemma replace_all_app c by_ (a b : string) :
  replace_all c by_ (a +:+ b) = replace_all c by_ a +:+ replace_all c by_ b.
Proof.
  induction a as [|x a IH]; [reflexivity|].
  rewrite string_app_cons. cbn [replace_all].
  destruct (Ascii.eqb x c).
  - rewrite IH, string_app_assoc. reflexivity.
  - rewrite IH, string_app_cons. reflexivity.
Qed.

Lemma spaced_app (a b : string) : spaced (a +:+ b) = spaced a +:+ spaced b.
Proof. unfold spaced. rewrite !replace_all_app. reflexivity. Qed.

Lemma replace_all_absent c by_ (w : string) :
  all_chars (fun x => negb (Ascii.eqb x c)) w = true -> replace_all c by_ w = w.
Proof.
  induction w as [|x w IH]; [reflexivity|]. cbn [all_chars replace_all].
  intros H. apply andb_prop in H as [H1 H2]. apply negb_true_iff in H1.
  rewrite H1, IH by assumption. reflexivity.
Qed.

Lemma all_chars_impl (P Q : ascii -> bool) (w : string) :
  (forall c, P c = true -> Q c = true) -> all_chars P w = true -> all_chars Q w = true.
Proof.
  intros I. induction w as [|x w IH]; [reflexivity|]. cbn [all_chars].
  intros H. apply andb_prop in H as [H1 H2]. rewrite (I _ H1), IH by assumption.
  reflexivity.
Qed.

Lemma spaced_word (w : string) : all_chars word_char w = true -> spaced w = w.
Proof.
  intros H. unfold spaced. rewrite (replace_all_absent "(").
  - apply replace_all_absent. revert H. apply all_chars_impl.
    intros c. unfold word_char. destruct (Ascii.eqb c ")"); [|reflexivity].
    rewrite andb_false_r. discriminate.
  - revert H. apply all_chars_impl.
    intros c. unfold word_char. destruct (Ascii.eqb c "("); [|reflexivity].
    rewrite andb_false_r. discriminate.
Qed.

Lemma split_spaces_cons x (r : string) :
  is_space x = false ->
  split_spaces (String x r) =
    match split_spaces r with
    | t :: ts => String x t :: ts
    | [] => [String x EmptyString]
    end.
Proof. intros H. cbn [split_spaces]. rewrite H. reflexivity. Qed.

(** A string without white space is one piece. *)
Lemma split_spaces_word (w : string) :
  all_chars (fun c => negb (is_space c)) w = true -> split_spaces w = [w].
Proof.
  induction w as [|x w IH]; [reflexivity|]. cbn [all_chars split_spaces].
  intros H. apply andb_prop in H as [H1 H2]. apply negb_true_iff in H1.
  rewrite H1, IH by assumption. reflexivity.
Qed.

Lemma split_spaces_head (u : string) :
  starts_with_space u = true -> exists ts, split_spaces u = "" :: ts.
Proof.
  induction u as [|c u IH]; [discriminate|].
  cbn [starts_with_space split_spaces]. intros H. rewrite H.
  destruct (starts_with_space u) eqn:E; [apply IH; reflexivity|eauto].
Qed.

(** Which white space character starts a string does not matter. *)
Lemma split_spaces_space c (u : string) :
  is_space c = true -> split_spaces (String c u) = split_spaces (String " " u).
Proof. intros H. cbn [split_spaces]. rewrite H. reflexivity. Qed.

Lemma tokens_after_space_space c (u : string) :
  is_space c = true -> tokens_after_space (String c u) = tokens_after_space u.
Proof.
  intros H. unfold tokens_after_space.
  rewrite <- (split_spaces_space c u H).
  cbn [split_spaces starts_with_space]. rewrite H. reflexivity.
Qed.

(** A piece without white space, before a white space. *)
Lemma split_spaces_word_space (w : string) c (u : string) :
  all_chars (fun c => negb (is_space c)) w = true -> is_space c = true ->
  split_spaces (w +:+ String c u) = w :: tokens_after_space u
  \/ w = "".
Proof.
  intros Hw Hc. destruct w as [|x w]; [right; reflexivity|left].
  revert x Hw. induction w as [|y w IH]; intros x Hw.
  - cbn [all_chars] in Hw. apply andb_prop in Hw as [H1 _]. apply negb_true_iff in H1.
    rewrite string_app_cons, string_app_nil_l, split_spaces_cons by assumption.
    rewrite (split_spaces_space c u Hc).
    destruct (split_spaces_head (String " " u) eq_refl) as (ts & E).
    unfold tokens_after_space. rewrite E. reflexivity.
  - cbn [all_chars] in Hw. apply andb_prop in Hw as [H1 H2]. apply negb_true_iff in H1.
    rewrite string_app_cons, split_spaces_cons by assumption.
    rewrite (IH y H2). reflexivity.
Qed.

Lemma tokens_after_space_word (w : string) c (u : string) :
  w <> "" -> all_chars (fun c => negb (is_space c)) w = true -> is_space c = true ->
  tokens_after_space (w +:+ String c u) = w :: tokens_after_space u.
Proof.
  intros N Hw Hc. unfold tokens_after_space at 1.
  destruct w as [|x w]; [congruence|].
  pose proof Hw as Hw'. cbn [all_chars] in Hw'. apply andb_prop in Hw' as [H1 _].
  apply negb_true_iff in H1.
  rewrite string_app_cons.
  change (split_spaces (String " " (String x (w +:+ String c u))))
    with (if starts_with_space (String x (w +:+ String c u))
          then split_spaces (String x (w +:+ String c u))
          else "" :: split_spaces (String x (w +:+ String c u))).
  cbn [starts_with_space]. rewrite H1. cbn [tl].
  change (String x (w +:+ String c u)) with (String x w +:+ String c u).
  destruct (split_spaces_word_space (String x w) c u Hw Hc) as [E|E]; [exact E|discriminate].
Qed.

Lemma tokens_after_space_last (w : string) :
  w <> "" -> all_chars (fun c => negb (is_space c)) w = true ->
  tokens_after_space w = [w].
Proof.
  intros N Hw. unfold tokens_after_space.
  destruct w as [|x w]; [congruence|].
  pose proof Hw as Hw'. cbn [all_chars] in Hw'. apply andb_prop in Hw' as [H1 _].
  apply negb_true_iff in H1.
  change (split_spaces (String " " (String x w)))
    with (if starts_with_space (String x w)
          then split_spaces (String x w)
          else "" :: split_spaces (String x w)).
  cbn [starts_with_space]. rewrite H1. cbn [tl].
  apply split_spaces_word. assumption.
Qed.

(** [trimEnd] leaves what is before a part that does not vanish. *)
Lemma trimEnd_app (a b : string) :
  trimEnd b <> "" -> trimEnd (a +:+ b) = a +:+ trimEnd b.
Proof.
  intros H. induction a as [|x a IH]; [reflexivity|].
  rewrite !string_app_cons. cbn [trimEnd]. rewrite IH.
  destruct (a +:+ trimEnd b) eqn:E; [|reflexivity].
  destruct a; [|discriminate]. rewrite string_app_nil_l in E. congruence.
Qed.

Lemma trimEnd_word (w : string) :
  all_chars (fun c => negb (is_space c)) w = true -> trimEnd w = w.
Proof.
  induction w as [|x w IH]; [reflexivity|]. cbn [all_chars trimEnd].
  intros H. apply andb_prop in H as [H1 H2]. apply negb_true_iff in H1.
  rewrite IH, H1 by assumption. destruct w; reflexivity.
Qed.

(** *** The printer on lists *)

Lemma printExpr_Cons (a d : Value) :
  printExpr (Cons a d) =
    "(" +:+ array_join " " (map printExpr (linkedListToArray (Cons a d))) +:+ ")".
Proof.
  cbn [printExpr linkedListToArray map]. do 4 f_equal.
  induction d as [| | | | |car _ cdr IH| | |]; try reflexivity.
  cbn [linkedListToArray map]. rewrite <- IH. reflexivity.
Qed.

Lemma linkedListToArray_arrayToLinkedList (es : list Value) :
  linkedListToArray (arrayToLinkedList es) = es.
Proof. induction es as [|e es IH]; [reflexivity|]. simpl. rewrite IH. reflexivity. Qed.

Lemma printExpr_list (es : list Value) :
  es <> [] ->
  printExpr (arrayToLinkedList es) = "(" +:+ array_join " " (map printExpr es) +:+ ")".
Proof.
  destruct es as [|e es]; [congruence|]. intros _.
  change (arrayToLinkedList (e :: es)) with (Cons e (arrayToLinkedList es)).
  rewrite printExpr_Cons.
  change (Cons e (arrayToLinkedList es)) with (arrayToLinkedList (e :: es)).
  rewrite linkedListToArray_arrayToLinkedList. reflexivity.
Qed.

Lemma array_join_cons (sep x : string) (rest : list string) :
  rest <> [] -> array_join sep (x :: rest) = x +:+ sep +:+ array_join sep rest.
Proof. destruct rest; [congruence|reflexivity]. Qed.

(** *** Words *)

Lemma word_no_space (w : string) :
  all_chars word_char w = true -> all_chars (fun c => negb (is_space c)) w = true.
Proof.
  apply all_chars_impl. intros c. unfold word_char.
  destruct (is_space c); [discriminate|reflexivity].
Qed.

Lemma is_word_inv (w : string) :
  is_word w = true ->
  w <> "" /\ all_chars word_char w = true /\
  String.eqb w "(" = false /\ String.eqb w ")" = false.
Proof.
  unfold is_word. intros H. apply andb_prop in H as [H1 H2].
  apply negb_true_iff in H1. apply String.eqb_neq in H1.
  split; [assumption|]. split; [assumption|].
  destruct w as [|c w]; [congruence|]. cbn [all_chars] in H2.
  apply andb_prop in H2 as [H2 _]. unfold word_char in H2.
  apply andb_prop in H2 as [H2 H4]. apply andb_prop in H2 as [_ H3].
  apply negb_true_iff in H3, H4.
  split; cbn [String.eqb]; [rewrite H3|rewrite H4]; reflexivity.
Qed.

Lemma tokenize_word (w : string) : is_word w = true -> tokenize w = [w].
Proof.
  intros H. apply is_word_inv in H as (N & W & _).
  unfold tokenize. fold (spaced w). rewrite spaced_word by assumption.
  pose proof (word_no_space w W) as S.
  unfold trim.
  assert (trimStart w = w) as ->.
  { destruct w as [|c w]; [reflexivity|]. cbn [all_chars] in S.
    apply andb_prop in S as [S _]. apply negb_true_iff in S.
    cbn [trimStart]. rewrite S. reflexivity. }
  rewrite trimEnd_word by assumption. apply split_spaces_word. assumption.
Qed.

(** *** Reading back what was printed *)

Lemma parseExpression_more_fuel tokens f f' pos r :
  parseExpression f tokens pos = Ok r -> (f <= f')%nat ->
  parseExpression f' tokens pos = Ok r.
Proof.
  intros H L. rewrite <- H.
  apply (proj1 (parse_fuel_mono tokens f)); [assumption|]. rewrite H. discriminate.
Qed.

Lemma parseList_more_fuel tokens f f' l pos r :
  parseList f tokens l pos = Ok r -> (f <= f')%nat ->
  parseList f' tokens l pos = Ok r.
Proof.
  intros H L. rewrite <- H.
  apply (proj2 (parse_fuel_mono tokens f)); [assumption|]. rewrite H. discriminate.
Qed.

Lemma parseExpression_S fuel tokens position :
  parseExpression (S fuel) tokens position =
    match tokens !! position with
    | None => Throw UnexpectedEndOfInput
    | Some token =>
        if String.eqb token "(" then parseList fuel tokens [] (S position)
        else if String.eqb token ")" then Throw UnexpectedClosingParenthesis
        else if String.eqb token "'" then
          match parseExpression fuel tokens (S position) with
          | Ok (e, position) => Ok (Cons (Str "quote") (Cons e Null), position)
          | Throw e => Throw e
          | OutOfGas => OutOfGas
          | Unmodelled => Unmodelled
          end
        else Ok (parseAtom token, S position)
    end.
Proof. reflexivity. Qed.

Lemma parseList_S fuel tokens l position :
  parseList (S fuel) tokens l position =
    match tokens !! position with
    | None => Throw UnmatchedParenthesis
    | Some token =>
        if String.eqb token ")" then Ok (arrayToLinkedList l, S position)
        else
          match parseExpression fuel tokens position with
          | Ok (e, position) => parseList fuel tokens (l ++ [e]) position
          | Throw e => Throw e
          | OutOfGas => OutOfGas
          | Unmodelled => Unmodelled
          end
    end.
Proof. reflexivity. Qed.

Lemma canonical_atom_reads (t : string) :
  canonical_atom t = true -> text_reads_as t (parseAtom t) [t].
Proof.
  unfold canonical_atom. intros H.
  apply andb_prop in H as [H Hp]. apply andb_prop in H as [Hw Hq].
  apply String.eqb_eq in Hp. apply negb_true_iff in Hq.
  pose proof (is_word_inv t Hw) as (N & W & Ho & Hc).
  split; [exact Hp|]. split; [apply tokenize_word; exact Hw|].
  split; [exists t, []; split; [reflexivity|apply String.eqb_neq; exact Hc]|].
  split.
  - intros u. rewrite spaced_word by assumption.
    apply tokens_after_space_word; [assumption|apply word_no_space; assumption|reflexivity].
  - intros before after. exists 1%nat.
    rewrite parseExpression_S. change ([t] ++ after) with (t :: after).
    rewrite (list_lookup_middle before after t (length before) eq_refl).
    rewrite Ho, Hc, Hq. f_equal. f_equal. simpl. lia.
Qed.

Lemma canonical_list_reads (body : string) (es : list Value) (ts : list string) :
  items_read_as body es ts ->
  text_reads_as ("(" +:+ body +:+ ")") (arrayToLinkedList es) ("(" :: ts ++ [")"]).
Proof.
  intros (Hne & Hj & HT & HP).
  assert (Es : spaced ("(" +:+ body +:+ ")") = " ( " +:+ spaced body +:+ " ) ").
  { rewrite !spaced_app. reflexivity. }
  split; [rewrite printExpr_list, Hj by assumption; reflexivity|].
  split; [|split; [|split]].
  - unfold tokenize. fold (spaced ("(" +:+ body +:+ ")")). rewrite Es.
    unfold trim.
    change (trimStart (" ( " +:+ spaced body +:+ " ) "))
      with ("( " +:+ spaced body +:+ " ) ").
    replace ("( " +:+ spaced body +:+ " ) ")
      with (("( " +:+ spaced body +:+ " ") +:+ ") ")
      by (rewrite !string_app_assoc; reflexivity).
    rewrite trimEnd_app by discriminate.
    change (trimEnd ") ") with ")".
    rewrite !string_app_assoc.
    change ("( " +:+ spaced body +:+ " " +:+ ")")
      with (String "(" (String " " (spaced body +:+ String " " ")"))).
    rewrite split_spaces_cons by reflexivity.
    destruct (split_spaces_head (String " " (spaced body +:+ String " " ")")) eq_refl)
      as (rest & E).
    pose proof (HT ")") as HT'. unfold tokens_after_space at 1 in HT'.
    rewrite E in *. cbn [tl] in HT'. rewrite HT'.
    rewrite tokens_after_space_last by (discriminate || reflexivity). reflexivity.
  - exists "(", (ts ++ [")"]). split; [reflexivity|discriminate].
  - intros u. rewrite Es, !string_app_assoc.
    change (" ( " +:+ spaced body +:+ " ) " +:+ String " " u)
      with (String " " ("(" +:+ String " " (spaced body +:+ " ) " +:+ String " " u))).
    rewrite (tokens_after_space_space " ") by reflexivity.
    rewrite tokens_after_space_word by (discriminate || reflexivity).
    change (spaced body +:+ " ) " +:+ String " " u)
      with (spaced body +:+ String " " (")" +:+ String " " (String " " u))).
    rewrite HT.
    rewrite tokens_after_space_word by (discriminate || reflexivity).
    rewrite (tokens_after_space_space " ") by reflexivity.
    cbn [app]. rewrite <- app_assoc. reflexivity.
  - intros before after.
    destruct (HP (before ++ ["("]) after []) as (f & Hf).
    exists (S f). rewrite parseExpression_S.
    change (("(" :: ts ++ [")"]) ++ after) with ("(" :: (ts ++ [")"]) ++ after).
    rewrite (list_lookup_middle before ((ts ++ [")"]) ++ after) "(" (length before) eq_refl).
    cbn [String.eqb Ascii.eqb Bool.eqb].
    replace (before ++ "(" :: (ts ++ [")"]) ++ after)
      with ((before ++ ["("]) ++ ts ++ ")" :: after)
      by (rewrite <- !app_assoc; reflexivity).
    replace (S (length before)) with (length (before ++ ["("]))
      by (rewrite length_app; simpl; lia).
    rewrite Hf. f_equal. f_equal. rewrite !length_app. simpl. rewrite length_app. simpl. lia.
Qed.

Lemma canonical_items_last_reads (s : string) (e : Value) (ts : list string) :
  text_reads_as s e ts -> items_read_as s [e] ts.
Proof.
  intros (Hp & _ & (t & ts' & -> & Ht) & HT & HP).
  split; [discriminate|]. split; [exact Hp|]. split; [exact HT|].
  intros before after l.
  destruct (HP before (")" :: after)) as (f & Hf).
  exists (S (S f)). rewrite parseList_S.
  change ((t :: ts') ++ ")" :: after) with (t :: ts' ++ ")" :: after).
  rewrite (list_lookup_middle before (ts' ++ ")" :: after) t (length before) eq_refl).
  apply String.eqb_neq in Ht. rewrite Ht.
  change (t :: ts' ++ ")" :: after) with ((t :: ts') ++ ")" :: after).
  rewrite (parseExpression_more_fuel _ f (S f) _ _ Hf) by lia.
  rewrite parseList_S.
  replace (before ++ (t :: ts') ++ ")" :: after)
    with ((before ++ t :: ts') ++ ")" :: after)
    by (rewrite <- app_assoc; reflexivity).
  rewrite (list_lookup_middle (before ++ t :: ts') after ")"
             (length before + length (t :: ts'))%nat)
    by (rewrite length_app; reflexivity).
  cbn [String.eqb Ascii.eqb Bool.eqb]. f_equal. f_equal. lia.
Qed.

Lemma canonical_items_more_reads
  (s : string) (e : Value) (ts : list string)
  (body : string) (es : list Value) (tsb : list string) :
  text_reads_as s e ts -> items_read_as body es tsb ->
  items_read_as (s +:+ " " +:+ body) (e :: es) (ts ++ tsb).
Proof.
  intros (Hp & _ & (t & ts' & -> & Ht) & HT & HP) (Hne & Hj & HTb & HPb).
  split; [discriminate|]. split; [|split].
  - cbn [map]. rewrite array_join_cons by (destruct es; [congruence|discriminate]).
    rewrite Hp, Hj. reflexivity.
  - intros u. rewrite !spaced_app, !string_app_assoc.
    change (spaced " " +:+ spaced body +:+ String " " u)
      with (String " " (spaced body +:+ String " " u)).
    rewrite HT, HTb, app_assoc. reflexivity.
  - intros before after l.
    destruct (HP before (tsb ++ ")" :: after)) as (f1 & Hf1).
    destruct (HPb (before ++ t :: ts') after (l ++ [e])) as (f2 & Hf2).
    exists (S (f1 + f2)). rewrite parseList_S.
    replace (before ++ ((t :: ts') ++ tsb) ++ ")" :: after)
      with (before ++ t :: (ts' ++ tsb ++ ")" :: after))
      by (cbn [app]; rewrite <- !app_assoc; reflexivity).
    rewrite (list_lookup_middle before _ t (length before) eq_refl).
    apply String.eqb_neq in Ht. rewrite Ht.
    replace (before ++ t :: (ts' ++ tsb ++ ")" :: after))
      with (before ++ (t :: ts') ++ tsb ++ ")" :: after)
      by reflexivity.
    rewrite (parseExpression_more_fuel _ f1 (f1 + f2) _ _ Hf1) by lia.
    replace (before ++ (t :: ts') ++ tsb ++ ")" :: after)
      with ((before ++ t :: ts') ++ tsb ++ ")" :: after)
      by (rewrite <- app_assoc; reflexivity).
    replace (length before + length (t :: ts'))%nat
      with (length (before ++ t :: ts')) by (rewrite length_app; reflexivity).
    rewrite (parseList_more_fuel _ f2 (f1 + f2) _ _ _ Hf2) by lia.
    rewrite <- app_assoc. f_equal. f_equal.
    rewrite !length_app. lia.
Qed.

(** Every canonical text is the printed form of the expression it is read
    as. *)
Lemma canonical_reads :
  (forall s, canonical_text s -> exists e ts, text_reads_as s e ts) /\
  (forall body, canonical_items body -> exists es ts, items_read_as body es ts).
Proof.
  split.
  - apply (canonical_text_mutual
             (fun s => exists e ts, text_reads_as s e ts)
             (fun body => exists es ts, items_read_as body es ts)).
    + intros t H. eexists _, _. apply canonical_atom_reads. exact H.
    + intros body _ (es & ts & H). eexists _, _. apply canonical_list_reads. exact H.
    + intros s _ (e & ts & H). eexists _, _. apply canonical_items_last_reads. exact H.
    + intros s body _ (e & ts & H) _ (es & tsb & Hb). eexists _, _.
      apply canonical_items_more_reads; eassumption.
  - apply (canonical_items_mutual
             (fun s => exists e ts, text_reads_as s e ts)
             (fun body => exists es ts, items_read_as body es ts)).
    + intros t H. eexists _, _. apply canonical_atom_reads. exact H.
    + intros body _ (es & ts & H). eexists _, _. apply canonical_list_reads. exact H.
    + intros s _ (e & ts & H). eexists _, _. apply canonical_items_last_reads. exact H.
    + intros s body _ (e & ts & H) _ (es & tsb & Hb). eexists _, _.
      apply canonical_items_more_reads; eassumption.
Qed.

(** C8, as the program has it. A canonical text with no empty list, one
    made of atoms that print as they are written and of lists of one or
    more elements with single spaces between them, is read and printed back
    as it is. *)
Theorem canonical_text_round_trip (s : string) :
  canonical_text s ->
  exists e, parse s = Ok e /\ printExpr e = s.
Proof.
  intros H. destruct (proj1 canonical_reads s H) as (e & ts & Hp & Ht & _ & _ & HP).
  exists e. split; [|exact Hp].
  destruct (HP [] []) as (f & Hf).
  unfold parse. rewrite Ht. apply (parse_tokens_fuel ts f).
  rewrite app_nil_r in Hf. exact Hf.
Qed.

(** The two texts of the specification. *)
Lemma canonical_text_round_trip_witness :
  (exists e, parse "(+ 1 2)" = Ok e /\ printExpr e = "(+ 1 2)") /\
  (exists e, parse "(lambda (x) x)" = Ok e /\ printExpr e = "(lambda (x) x)").
Proof.
  split.
  - apply (canonical_text_round_trip "(+ 1 2)").
    apply (canonical_text_list "+ 1 2").
    apply (canonical_items_more "+" "1 2");
      [apply canonical_text_atom; reflexivity|].
    apply (canonical_items_more "1" "2");
      [apply canonical_text_atom; reflexivity|].
    apply canonical_items_last. apply canonical_text_atom. reflexivity.
  - apply (canonical_text_round_trip "(lambda (x) x)").
    apply (canonical_text_list "lambda (x) x").
    apply (canonical_items_more "lambda" "(x) x");
      [apply canonical_text_atom; reflexivity|].
    apply (canonical_items_more "(x)" "x").
    + apply (canonical_text_list "x").
      apply canonical_items_last. apply canonical_text_atom. reflexivity.
    + apply canonical_items_last. apply canonical_text_atom. reflexivity.
Defined.

(** The empty list is read as [null] and printed as the word [null]. *)
Lemma empty_list_is_not_printed_back :
  parse "()" = Ok Null /\ printExpr Null = "null" /\
  ~ (exists e, parse "()" = Ok e /\ printExpr e = "()").
Proof.
  split; [reflexivity|]. split; [reflexivity|].
  intros (e & Hp & He).
  assert (Hp' : parse "()" = Ok Null) by reflexivity.
  rewrite Hp' in Hp. injection Hp as <-. discriminate He.
Qed.

(** ** Reader: the quote mark *)

(** C4 fails on an atom. [tokenize] separates parentheses only: a quote mark
    before an atom stays in the token of the atom, and [parse] returns the
    one symbol whose name starts with the mark, not the [quote] form. *)
Theorem quote_mark_stays_in_the_token_of_an_atom (w : string) :
  is_word w = true ->
  tokenize ("'" +:+ w) = ["'" +:+ w] /\
  parse ("'" +:+ w) = Ok (Str ("'" +:+ w)) /\
  parse ("'" +:+ w) <> Ok (Cons (Str "quote") (Cons (parseAtom w) Null)).
Proof.
  intros H.
  assert (Hq : is_word ("'" +:+ w) = true).
  { apply is_word_inv in H as (_ & W & _). unfold is_word.
    rewrite string_app_cons, string_app_nil_l. cbn [all_chars]. rewrite W. reflexivity. }
  pose proof (tokenize_word _ Hq) as Ht.
  apply is_word_inv in H as (N & _ & _).
  assert (Hp : parse ("'" +:+ w) = Ok (Str ("'" +:+ w))).
  { unfold parse. rewrite Ht. rewrite string_app_cons, string_app_nil_l.
    unfold parse_tokens, parse_fuel. cbn [length Nat.mul Nat.add].
    rewrite parseExpression_S. cbn [lookup list_lookup].
    assert (E : String.eqb (String "'" w) "'" = false).
    { apply String.eqb_neq. congruence. }
    rewrite E. cbn [String.eqb Ascii.eqb Bool.eqb].
    rewrite parseAtom_cases. reflexivity. }
  split; [exact Ht|]. split; [exact Hp|]. rewrite Hp. discriminate.
Qed.

(** ['x] is one symbol, while the mark before a parenthesis or before a
    space is a token and gives the [quote] form. *)
Lemma quote_mark_stays_in_the_token_of_an_atom_witness :
  tokenize "'x" = ["'x"] /\
  parse "'x" = Ok (Str "'x") /\
  tokenize "'(1 2 3)" = ["'"; "("; "1"; "2"; "3"; ")"] /\
  parse "'(1 2 3)"
    = Ok (Cons (Str "quote")
            (Cons (Cons (num 1) (Cons (num 2) (Cons (num 3) Null))) Null)) /\
  parse "' x" = Ok (Cons (Str "quote") (Cons (Str "x") Null)).
Proof.
  destruct (quote_mark_stays_in_the_token_of_an_atom "x" eq_refl) as (Ht & Hp & _).
  split; [exact Ht|]. split; [exact Hp|]. repeat split; reflexivity.
Defined.

(** ** Tokenizer: words *)

Lemma split_spaces_hd_tl (s : string) :
  split_spaces s = hd "" (split_spaces s) :: tl (split_spaces s).
Proof.
  destruct s as [|a r]; [reflexivity|]. simpl.
  destruct (is_space a).
  - destruct (starts_with_space r) eqn:E; [|reflexivity].
    destruct (split_spaces_head r E) as [ts ->]. reflexivity.
  - destruct (split_spaces r); reflexivity.
Qed.

Lemma split_spaces_letter x (r : string) :
  is_space x = false ->
  split_spaces (String x r)
  = String x (hd "" (split_spaces r)) :: tl (split_spaces r).
Proof.
  intros Hx. rewrite (split_spaces_cons x r Hx).
  rewrite (split_spaces_hd_tl r) at 1. reflexivity.
Qed.

Lemma split_spaces_blank_cons c (u : string) :
  is_space c = true ->
  split_spaces (String c u) =
    if starts_with_space u then split_spaces u else "" :: split_spaces u.
Proof. intros Hc. simpl. rewrite Hc. reflexivity. Qed.

Lemma split_spaces_blank c (u : string) :
  is_space c = true ->
  hd "" (split_spaces (String c u)) = "" /\
  List.filter nonempty (tl (split_spaces (String c u)))
  = List.filter nonempty (split_spaces u).
Proof.
  intros Hc. simpl. rewrite Hc.
  destruct (starts_with_space u) eqn:E; [|split; reflexivity].
  destruct (split_spaces_head u E) as [ts ->]. split; reflexivity.
Qed.

Lemma words_hd_tl (s : string) :
  words s = List.filter nonempty [hd "" (split_spaces s)]
            ++ List.filter nonempty (tl (split_spaces s)).
Proof.
  unfold words. rewrite (split_spaces_hd_tl s) at 1. cbn [List.filter].
  destruct (nonempty (hd "" (split_spaces s))); reflexivity.
Qed.

Lemma words_blank_cons c (u : string) :
  is_space c = true -> words (String c u) = words u.
Proof.
  intros Hc. rewrite words_hd_tl.
  destruct (split_spaces_blank c u Hc) as [-> ->]. reflexivity.
Qed.

Lemma words_letter x (r : string) :
  is_space x = false ->
  words (String x r)
  = String x (hd "" (split_spaces r))
    :: List.filter nonempty (tl (split_spaces r)).
Proof. intros Hx. unfold words. rewrite (split_spaces_letter x r Hx). reflexivity. Qed.

Lemma words_blank_app (ws u : string) :
  all_chars is_space ws = true -> words (ws +:+ u) = words u.
Proof.
  induction ws as [|c ws IH]; intros H; [reflexivity|].
  simpl in H. apply andb_prop in H as [Hc Hws].
  rewrite string_app_cons, (words_blank_cons c _ Hc). exact (IH Hws).
Qed.

(** What a white space inside a string separates. *)
Lemma split_spaces_app_space (a : string) sp (b : string) :
  is_space sp = true ->
  hd "" (split_spaces (a +:+ String sp b)) = hd "" (split_spaces a) /\
  List.filter nonempty (tl (split_spaces (a +:+ String sp b)))
  = List.filter nonempty (tl (split_spaces a)) ++ words b.
Proof.
  intros Hsp. induction a as [|c a [IHh IHt]].
  - rewrite string_app_nil_l.
    destruct (split_spaces_blank sp b Hsp) as [-> ->]. split; reflexivity.
  - rewrite string_app_cons. destruct (is_space c) eqn:Hc.
    + destruct (split_spaces_blank c (a +:+ String sp b) Hc) as [-> ->].
      destruct (split_spaces_blank c a Hc) as [-> ->].
      split; [reflexivity|].
      rewrite (split_spaces_hd_tl (a +:+ String sp b)), (split_spaces_hd_tl a).
      cbn [List.filter]. rewrite IHh, IHt.
      destruct (nonempty (hd "" (split_spaces a))); reflexivity.
    + rewrite !(split_spaces_letter c _ Hc). cbn [hd tl].
      rewrite IHh, IHt. split; reflexivity.
Qed.

Lemma words_app_space (a : string) sp (b : string) :
  is_space sp = true -> words (a +:+ String sp b) = words a ++ words b.
Proof.
  intros Hsp. rewrite !(words_hd_tl (a +:+ _)), (words_hd_tl a).
  destruct (split_spaces_app_space a sp b Hsp) as [-> ->].
  rewrite app_assoc. reflexivity.
Qed.

Lemma trimEnd_cons c (r : string) :
  trimEnd (String c r) =
    if String.eqb (trimEnd r) "" && is_space c then "" else String c (trimEnd r).
Proof.
  simpl. destruct (trimEnd r); simpl; [|reflexivity].
  destruct (is_space c); reflexivity.
Qed.

Lemma split_spaces_trimEnd (s : string) :
  hd "" (split_spaces (trimEnd s)) = hd "" (split_spaces s) /\
  List.filter nonempty (tl (split_spaces (trimEnd s)))
  = List.filter nonempty (tl (split_spaces s)).
Proof.
  induction s as [|c r [IHh IHt]]; [split; reflexivity|].
  rewrite trimEnd_cons. destruct (is_space c) eqn:Hc.
  - destruct (split_spaces_blank c r Hc) as [-> ->].
    destruct (String.eqb (trimEnd r) "") eqn:E; cbn [andb].
    + apply String.eqb_eq in E. rewrite E in IHh, IHt. cbn in IHh, IHt.
      split; [reflexivity|].
      rewrite (split_spaces_hd_tl r). cbn [List.filter].
      rewrite <- IHh, <- IHt. reflexivity.
    + destruct (split_spaces_blank c (trimEnd r) Hc) as [-> ->].
      split; [reflexivity|].
      rewrite (split_spaces_hd_tl (trimEnd r)), (split_spaces_hd_tl r).
      cbn [List.filter]. rewrite IHh, IHt. reflexivity.
  - rewrite andb_false_r, !(split_spaces_letter c _ Hc). cbn [hd tl].
    rewrite IHh, IHt. split; reflexivity.
Qed.

Lemma split_spaces_trimEnd_tail (s : string) :
  Forall (fun t => nonempty t = true) (tl (split_spaces (trimEnd s))).
Proof.
  induction s as [|c r IH]; [constructor|].
  rewrite trimEnd_cons.
  destruct (String.eqb (trimEnd r) "") eqn:E; destruct (is_space c) eqn:Hc;
    cbn [andb]; try (constructor; fail).
  - rewrite (split_spaces_letter c _ Hc). exact IH.
  - destruct (trimEnd r) as [|d v] eqn:Ev; [discriminate E|].
    rewrite (split_spaces_blank_cons c _ Hc). cbn [starts_with_space].
    destruct (is_space d) eqn:Hd.
    + exact IH.
    + cbn [tl]. rewrite (split_spaces_letter d v Hd) in IH |- *.
      constructor; [reflexivity | exact IH].
  - rewrite (split_spaces_letter c _ Hc). exact IH.
Qed.

Lemma filter_all {A} (P : A -> bool) (l : list A) :
  Forall (fun x => P x = true) l -> List.filter P l = l.
Proof.
  induction 1 as [|x l Hx _ IH]; [reflexivity|]. simpl. rewrite Hx, IH. reflexivity.
Qed.

Lemma trimStart_cases (s : string) :
  all_chars is_space s = true /\ trimStart s = ""
  \/ exists ws c r, s = ws +:+ String c r /\ all_chars is_space ws = true /\
       is_space c = false /\ trimStart s = String c r.
Proof.
  induction s as [|a s IH]; [left; split; reflexivity|].
  simpl. destruct (is_space a) eqn:Ha.
  - destruct IH as [[Hb Ht]|(ws & c & r & -> & Hws & Hc & Ht)].
    + left. split; assumption.
    + right. exists (String a ws), c, r. simpl. rewrite Ha. auto.
  - right. exists "", a, s. auto.
Qed.

(** The tokens are the words of the input once its parentheses are set
    apart, and one empty token when it has no word. *)
Lemma tokenize_words (input : string) :
  tokenize input =
    match words (spaced input) with
    | [] => [""]
    | ts => ts
    end.
Proof.
  unfold tokenize. fold (spaced input). unfold trim.
  destruct (trimStart_cases (spaced input))
    as [[Hb ->]|(ws & c & r & Hs & Hws & Hc & ->)].
  - rewrite <- (string_app_nil_r (spaced input)), (words_blank_app _ "" Hb).
    reflexivity.
  - rewrite Hs, (words_blank_app ws _ Hws), (words_letter c r Hc).
    rewrite trimEnd_cons, Hc, andb_false_r, (split_spaces_letter c _ Hc).
    destruct (split_spaces_trimEnd r) as [-> <-].
    rewrite (filter_all _ _ (split_spaces_trimEnd_tail r)). reflexivity.
Qed.

Lemma space_not_paren c : is_space c = true -> is_paren c = false.
Proof.
  intros Hc. unfold is_paren.
  destruct (Ascii.eqb c "(") eqn:E1; [apply Ascii.eqb_eq in E1; subst; discriminate Hc|].
  destruct (Ascii.eqb c ")") eqn:E2; [apply Ascii.eqb_eq in E2; subst; discriminate Hc|].
  reflexivity.
Qed.

Lemma spaced_blank (ws : string) : all_chars is_space ws = true -> spaced ws = ws.
Proof.
  intros H. unfold spaced.
  rewrite (replace_all_absent "(" " ( " ws), (replace_all_absent ")" " ) " ws);
    [reflexivity| |];
    refine (all_chars_impl _ _ ws _ H); intros c Hc;
    apply space_not_paren in Hc; unfold is_paren in Hc;
    apply orb_false_elim in Hc as [H1 H2]; [rewrite H2|rewrite H1]; reflexivity.
Qed.

Lemma words_app_blank (a ws b : string) :
  all_chars is_space ws = true -> ws <> "" ->
  words (a +:+ ws +:+ b) = words a ++ words b.
Proof.
  intros H Hne. destruct ws as [|sp ws]; [contradiction|].
  simpl in H. apply andb_prop in H as [Hsp Hws].
  rewrite string_app_cons, (words_app_space a sp _ Hsp), (words_blank_app ws b Hws).
  reflexivity.
Qed.

Lemma words_blank (ws : string) : all_chars is_space ws = true -> words ws = [].
Proof.
  intros H. rewrite <- (string_app_nil_r ws), (words_blank_app ws "" H). reflexivity.
Qed.

Lemma words_spaced_paren (p a b : string) :
  spaced p = " " +:+ p +:+ " " -> all_chars (fun c => negb (is_space c)) p = true ->
  forall ws, all_chars is_space ws = true -> ws <> "" ->
  words (spaced (a +:+ p +:+ b)) = words (spaced (a +:+ ws +:+ p +:+ ws +:+ b)).
Proof.
  intros Hp Hw ws H Hne.
  assert (Hsp : all_chars is_space " " = true) by reflexivity.
  assert (Hne' : " " <> "") by discriminate.
  rewrite !spaced_app, Hp, (spaced_blank ws H), !string_app_assoc.
  rewrite (words_app_blank _ " " _ Hsp Hne'), (words_app_blank _ ws _ H Hne).
  f_equal.
  rewrite (words_blank_app " " _ Hsp).
  rewrite !(words_app_blank p " " _ Hsp Hne').
  rewrite (words_blank_app ws _ H). reflexivity.
Qed.

(** X1 (tokenize): white space only separates. A run of white space
    between two parts of the input gives the tokens a single space gives,
    white space at either end of the input gives none, and a parenthesis is
    a token of its own whether white space surrounds it or not. *)
Theorem tokenize_white_space (a b ws : string) :
  all_chars is_space ws = true -> ws <> "" ->
  tokenize (a +:+ ws +:+ b) = tokenize (a +:+ " " +:+ b) /\
  tokenize (ws +:+ a) = tokenize a /\
  tokenize (a +:+ ws) = tokenize a /\
  tokenize (a +:+ "(" +:+ b) = tokenize (a +:+ ws +:+ "(" +:+ ws +:+ b) /\
  tokenize (a +:+ ")" +:+ b) = tokenize (a +:+ ws +:+ ")" +:+ ws +:+ b).
Proof.
  intros H Hne. rewrite !tokenize_words.
  assert (Hsp : all_chars is_space " " = true) by reflexivity.
  assert (Hne' : " " <> "") by discriminate.
  split; [|split; [|split; [|split]]].
  - rewrite !spaced_app, (spaced_blank ws H), (spaced_blank " " Hsp).
    rewrite (words_app_blank _ ws _ H Hne), (words_app_blank _ " " _ Hsp Hne').
    reflexivity.
  - rewrite spaced_app, (spaced_blank ws H), (words_blank_app ws _ H). reflexivity.
  - rewrite spaced_app, (spaced_blank ws H).
    rewrite <- (string_app_nil_r ws), (words_app_blank _ ws "" H Hne), app_nil_r.
    reflexivity.
  - rewrite (words_spaced_paren "(" a b eq_refl eq_refl ws H Hne). reflexivity.
  - rewrite (words_spaced_paren ")" a b eq_refl eq_refl ws H Hne). reflexivity.
Qed.

Lemma tokenize_white_space_witness :
  tokenize ("(+" +:+ String "009" (String "010" " ") +:+ "1 2)") = tokenize "(+ 1 2)" /\
  tokenize (String "009" (String "010" " ") +:+ "(+ 1 2)") = tokenize "(+ 1 2)" /\
  tokenize ("  (+ 1 2)" +:+ "  ") = tokenize "  (+ 1 2)" /\
  tokenize ("(car" +:+ "(" +:+ "f x))") = tokenize ("(car" +:+ " " +:+ "(" +:+ " " +:+ "f x))").
Proof.
  destruct (tokenize_white_space "(+" "1 2)" (String "009" (String "010" " "))
              eq_refl ltac:(discriminate)) as (H1 & _).
  destruct (tokenize_white_space "(+ 1 2)" "" (String "009" (String "010" " "))
              eq_refl ltac:(discriminate)) as (_ & H2 & _).
  destruct (tokenize_white_space "  (+ 1 2)" "" "  "
              eq_refl ltac:(discriminate)) as (_ & _ & H3 & _).
  destruct (tokenize_white_space "(car" "f x))" " "
              eq_refl ltac:(discriminate)) as (_ & _ & _ & H4 & _).
  split; [exact H1|]. split; [exact H2|]. split; [exact H3|exact H4].
Defined.

(** ** Tokenizer: the shape of a token *)

Lemma split_spaces_no_space (s : string) :
  Forall (fun t => all_chars (fun c => negb (is_space c)) t = true) (split_spaces s).
Proof.
  induction s as [|a r IH]; [repeat constructor|].
  destruct (is_space a) eqn:Ha.
  - rewrite (split_spaces_blank_cons a r Ha).
    destruct (starts_with_space r); [exact IH|constructor; [reflexivity|exact IH]].
  - rewrite (split_spaces_letter a r Ha).
    rewrite (split_spaces_hd_tl r) in IH. inversion IH as [|t ts Ht Hts]; subst.
    constructor; [|exact Hts]. simpl. rewrite Ha, Ht. reflexivity.
Qed.

Lemma spaced_cons a (r : string) :
  spaced (String a r) =
    (if Ascii.eqb a "(" then " ( "
     else if Ascii.eqb a ")" then " ) " else String a "") +:+ spaced r.
Proof.
  change (String a r) with (String a "" +:+ r). rewrite spaced_app. f_equal.
  unfold spaced. cbn [replace_all].
  destruct (Ascii.eqb a "(") eqn:E1; [reflexivity|].
  cbn [replace_all]. destruct (Ascii.eqb a ")"); reflexivity.
Qed.

Lemma parens_apart_spaced (input : string) :
  forall before, parens_apart before (spaced input) = true.
Proof.
  induction input as [|a r IH]; intros before; [reflexivity|].
  rewrite spaced_cons.
  destruct (Ascii.eqb a "(") eqn:E1; [exact (IH true)|].
  destruct (Ascii.eqb a ")") eqn:E2; [exact (IH true)|].
  rewrite string_app_cons, string_app_nil_l. cbn [parens_apart].
  unfold is_paren. rewrite E1, E2. exact (IH _).
Qed.

Lemma split_spaces_parens_apart (s : string) :
  forall before, parens_apart before s = true ->
    (before = false -> paren_free (hd "" (split_spaces s)) = true) /\
    Forall (fun t => paren_or_free t = true) (split_spaces s).
Proof.
  induction s as [|c r IH]; intros before H.
  - split; [reflexivity|repeat constructor].
  - cbn [parens_apart] in H. destruct (is_paren c) eqn:Hp.
    + apply andb_prop in H as [H Hr]. apply andb_prop in H as [Hb Hnext].
      destruct before; [clear Hb|discriminate Hb].
      assert (Hc : is_space c = false).
      { destruct (is_space c) eqn:Hc; [|reflexivity].
        apply space_not_paren in Hc. congruence. }
      rewrite (split_spaces_letter c r Hc).
      destruct (IH false Hr) as [_ Hall].
      rewrite (split_spaces_hd_tl r) in Hall. inversion Hall as [|t ts _ Hts]; subst.
      assert (Hhd : hd "" (split_spaces r) = "").
      { destruct r as [|d r']; [reflexivity|].
        destruct (split_spaces_head (String d r') Hnext) as [us ->]. reflexivity. }
      rewrite Hhd. split; [discriminate|].
      constructor; [|exact Hts].
      unfold is_paren in Hp. unfold paren_or_free.
      destruct (Ascii.eqb c "(") eqn:E1; [apply Ascii.eqb_eq in E1; subst; reflexivity|].
      destruct (Ascii.eqb c ")") eqn:E2; [apply Ascii.eqb_eq in E2; subst; reflexivity|].
      discriminate Hp.
    + destruct (is_space c) eqn:Hc.
      * destruct (IH true H) as [_ Hall].
        rewrite (split_spaces_blank_cons c r Hc).
        destruct (starts_with_space r) eqn:E.
        -- split; [|exact Hall]. intros _.
           destruct (split_spaces_head r E) as [us ->]. reflexivity.
        -- split; [reflexivity|]. constructor; [reflexivity|exact Hall].
      * destruct (IH false H) as [Hhd Hall].
        rewrite (split_spaces_letter c r Hc).
        rewrite (split_spaces_hd_tl r) in Hall. inversion Hall as [|t ts _ Hts]; subst.
        assert (Hfree : paren_free (String c (hd "" (split_spaces r))) = true).
        { unfold paren_free in *. simpl. rewrite Hp. exact (Hhd eq_refl). }
        split; [intros _; exact Hfree|].
        constructor; [|exact Hts].
        unfold paren_or_free. rewrite Hfree. apply orb_true_r.
Qed.

Lemma all_chars_word (t : string) :
  all_chars (fun c => negb (is_space c)) t = true -> paren_free t = true ->
  all_chars word_char t = true.
Proof.
  unfold paren_free. induction t as [|c t IH]; [reflexivity|]. simpl.
  intros H1 H2. apply andb_prop in H1 as [Hs H1]. apply andb_prop in H2 as [Hp H2].
  rewrite (IH H1 H2), andb_true_r. unfold word_char, is_paren in *.
  rewrite Hs. apply negb_true_iff, orb_false_elim in Hp as [-> ->]. reflexivity.
Qed.

Lemma In_words (s t : string) :
  In t (words s) -> In t (split_spaces s) /\ t <> "".
Proof.
  unfold words. rewrite List.filter_In. intros [Hin Hne]. split; [exact Hin|].
  intros ->. discriminate Hne.
Qed.

Lemma tokenize_cases (input : string) :
  tokenize input = [""] \/
  tokenize input = words (spaced input) /\ words (spaced input) <> [].
Proof.
  rewrite tokenize_words. destruct (words (spaced input)); [left|right; split]; congruence.
Qed.

Lemma tokenize_token_shape_aux (input : string) :
  Forall (fun t => t = "(" \/ t = ")" \/ all_chars word_char t = true)
    (tokenize input).
Proof.
  destruct (tokenize_cases input) as [E|[E Hne]]; rewrite E.
  - constructor; [right; right; reflexivity|constructor].
  - apply List.Forall_forall. intros t Ht. apply In_words in Ht as [Ht _].
    destruct (split_spaces_parens_apart _ true (parens_apart_spaced input true))
      as [_ Hall].
    pose proof (split_spaces_no_space (spaced input)) as Hsp.
    rewrite List.Forall_forall in Hall, Hsp.
    specialize (Hall t Ht). specialize (Hsp t Ht). unfold paren_or_free in Hall.
    apply orb_prop in Hall as [Hall|Hfree].
    + apply orb_prop in Hall as [H|H]; apply String.eqb_eq in H; auto.
    + right; right. exact (all_chars_word t Hsp Hfree).
Qed.

(** X2 (tokenize): every token is a parenthesis alone or a run of
    characters with neither white space nor a parenthesis; there is always
    a token, and an empty one only as the single token of an input without
    any word. *)
Theorem tokenize_token_shape (input : string) :
  tokenize input <> [] /\
  Forall (fun t => t = "(" \/ t = ")" \/ all_chars word_char t = true)
    (tokenize input) /\
  (In "" (tokenize input) -> tokenize input = [""]).
Proof.
  pose proof (tokenize_token_shape_aux input) as Hall.
  destruct (tokenize_cases input) as [E|[E Hne]]; rewrite E in *.
  - split; [discriminate|]. split; [exact Hall|reflexivity].
  - split; [exact Hne|]. split; [exact Hall|].
    intros Hin. apply In_words in Hin as [_ Hin]. contradiction.
Qed.

(** ** Reader: blank input and the shape of what is read *)

Lemma trimStart_blank (ws : string) : all_chars is_space ws = true -> trimStart ws = "".
Proof.
  induction ws as [|c ws IH]; [reflexivity|]. simpl. intros H.
  apply andb_prop in H as [-> H]. exact (IH H).
Qed.

Lemma tokenize_blank (input : string) :
  all_chars is_space input = true -> tokenize input = [""].
Proof.
  intros H. rewrite tokenize_words, (spaced_blank input H), (words_blank input H).
  reflexivity.
Qed.

(** X3 (tokenize, parse, repl): an input of white space only, the empty
    line included, has the single empty token, is read as the symbol of
    empty name, and a turn of the loop on it fails with an undefined
    variable of that name when the global environment has no such binding;
    the store is left as it was. *)
Theorem blank_input_is_the_empty_symbol (input : string) :
  all_chars is_space input = true ->
  tokenize input = [""] /\
  parse input = Ok (Str "") /\
  forall stk gas st frame,
    st !! globalEnv = Some frame -> parent frame = None ->
    map_get (vars frame) "" = None ->
    repl_turn (S (S (S stk))) gas input st = (Throw (UndefinedVariable ""), st).
Proof.
  intros H. pose proof (tokenize_blank input H) as Ht.
  assert (Hp : parse input = Ok (Str "")) by (unfold parse; rewrite Ht; reflexivity).
  split; [exact Ht|]. split; [exact Hp|].
  intros stk gas st frame Hf Hparent Hnone.
  unfold repl_turn. rewrite Hp, evaluate_S. unfold bind.
  change (evaluateWithTailCall (S (S stk)) gas (Str "") globalEnv st)
    with (Environment_lookup (S stk) globalEnv "" st).
  rewrite Environment_lookup_S, Hf, Hnone, Hparent. reflexivity.
Qed.

Lemma blank_input_is_the_empty_symbol_witness :
  tokenize (String "009" "  ") = [""] /\
  parse (String "009" "  ") = Ok (Str "") /\
  repl_turn 3 0 (String "009" "  ") globalStore
    = (Throw (UndefinedVariable ""), globalStore).
Proof.
  destruct (blank_input_is_the_empty_symbol (String "009" "  ") eq_refl)
    as (Ht & Hp & Hr).
  split; [exact Ht|]. split; [exact Hp|].
  exact (Hr 0%nat 0%nat globalStore _ eq_refl eq_refl eq_refl).
Defined.

Lemma datum_parseAtom (token : string) :
  all_chars word_char token = true -> datum (parseAtom token) = true.
Proof.
  intros H. rewrite parseAtom_cases.
  destruct (String.eqb token "#t" || String.eqb token "#f"); [reflexivity|].
  destruct (scan_decimal (trimStart token)) as [[x rest]|] eqn:E; [|exact H].
  simpl. rewrite (scan_decimal_not_nan _ _ _ E). reflexivity.
Qed.

Lemma datum_arrayToLinkedList (l : list Value) :
  Forall (fun v => datum v = true) l -> datum (arrayToLinkedList l) = true.
Proof.
  induction 1 as [|x l Hx _ IH]; [reflexivity|].
  cbn [arrayToLinkedList datum]. rewrite Hx, IH. destruct l; reflexivity.
Qed.

Lemma parse_datum (tokens : list string)
  (Hall : Forall (fun t => t = "(" \/ t = ")" \/ all_chars word_char t = true) tokens) :
  forall fuel,
    (forall pos e p, parseExpression fuel tokens pos = Ok (e, p) -> datum e = true) /\
    (forall l pos e p, Forall (fun v => datum v = true) l ->
       parseList fuel tokens l pos = Ok (e, p) -> datum e = true).
Proof.
  induction fuel as [|fuel [IHe IHl]]; [split; intros; discriminate|].
  split.
  - intros pos e p. rewrite parseExpression_S.
    destruct (tokens !! pos) as [token|] eqn:Et; [|discriminate].
    destruct (String.eqb token "(") eqn:E1.
    { apply IHl. constructor. }
    destruct (String.eqb token ")") eqn:E2; [discriminate|].
    destruct (String.eqb token "'") eqn:E3.
    + destruct (parseExpression fuel tokens (S pos)) as [[e' p']| | |] eqn:Ee;
        try discriminate.
      intros [= <- <-]. cbn [datum]. rewrite (IHe _ _ _ Ee). reflexivity.
    + intros [= <- <-]. apply datum_parseAtom.
      pose proof (Forall_lookup_1 _ _ _ _ Hall Et) as [->|[->|Hw]];
        [discriminate E1|discriminate E2|exact Hw].
  - intros l pos e p Hl. rewrite parseList_S.
    destruct (tokens !! pos) as [token|] eqn:Et; [|discriminate].
    destruct (String.eqb token ")") eqn:E2.
    + intros [= <- <-]. exact (datum_arrayToLinkedList l Hl).
    + destruct (parseExpression fuel tokens pos) as [[e' p']| | |] eqn:Ee;
        try discriminate.
      apply IHl. apply Forall_app. split; [exact Hl|].
      constructor; [exact (IHe _ _ _ Ee)|constructor].
Qed.

Lemma parse_tokens_datum (tokens : list string) (e : Value) :
  Forall (fun t => t = "(" \/ t = ")" \/ all_chars word_char t = true) tokens ->
  parse_tokens tokens = Ok e -> datum e = true.
Proof.
  unfold parse_tokens. intros Hall H.
  destruct (parseExpression (parse_fuel tokens) tokens 0)
    as [[e' p]| | |] eqn:E; try discriminate.
  destruct (negb (p =? length tokens)%nat); [discriminate|].
  injection H as <-.
  exact (proj1 (parse_datum _ Hall _) _ _ _ E).
Qed.

(** X4 (parse): whatever text is read, the value returned is a datum: its
    numbers are not NaN, the names of its symbols have neither white space
    nor a parenthesis, every list in it ends with the empty list, and it
    holds no procedure, no thunk and no undefined value. *)
Theorem parse_returns_a_datum (input : string) (e : Value) :
  parse input = Ok e -> datum e = true.
Proof.
  unfold parse. intros Hparse.
  apply (parse_tokens_datum (tokenize input)); [|exact Hparse].
  exact (tokenize_token_shape_aux input).
Qed.

Lemma parse_returns_a_datum_witness :
  parse "(define (f x) '(a 1.5 #t ()))"
  = Ok (arrayToLinkedList
          [Str "define"; arrayToLinkedList [Str "f"; Str "x"];
           arrayToLinkedList
             [Str "quote";
              arrayToLinkedList
                [Str "a"; Num (Float64.of_decimal 15 (-1)); Bool true; Null]]]) /\
  datum (arrayToLinkedList
          [Str "define"; arrayToLinkedList [Str "f"; Str "x"];
           arrayToLinkedList
             [Str "quote";
              arrayToLinkedList
                [Str "a"; Num (Float64.of_decimal 15 (-1)); Bool true; Null]]]) = true.
Proof.
  assert (H : parse "(define (f x) '(a 1.5 #t ()))"
    = Ok (arrayToLinkedList
          [Str "define"; arrayToLinkedList [Str "f"; Str "x"];
           arrayToLinkedList
             [Str "quote";
              arrayToLinkedList
                [Str "a"; Num (Float64.of_decimal 15 (-1)); Bool true; Null]]]))
    by (vm_compute; reflexivity).
  split; [exact H|]. exact (parse_returns_a_datum _ _ H).
Defined.

(** ** Reader: what each error tells *)




(** ** Printer and reader: the way back *)

Lemma printable_atom_reads (v : Value) :
  canonical_atom (printExpr v) = true -> parseAtom (printExpr v) = v ->
  exists ts, text_reads_as (printExpr v) v ts.
Proof.
  intros Hc Hp. exists [printExpr v].
  pose proof (canonical_atom_reads (printExpr v) Hc) as H. rewrite Hp in H. exact H.
Qed.

Lemma printable_reads (v : Value) :
  printable v ->
  (exists ts, text_reads_as (printExpr v) v ts) /\
  (forall a d, v = Cons a d ->
     exists ts,
       items_read_as (array_join " " (map printExpr (linkedListToArray v)))
         (linkedListToArray v) ts /\
       arrayToLinkedList (linkedListToArray v) = v).
Proof.
  induction v as [x|b|s| | |a IHa d IHd|p|args _ env|func];
    cbn [printable]; try contradiction;
    try (intros [Hc Hp]; split; [exact (printable_atom_reads _ Hc Hp)|discriminate]).
  intros [Ha Hd]. destruct (proj1 (IHa Ha)) as (tsa & Hta).
  assert (Hitems : exists ts,
    items_read_as (array_join " " (map printExpr (linkedListToArray (Cons a d))))
      (linkedListToArray (Cons a d)) ts /\
    arrayToLinkedList (linkedListToArray (Cons a d)) = Cons a d).
  { destruct d as [| | | | |a' d'| | |]; try contradiction.
    - exists tsa. split; [|reflexivity].
      exact (canonical_items_last_reads _ _ _ Hta).
    - destruct (proj2 (IHd Hd) a' d' eq_refl) as (tsd & Htd & Heq).
      exists (tsa ++ tsd). cbn [linkedListToArray arrayToLinkedList] in *.
      split; [|rewrite Heq; reflexivity].
      cbn [map]. rewrite array_join_cons by discriminate.
      exact (canonical_items_more_reads _ _ _ _ _ _ Hta Htd). }
  split; [|intros ? ? _; exact Hitems].
  destruct Hitems as (ts & Hts & Heq).
  exists ("(" :: ts ++ [")"]). rewrite printExpr_Cons.
  pose proof (canonical_list_reads _ _ _ Hts) as H. rewrite Heq in H. exact H.
Qed.

(** X6 (printExpr, parse): reading what the printer wrote. For a value
    whose atoms are printed as canonical atoms that [parseAtom] reads back,
    and whose lists are not empty and end with the empty list, the text that
    [printExpr] gives is read by [parse] as that same value. *)
Theorem parse_printExpr (v : Value) :
  printable v -> parse (printExpr v) = Ok v.
Proof.
  intros H. destruct (proj1 (printable_reads v H)) as (ts & _ & Ht & _ & _ & HP).
  destruct (HP [] []) as (f & Hf).
  unfold parse. rewrite Ht. apply (parse_tokens_fuel ts f).
  rewrite app_nil_r in Hf. exact Hf.
Qed.

Lemma parse_printExpr_witness :
  printExpr (arrayToLinkedList
               [Str "define"; arrayToLinkedList [Str "f"; Str "x"];
                arrayToLinkedList [Str "*"; Str "x"; Num (Float64.of_decimal 25 (-1));
                                   Bool false]])
  = "(define (f x) (* x 2.5 #f))" /\
  parse "(define (f x) (* x 2.5 #f))"
  = Ok (arrayToLinkedList
          [Str "define"; arrayToLinkedList [Str "f"; Str "x"];
           arrayToLinkedList [Str "*"; Str "x"; Num (Float64.of_decimal 25 (-1));
                              Bool false]]).
Proof.
  split; [vm_compute; reflexivity|].
  refine (parse_printExpr
            (arrayToLinkedList
               [Str "define"; arrayToLinkedList [Str "f"; Str "x"];
                arrayToLinkedList [Str "*"; Str "x"; Num (Float64.of_decimal 25 (-1));
                                   Bool false]]) _).
  cbn [printable arrayToLinkedList].
  repeat split; vm_compute; reflexivity.
Defined.

(** ** Evaluator: the store stays well formed *)

Lemma data_ok_mono (n m : nat) (v : Value) :
  (n <= m)%nat -> data_ok n v -> data_ok m v.
Proof.
  intros Hnm. induction v as [x|b|s| | |a IHa d IHd|p|args IHargs env|func];
    cbn [data_ok]; try tauto.
  intros [H1 H2]. split; [exact (IHargs H1)|lia].
Qed.

Lemma data_ok_result (n : nat) (v : Value) : data_ok n v -> result_ok n v.
Proof. destruct v; cbn [result_ok data_ok]; tauto. Qed.

Lemma result_ok_value (n : nat) (v : Value) :
  result_ok n v -> is_thunk v = false -> data_ok n v.
Proof. destruct v; cbn [result_ok data_ok]; try tauto. discriminate. Qed.

Lemma data_ok_get_car (n : nat) (v a : Value) :
  data_ok n v -> get_car v = Ok a -> data_ok n a.
Proof. destruct v; cbn; intros H [= <-]; try exact I. exact (proj1 H). Qed.

Lemma data_ok_get_cdr (n : nat) (v d : Value) :
  data_ok n v -> get_cdr v = Ok d -> data_ok n d.
Proof. destruct v; cbn; intros H [= <-]; try exact I. exact (proj2 H). Qed.

Lemma data_ok_apply_primitive p params v :
  apply_primitive p params = Ok v -> forall n, data_ok n v.
Proof.
  unfold apply_primitive. destruct p; try (intros [= <-] n; exact I).
  - intros [= <-] n. unfold js_add. destruct (_ || _); exact I.
  - destruct (js_strict_equal _ _); try discriminate. intros [= <-] n. exact I.
Qed.

Lemma map_get_In m k v : map_get m k = Some v -> exists k', In (k', v) m.
Proof.
  induction m as [|[k' v'] m IH]; [discriminate|]. simpl.
  destruct (String.eqb k' k).
  - intros [= ->]. exists k'. left. reflexivity.
  - intros H. destruct (IH H) as [k'' Hin]. exists k''. right. exact Hin.
Qed.

Lemma map_set_In m k v k' v' :
  In (k', v') (map_set m k v) -> v' = v \/ In (k', v') m.
Proof.
  induction m as [|[k0 v0] m IH]; simpl.
  - intros [[= <- <-]|[]]. left. reflexivity.
  - destruct (String.eqb k0 k); simpl.
    + intros [[= <- <-]|H]; [left; reflexivity|right; right; exact H].
    + intros [H|H]; [right; left; exact H|].
      destruct (IH H) as [->|Hin]; [left; reflexivity|right; right; exact Hin].
Qed.

Lemma sound_ret {A} n (a : A) (Q : nat -> A -> Prop) :
  (forall m, (n <= m)%nat -> Q m a) -> sound n (ret a) Q.
Proof.
  intros HQ st r st' Hok Hn [= <- <-]. split; [exact Hok|]. split; [lia|].
  intros a' [= <-]. exact (HQ _ Hn).
Qed.

Lemma sound_throw {A} n e (Q : nat -> A -> Prop) : sound n (throw e) Q.
Proof.
  intros st r st' Hok Hn [= <- <-]. split; [exact Hok|]. split; [lia|]. discriminate.
Qed.

Lemma sound_lift {A} n (o : Outcome A) (Q : nat -> A -> Prop) :
  (forall a, o = Ok a -> forall m, (n <= m)%nat -> Q m a) -> sound n (lift o) Q.
Proof.
  intros HQ st r st' Hok Hn [= <- <-]. split; [exact Hok|]. split; [lia|].
  intros a E. exact (HQ a E _ Hn).
Qed.

Lemma sound_bind {A B} n (c : M A) (k : A -> M B) Q1 (Q2 : nat -> B -> Prop) :
  sound n c Q1 ->
  (forall m a, (n <= m)%nat -> Q1 m a -> sound m (k a) Q2) ->
  sound n (bind c k) Q2.
Proof.
  intros Hc Hk st r st' Hok Hn. unfold bind.
  destruct (c st) as [r1 st1] eqn:E1.
  destruct (Hc st r1 st1 Hok Hn E1) as (Hok1 & Hlen1 & HQ1).
  destruct r1 as [a| | |];
    try (intros [= <- <-]; split; [exact Hok1|]; split; [lia|discriminate]).
  intros E2.
  destruct (Hk (length st1) a ltac:(lia) (HQ1 a eq_refl) st1 r st' Hok1 (le_n _) E2)
    as (Hok2 & Hlen2 & HQ2).
  split; [exact Hok2|]. split; [lia|exact HQ2].
Qed.

Lemma sound_weaken {A} n (c : M A) (Q Q' : nat -> A -> Prop) :
  sound n c Q -> (forall m a, Q m a -> Q' m a) -> sound n c Q'.
Proof.
  intros Hc HQ st r st' Hok Hn E. destruct (Hc st r st' Hok Hn E) as (H1 & H2 & H3).
  split; [exact H1|]. split; [exact H2|]. intros a Ha. exact (HQ _ _ (H3 a Ha)).
Qed.

Lemma sound_new n p :
  (p < n)%nat -> sound n (new_Environment (Some p)) (fun m a => (a < m)%nat).
Proof.
  intros Hp st r st' [Hwf Hval] Hn [= <- <-]. rewrite length_app. simpl.
  split; [|split; [lia|intros a [= <-]; lia]].
  split.
  - apply wf_store_new; [exact Hwf|]. intros a [= <-]. lia.
  - intros a frame k v Hf Hin. rewrite length_app. simpl.
    destruct (decide (a < length st)%nat) as [Hlt|Hge].
    + rewrite lookup_app_l in Hf by exact Hlt.
      apply (data_ok_mono (length st)); [lia|]. exact (Hval _ _ _ _ Hf Hin).
    + rewrite lookup_app_r in Hf by lia.
      destruct (a - length st)%nat; [|discriminate Hf].
      injection Hf as <-. destruct Hin.
Qed.

Lemma sound_define n this symbol value :
  data_ok n value ->
  sound n (Environment_define this symbol value) (fun _ _ => True).
Proof.
  intros Hv st r st' [Hwf Hval] Hn. unfold Environment_define.
  destruct symbol as [| |s| | | | | |];
    try (intros [= <- <-]; split; [split; assumption|]; split; [lia|intros; exact I]).
  destruct (st !! this) as [frame|] eqn:Ef;
    [|intros [= <- <-]; split; [split; assumption|]; split; [lia|intros; exact I]].
  intros [= <- <-]. rewrite length_insert.
  split; [|split; [lia|intros; exact I]].
  split; [exact (wf_store_define st this frame s value Hwf Ef)|].
  intros a frame' k v Hf Hin. rewrite length_insert.
  destruct (decide (a = this)) as [->|Hne].
  - rewrite list_lookup_insert_eq in Hf by (apply lookup_lt_Some in Ef; exact Ef).
    injection Hf as <-. cbn [vars] in Hin.
    destruct (map_set_In _ _ _ _ _ Hin) as [->|Hin'].
    + exact (data_ok_mono n _ _ Hn Hv).
    + exact (Hval _ _ _ _ Ef Hin').
  - rewrite list_lookup_insert_ne in Hf by congruence.
    exact (Hval _ _ _ _ Hf Hin).
Qed.

Lemma sound_lookup stk : forall n this symbol,
  sound n (Environment_lookup stk this symbol) data_ok.
Proof.
  induction stk as [|stk IH]; intros n this symbol; [apply sound_throw|].
  intros st r st' Hok Hn. rewrite Environment_lookup_S.
  destruct (st !! this) as [frame|] eqn:Ef;
    [|intros [= <- <-]; split; [exact Hok|]; split; [lia|discriminate]].
  destruct (map_get (vars frame) symbol) as [v|] eqn:Eg.
  - intros [= <- <-]. split; [exact Hok|]. split; [lia|]. intros a [= <-].
    destruct (map_get_In _ _ _ Eg) as [k Hin]. exact (proj2 Hok _ _ _ _ Ef Hin).
  - destruct (parent frame) as [p|];
      [exact (IH n p symbol st r st' Hok Hn)|].
    intros [= <- <-]. split; [exact Hok|]. split; [lia|discriminate].
Qed.

Lemma sound_bind_params newEnv params : forall n paramList,
  Forall (data_ok n) params ->
  sound n (bind_params newEnv params paramList) (fun _ _ => True).
Proof.
  induction params as [|param rest IH]; intros n paramList Hall; simpl.
  - apply sound_ret. intros; exact I.
  - inversion Hall as [|? ? Hp Hrest]; subst.
    eapply sound_bind; [apply (sound_lift n _ (fun _ _ => True)); intros; exact I|].
    intros m1 key Hm1 _.
    eapply sound_bind; [apply sound_define; exact (data_ok_mono n m1 _ Hm1 Hp)|].
    intros m2 _ Hm2 _.
    eapply sound_bind; [apply (sound_lift m2 _ (fun _ _ => True)); intros; exact I|].
    intros m3 next Hm3 _. apply IH.
    refine (Forall_impl _ _ _ Hrest _). intros v. apply data_ok_mono. lia.
Qed.

Lemma sound_car n (v : Value) : data_ok n v -> sound n (lift (get_car v)) data_ok.
Proof.
  intros Hv. apply sound_lift. intros a Ha m Hm.
  exact (data_ok_mono n m a Hm (data_ok_get_car n v a Hv Ha)).
Qed.

Lemma sound_cdr n (v : Value) : data_ok n v -> sound n (lift (get_cdr v)) data_ok.
Proof.
  intros Hv. apply sound_lift. intros a Ha m Hm.
  exact (data_ok_mono n m a Hm (data_ok_get_cdr n v a Hv Ha)).
Qed.

Section SoundLoops.
Variable ev : Value -> addr -> M Value.
Hypothesis ev_sound : forall n e env,
  data_ok n e -> (env < n)%nat -> sound n (ev e env) data_ok.

Lemma sound_begin_loop env (expressions : Value) : forall n result,
  data_ok n expressions -> (env < n)%nat -> data_ok n result ->
  sound n (begin_loop ev env expressions result) result_ok.
Proof.
  induction expressions as [| | | | |car _ cdr IH| | |]; intros n result He Henv Hr;
    try (apply sound_ret; intros m Hm; apply data_ok_result;
         exact (data_ok_mono n m _ Hm Hr)).
  destruct He as [Hcar Hcdr].
  assert (Hnext : sound n (let* result := ev car env in begin_loop ev env cdr result)
                    result_ok).
  { eapply sound_bind; [exact (ev_sound n car env Hcar Henv)|].
    intros m a Hm Ha. apply IH; [exact (data_ok_mono n m _ Hm Hcdr)|lia|exact Ha]. }
  destruct cdr; try exact Hnext.
  apply sound_ret. intros m Hm. cbn.
  split; [split; [exact (data_ok_mono n m _ Hm Hcar)|exact I]|lia].
Qed.

Lemma sound_args_loop env (argList : Value) : forall n evaluatedArgs,
  data_ok n argList -> (env < n)%nat -> Forall (data_ok n) evaluatedArgs ->
  sound n (args_loop ev env argList evaluatedArgs) (fun m l => Forall (data_ok m) l).
Proof.
  induction argList as [| | | | |car _ cdr IH| | |]; intros n acc He Henv Hacc;
    try (apply sound_ret; intros m Hm;
         refine (Forall_impl _ _ _ Hacc _); intros v; apply data_ok_mono; exact Hm).
  destruct He as [Hcar Hcdr]. simpl.
  eapply sound_bind; [exact (ev_sound n car env Hcar Henv)|].
  intros m a Hm Ha. apply IH; [exact (data_ok_mono n m _ Hm Hcdr)|lia|].
  apply Forall_app. split; [|constructor; [exact Ha|constructor]].
  refine (Forall_impl _ _ _ Hacc _). intros v. apply data_ok_mono. exact Hm.
Qed.
End SoundLoops.

Lemma sound_trampoline_loop (cf : ThunkFunc -> M Value) :
  (forall n f, thunk_ok n f -> sound n (cf f) result_ok) ->
  forall gas n result, result_ok n result ->
    sound n (trampoline_loop cf gas result) data_ok.
Proof.
  intros Hcf. induction gas as [|gas IH]; intros n result Hr.
  - destruct result; try (apply sound_ret; intros m Hm;
      exact (data_ok_mono n m _ Hm (result_ok_value n _ Hr eq_refl))).
    apply sound_lift. discriminate.
  - destruct result; try (apply sound_ret; intros m Hm;
      exact (data_ok_mono n m _ Hm (result_ok_value n _ Hr eq_refl))).
    simpl. eapply sound_bind; [exact (Hcf n func Hr)|].
    intros m a _ Ha. exact (IH m a Ha).
Qed.

Lemma sound_evaluator stk gas :
  (forall n expr env, data_ok n expr -> (env < n)%nat ->
     sound n (evaluate stk gas expr env) data_ok) /\
  (forall n expr env, data_ok n expr -> (env < n)%nat ->
     sound n (evaluateWithTailCall stk gas expr env) result_ok) /\
  (forall n result, result_ok n result -> sound n (trampoline stk gas result) data_ok) /\
  (forall n func, thunk_ok n func -> sound n (call_func stk gas func) result_ok) /\
  (forall n proc params, data_ok n proc -> Forall (data_ok n) params ->
     sound n (call_proc stk gas proc params) result_ok).
Proof.
  induction stk as [|stk (IHe & IHt & IHtr & IHf & IHp)].
  { split; [|split; [|split; [|split]]]; intros; apply sound_throw. }
  split; [|split; [|split; [|split]]].
  - intros n expr env He Henv. rewrite evaluate_S.
    eapply sound_bind; [exact (IHt n expr env He Henv)|].
    intros m a _ Ha. exact (IHtr m a Ha).
  - intros n expr env He Henv. simpl.
    destruct expr as [x|b|s| | |op args|p|cargs cenv|func];
      try (apply sound_ret; intros m Hm; apply data_ok_result;
           exact (data_ok_mono n m _ Hm He)).
    + eapply sound_weaken; [apply sound_lookup|]. intros m a. apply data_ok_result.
    + destruct He as [Hop Hargs].
      destruct (case_label op "quote").
      { eapply sound_weaken; [exact (sound_car n args Hargs)|].
        intros m a. apply data_ok_result. }
      destruct (case_label op "if").
      { apply sound_ret. intros m Hm. cbn.
        split; [exact (data_ok_mono n m _ Hm Hargs)|lia]. }
      destruct (case_label op "lambda").
      { apply sound_ret. intros m Hm. cbn.
        split; [exact (data_ok_mono n m _ Hm Hargs)|lia]. }
      destruct (case_label op "define").
      { eapply sound_bind; [exact (sound_car n args Hargs)|]. intros m1 symbol Hm1 _.
        eapply sound_bind; [exact (sound_cdr m1 args (data_ok_mono n m1 _ Hm1 Hargs))|].
        intros m2 rest Hm2 Hrest.
        eapply sound_bind; [exact (sound_car m2 rest Hrest)|]. intros m3 e Hm3 He.
        eapply sound_bind; [exact (IHe m3 e env He ltac:(lia))|]. intros m4 value Hm4 Hv.
        eapply sound_bind; [exact (sound_define m4 env symbol value Hv)|].
        intros m5 _ Hm5 _. apply sound_ret. intros; exact I. }
      destruct (case_label op "begin").
      { apply (sound_begin_loop _ IHe); [exact Hargs|exact Henv|exact I]. }
      eapply sound_bind; [exact (IHe n op env Hop Henv)|]. intros m1 proc Hm1 Hproc.
      eapply sound_bind.
      { apply (sound_args_loop _ IHe);
          [exact (data_ok_mono n m1 _ Hm1 Hargs)|lia|constructor]. }
      intros m2 evaluatedArgs Hm2 Hall.
      destruct (is_function proc); [|apply sound_throw].
      apply sound_ret. intros m Hm. cbn. split.
      * apply (data_ok_mono m1); [lia|exact Hproc].
      * refine (Forall_impl _ _ _ Hall _). intros v. apply data_ok_mono. exact Hm.
  - intros n result Hr. rewrite trampoline_S.
    exact (sound_trampoline_loop _ IHf gas n result Hr).
  - intros n func Hf. simpl. destruct func as [args env|expressions env|proc params].
    + destruct Hf as [Hargs Henv].
      eapply sound_bind; [exact (sound_car n args Hargs)|]. intros m1 c Hm1 Hc.
      eapply sound_bind; [exact (IHe m1 c env Hc ltac:(lia))|].
      intros m2 condition Hm2 _.
      eapply sound_bind.
      { exact (sound_cdr m2 args (data_ok_mono n m2 _ ltac:(lia) Hargs)). }
      intros m3 rest Hm3 Hrest.
      eapply (sound_bind m3 _ _ data_ok).
      { destruct (truthy condition); [exact (sound_car m3 rest Hrest)|].
        eapply sound_bind; [exact (sound_cdr m3 rest Hrest)|].
        intros m4 rest' Hm4 Hrest'. exact (sound_car m4 rest' Hrest'). }
      intros m5 e Hm5 He. exact (IHt m5 e env He ltac:(lia)).
    + destruct Hf as [Hexprs Henv].
      eapply sound_bind; [exact (sound_car n expressions Hexprs)|].
      intros m e Hm He. exact (IHt m e env He ltac:(lia)).
    + destruct Hf as [Hproc Hparams]. exact (IHp n proc params Hproc Hparams).
  - intros n proc params Hproc Hparams. simpl.
    destruct proc as [x|b|s| | |a d|p|args env|func]; try apply sound_throw.
    + apply sound_lift. intros a Ha m _. apply data_ok_result.
      exact (data_ok_apply_primitive p params a Ha m).
    + destruct Hproc as [Hargs Henv].
      eapply sound_bind; [exact (sound_new n env Henv)|]. intros m1 newEnv Hm1 Hnew.
      cbv beta in Hnew.
      eapply sound_bind; [exact (sound_car m1 args (data_ok_mono n m1 _ Hm1 Hargs))|].
      intros m2 paramList Hm2 _.
      eapply sound_bind.
      { apply sound_bind_params. refine (Forall_impl _ _ _ Hparams _).
        intros v. apply data_ok_mono. lia. }
      intros m3 _ Hm3 _.
      eapply sound_bind; [exact (sound_cdr m3 args (data_ok_mono n m3 _ ltac:(lia) Hargs))|].
      intros m4 rest Hm4 Hrest.
      eapply sound_bind; [exact (sound_car m4 rest Hrest)|].
      intros m5 body Hm5 Hbody. exact (IHt m5 body newEnv Hbody ltac:(lia)).
Qed.

Lemma datum_data_ok (n : nat) (v : Value) : datum v = true -> data_ok n v.
Proof.
  induction v as [x|b|s| | |a IHa d IHd|p|args _ env|func]; cbn [datum data_ok];
    try discriminate; try (intros; exact I).
  intros H. apply andb_prop in H as [H _]. apply andb_prop in H as [Ha Hd].
  split; [exact (IHa Ha)|exact (IHd Hd)].
Qed.

Lemma store_ok_globalStore : store_ok globalStore /\ (0 < length globalStore)%nat.
Proof.
  split; [|simpl; lia]. split.
  - intros a frame p Hf Hp. destruct a as [|a]; [|discriminate Hf].
    injection Hf as <-. discriminate Hp.
  - intros a frame k v Hf Hin. destruct a as [|a]; [|discriminate Hf].
    injection Hf as <-. cbn in Hin.
    repeat (destruct Hin as [[= <- <-]|Hin]; [exact I|]). destruct Hin.
Qed.

Lemma repl_turn_sound stk gas input st :
  store_ok st -> (0 < length st)%nat ->
  store_ok (snd (repl_turn stk gas input st)) /\
  (0 < length (snd (repl_turn stk gas input st)))%nat.
Proof.
  intros Hok Hlen. unfold repl_turn.
  destruct (parse input) as [parsed| | |] eqn:Ep; try (split; assumption).
  destruct (evaluate stk gas parsed globalEnv st) as [r st'] eqn:Ee.
  destruct (proj1 (sound_evaluator stk gas) (length st) parsed globalEnv
              (datum_data_ok _ _ (parse_tokens_datum _ _ (tokenize_token_shape_aux _) Ep)) Hlen st r st' Hok (le_n _) Ee)
    as (Hok' & Hlen' & _).
  destruct r; simpl; split; try exact Hok'; lia.
Qed.

(** X7 (evaluate, evaluateWithTailCall, the closure of lambda, repl): the
    store stays well formed. Started in a store where every environment is
    younger than its parent and every value bound holds no thunk and only
    closures over existing environments, on an expression of that kind,
    [evaluate] leaves such a store, however it ends, with every environment
    it started with, and returns such a value. The store [repl] starts
    with is one, every text that is read is such an expression, and so the
    store is one after any number of turns of the loop. *)
Theorem evaluation_keeps_the_store_well_formed :
  (forall stk gas expr env st r st',
     store_ok st -> data_ok (length st) expr -> (env < length st)%nat ->
     evaluate stk gas expr env st = (r, st') ->
     store_ok st' /\ (length st <= length st')%nat /\
     forall v, r = Ok v -> data_ok (length st') v) /\
  (forall stk gas inputs, store_ok (repl_turns stk gas inputs globalStore)).
Proof.
  split.
  - intros stk gas expr env st r st' Hok He Henv E.
    exact (proj1 (sound_evaluator stk gas) (length st) expr env He Henv
             st r st' Hok (le_n _) E).
  - intros stk gas inputs.
    destruct store_ok_globalStore as [Hok Hlen]. revert Hok Hlen.
    generalize globalStore as st.
    induction inputs as [|input rest IH]; intros st Hok Hlen; [exact Hok|].
    destruct (repl_turn_sound stk gas input st Hok Hlen) as [Hok' Hlen'].
    exact (IH _ Hok' Hlen').
Qed.

(** ** Environments: what a lookup finds *)

Lemma ancestor_inv st env frame p b :
  st !! env = Some frame -> parent frame = Some p -> ancestor st env b ->
  b = p \/ ancestor st p b.
Proof.
  intros Hf Hp H. inversion H as [a f q Hf' Hp'|a f q c Hf' Hp' Hanc]; subst;
    rewrite Hf in Hf'; injection Hf' as <-; rewrite Hp in Hp'; injection Hp' as <-.
  - left. reflexivity.
  - right. exact Hanc.
Qed.

Lemma ancestor_none st env frame b :
  st !! env = Some frame -> parent frame = None -> ~ ancestor st env b.
Proof.
  intros Hf Hp H. inversion H as [a f q Hf' Hp'|a f q c Hf' Hp' Hanc]; subst;
    rewrite Hf in Hf'; injection Hf' as <-; congruence.
Qed.

Lemma lookup_chain st (W : wf_store st) symbol : forall stk env,
  (env < stk)%nat -> (env < length st)%nat ->
  match Environment_lookup stk env symbol st with
  | (Ok v, st') =>
      st' = st /\
      exists a frame,
        in_chain st env a /\ st !! a = Some frame /\
        map_get (vars frame) symbol = Some v /\
        forall b frame_b, in_chain st env b -> (a < b)%nat ->
          st !! b = Some frame_b -> map_get (vars frame_b) symbol = None
  | (Throw (UndefinedVariable s), st') =>
      st' = st /\ s = symbol /\
      forall a frame, in_chain st env a -> st !! a = Some frame ->
        map_get (vars frame) symbol = None
  | _ => False
  end.
Proof.
  induction stk as [|stk IH]; intros env Hstk Hlen; [lia|].
  rewrite Environment_lookup_S.
  destruct (lookup_lt_is_Some_2 st env Hlen) as [frame Hf]. rewrite Hf.
  destruct (map_get (vars frame) symbol) as [v|] eqn:Eg.
  - split; [reflexivity|]. exists env, frame.
    split; [left; reflexivity|]. split; [exact Hf|]. split; [exact Eg|].
    intros b frame_b [->|Hanc] Hlt; [lia|].
    pose proof (ancestor_lt st env b W Hanc). lia.
  - destruct (parent frame) as [p|] eqn:Ep.
    + pose proof (W env frame p Hf Ep) as Hp.
      specialize (IH p ltac:(lia) ltac:(lia)).
      destruct (Environment_lookup stk p symbol st) as [[v|[]| |] st'];
        try exact IH.
      * destruct IH as (-> & a & fa & Hin & Hfa & Hga & Hnear).
        split; [reflexivity|]. exists a, fa.
        split.
        { right. destruct Hin as [->|Hanc];
            [exact (ancestor_parent st env frame p Hf Ep)
            |exact (ancestor_step st env frame p a Hf Ep Hanc)]. }
        split; [exact Hfa|]. split; [exact Hga|].
        intros b frame_b [->|Hanc] Hlt Hfb.
        -- rewrite Hf in Hfb. injection Hfb as <-. exact Eg.
        -- apply (Hnear b frame_b); [|exact Hlt|exact Hfb].
           destruct (ancestor_inv st env frame p b Hf Ep Hanc) as [->|H];
             [left; reflexivity|right; exact H].
      * destruct IH as (-> & -> & Hnone).
        split; [reflexivity|]. split; [reflexivity|].
        intros a fa [->|Hanc] Hfa.
        -- rewrite Hf in Hfa. injection Hfa as <-. exact Eg.
        -- apply (Hnone a fa); [|exact Hfa].
           destruct (ancestor_inv st env frame p a Hf Ep Hanc) as [->|H];
             [left; reflexivity|right; exact H].
    + split; [reflexivity|]. split; [reflexivity|].
      intros a fa [->|Hanc] Hfa.
      * rewrite Hf in Hfa. injection Hfa as <-. exact Eg.
      * destruct (ancestor_none st env frame a Hf Ep Hanc).
Qed.

(** X8 (Environment.lookup): in a store where every environment is younger
    than its parent, a lookup from an existing environment, given a frame
    for each environment it may visit, leaves the store as it is and either
    returns the value that the nearest environment of the chain binding the
    symbol gives it, or throws 'Undefined variable' with that very symbol,
    which it does exactly when no environment of the chain binds it. *)
Theorem lookup_finds_the_nearest_binding
  (st : Store) (env : addr) (symbol : string) (stk : nat) :
  wf_store st -> (env < length st)%nat -> (env < stk)%nat ->
  snd (Environment_lookup stk env symbol st) = st /\
  (forall v, fst (Environment_lookup stk env symbol st) = Ok v <->
     exists a frame,
       in_chain st env a /\ st !! a = Some frame /\
       map_get (vars frame) symbol = Some v /\
       forall b frame_b, in_chain st env b -> (a < b)%nat ->
         st !! b = Some frame_b -> map_get (vars frame_b) symbol = None) /\
  (fst (Environment_lookup stk env symbol st) = Throw (UndefinedVariable symbol) <->
     forall a frame, in_chain st env a -> st !! a = Some frame ->
       map_get (vars frame) symbol = None) /\
  ((exists v, fst (Environment_lookup stk env symbol st) = Ok v) \/
   fst (Environment_lookup stk env symbol st) = Throw (UndefinedVariable symbol)).
Proof.
  intros W Hlen Hstk. pose proof (lookup_chain st W symbol stk env Hstk Hlen) as H.
  destruct (Environment_lookup stk env symbol st) as [[v|[]| |] st'];
    try contradiction; cbn [fst snd].
  - destruct H as (-> & a & fa & Hin & Hfa & Hga & Hnear).
    split; [reflexivity|]. split; [|split].
    + intros v'. split.
      * intros [= <-]. exists a, fa. auto.
      * intros (a' & fa' & Hin' & Hfa' & Hga' & Hnear'). f_equal.
        destruct (Nat.lt_trichotomy a a') as [Hlt|[->|Hgt]].
        -- rewrite (Hnear a' fa' Hin' Hlt Hfa') in Hga'. discriminate.
        -- congruence.
        -- rewrite (Hnear' a fa Hin Hgt Hfa) in Hga. discriminate.
    + split; [discriminate|]. intros Hnone.
      rewrite (Hnone a fa Hin Hfa) in Hga. discriminate.
    + left. exists v. reflexivity.
  - destruct H as (-> & -> & Hnone).
    split; [reflexivity|]. split; [|split].
    + intros v. split; [discriminate|].
      intros (a & fa & Hin & Hfa & Hga & _).
      rewrite (Hnone a fa Hin Hfa) in Hga. discriminate.
    + split; [intros _; exact Hnone|reflexivity].
    + right. reflexivity.
Qed.

Lemma lookup_finds_the_nearest_binding_witness :
  fst (Environment_lookup 3 2 "x" three_frames) = Ok (num 1) /\
  fst (Environment_lookup 3 2 "y" three_frames) = Ok (num 2) /\
  fst (Environment_lookup 3 1 "y" three_frames) = Throw (UndefinedVariable "y").
Proof.
  assert (W : wf_store three_frames).
  { intros a frame p Hf Hp.
    destruct a as [|[|[|a]]]; try discriminate Hf; injection Hf as <-;
      cbn in Hp; try discriminate Hp; injection Hp as <-; lia. }
  destruct (lookup_finds_the_nearest_binding three_frames 1 "y" 3 W
              ltac:(simpl; lia) ltac:(lia)) as (_ & _ & Hy & _).
  split; [reflexivity|]. split; [reflexivity|].
  apply Hy. intros a frame [->|Hanc] Hf.
  - injection Hf as <-. reflexivity.
  - destruct (ancestor_inv three_frames 1 _ 0%nat a eq_refl eq_refl Hanc) as [->|H].
    + injection Hf as <-. reflexivity.
    + destruct (ancestor_none three_frames 0 _ a eq_refl eq_refl H).
Defined.

(** ** Environments: bindings are never removed *)

Lemma map_get_keys m k : In k (map fst m) <-> exists v, map_get m k = Some v.
Proof.
  induction m as [|[k' v'] m IH]; simpl.
  - split; [intros []|intros [v H]; discriminate H].
  - destruct (String.eqb k' k) eqn:E.
    + apply String.eqb_eq in E. split; [intros _; exists v'; reflexivity|left; exact E].
    + apply String.eqb_neq in E. rewrite <- IH. split; [intros [H|H]|]; tauto.
Qed.

Lemma lookup_store_le st st' :
  store_le st st' ->
  forall stk a symbol v,
    Environment_lookup stk a symbol st = (Ok v, st) ->
    exists v', Environment_lookup stk a symbol st' = (Ok v', st').
Proof.
  intros Hle. induction stk as [|stk IH]; intros a symbol v; [discriminate|].
  rewrite !Environment_lookup_S.
  destruct (st !! a) as [frame|] eqn:Ef; [|discriminate].
  destruct (Hle a frame Ef) as (frame' & -> & Hparent & [more Hkeys]).
  destruct (map_get (vars frame) symbol) as [v0|] eqn:Eg.
  - intros _.
    assert (Hin : In symbol (keys frame')).
    { rewrite Hkeys. apply in_or_app. left. apply map_get_keys. eauto. }
    apply map_get_keys in Hin as [v' ->]. eauto.
  - destruct (map_get (vars frame') symbol) as [v'|]; [eauto|].
    rewrite Hparent. destruct (parent frame) as [p|]; [apply IH|discriminate].
Qed.

Lemma lookup_same_store stk : forall a symbol st r st',
  Environment_lookup stk a symbol st = (r, st') -> st' = st.
Proof.
  induction stk as [|stk IH]; intros a symbol st r st'; [intros [= _ <-]; reflexivity|].
  rewrite Environment_lookup_S.
  destruct (st !! a) as [frame|]; [|intros [= _ <-]; reflexivity].
  destruct (map_get (vars frame) symbol); [intros [= _ <-]; reflexivity|].
  destruct (parent frame); [apply IH|intros [= _ <-]; reflexivity].
Qed.

Lemma repl_turn_store_le stk gas input st :
  store_le st (snd (repl_turn stk gas input st)).
Proof.
  unfold repl_turn. destruct (parse input); try apply store_le_refl.
  pose proof (evaluate_store_le stk gas a globalEnv st) as H.
  destruct (evaluate stk gas a globalEnv st) as [[v| | |] st']; exact H.
Qed.

Lemma repl_turns_store_le stk gas inputs : forall st,
  store_le st (repl_turns stk gas inputs st).
Proof.
  induction inputs as [|input rest IH]; intros st; [apply store_le_refl|].
  exact (store_le_trans _ _ _ (repl_turn_store_le stk gas input st) (IH _)).
Qed.

(** X9 (evaluate, Environment.define, repl): nothing removes a binding.
    Whatever is evaluated and however the evaluation ends, a symbol that a
    lookup from some environment found before is found by the same lookup
    afterwards (its value may have changed), and so it is after any number
    of turns of the loop of [repl]. *)
Theorem bound_symbols_stay_bound :
  (forall stk gas expr env st stk' a symbol v,
     Environment_lookup stk' a symbol st = (Ok v, st) ->
     exists v',
       Environment_lookup stk' a symbol (snd (evaluate stk gas expr env st))
       = (Ok v', snd (evaluate stk gas expr env st))) /\
  (forall stk gas inputs st stk' a symbol v,
     Environment_lookup stk' a symbol st = (Ok v, st) ->
     exists v',
       Environment_lookup stk' a symbol (repl_turns stk gas inputs st)
       = (Ok v', repl_turns stk gas inputs st)).
Proof.
  split.
  - intros stk gas expr env st stk' a symbol v H.
    exact (lookup_store_le _ _ (evaluate_store_le stk gas expr env st) _ _ _ _ H).
  - intros stk gas inputs st stk' a symbol v H.
    exact (lookup_store_le _ _ (repl_turns_store_le stk gas inputs st) _ _ _ _ H).
Qed.

(** ** Environments: [define] is an assignment to one symbol *)

Lemma map_set_set m k v1 v2 : map_set (map_set m k v1) k v2 = map_set m k v2.
Proof.
  induction m as [|[k' v'] m IH]; simpl.
  - rewrite String.eqb_refl. reflexivity.
  - destruct (String.eqb k' k) eqn:E; simpl.
    + rewrite String.eqb_refl. reflexivity.
    + rewrite E, IH. reflexivity.
Qed.

Lemma map_set_bound_keys m k v :
  In k (map fst m) -> map fst (map_set m k v) = map fst m.
Proof.
  induction m as [|[k' v'] m IH]; simpl; [intros []|].
  destruct (String.eqb k' k) eqn:E; simpl.
  - apply String.eqb_eq in E. subst. reflexivity.
  - apply String.eqb_neq in E. intros [H|H]; [contradiction|]. rewrite (IH H). reflexivity.
Qed.

Lemma lookup_other_symbol st env frame s v stk : forall a symbol,
  st !! env = Some frame -> symbol <> s ->
  fst (Environment_lookup stk a symbol
         (<[env := mkEnvironment (map_set (vars frame) s v) (parent frame)]> st))
  = fst (Environment_lookup stk a symbol st).
Proof.
  induction stk as [|stk IH]; intros a symbol Hf Hne; [reflexivity|].
  rewrite !Environment_lookup_S.
  destruct (decide (a = env)) as [->|Ha].
  - rewrite list_lookup_insert_eq by (apply lookup_lt_Some in Hf; exact Hf).
    rewrite Hf. cbn [vars parent]. rewrite (map_get_set_ne _ _ _ _ Hne).
    destruct (map_get (vars frame) symbol); [reflexivity|].
    destruct (parent frame); [exact (IH _ _ Hf Hne)|reflexivity].
  - rewrite list_lookup_insert_ne by congruence.
    destruct (st !! a) as [fa|]; [|reflexivity].
    destruct (map_get (vars fa) symbol); [reflexivity|].
    destruct (parent fa); [exact (IH _ _ Hf Hne)|reflexivity].
Qed.

(** X10 (Environment.define): a definition is an assignment to one symbol
    of one environment. In an existing environment it succeeds and leaves
    the number of environments as it is; no lookup of another symbol, from
    whatever environment, changes its result; a symbol the environment bound
    already keeps its place among the keys and a new one goes to their end;
    and two definitions of the same symbol in a row leave the store that
    the second alone would leave. *)
Theorem define_assigns_one_symbol
  (st : Store) (env : addr) (frame : Environment) (s : string) (v : Value) :
  st !! env = Some frame ->
  exists frame' st',
    Environment_define env (Str s) v st = (Ok tt, st') /\
    st' !! env = Some frame' /\ length st' = length st /\
    parent frame' = parent frame /\
    (forall stk a symbol, symbol <> s ->
       fst (Environment_lookup stk a symbol st')
       = fst (Environment_lookup stk a symbol st)) /\
    (In s (keys frame) -> keys frame' = keys frame) /\
    (~ In s (keys frame) -> keys frame' = keys frame ++ [s]) /\
    (forall v0 st0, Environment_define env (Str s) v0 st = (Ok tt, st0) ->
       Environment_define env (Str s) v st0 = (Ok tt, st')).
Proof.
  intros Hf. pose proof (lookup_lt_Some _ _ _ Hf) as Hlt.
  exists (mkEnvironment (map_set (vars frame) s v) (parent frame)),
         (<[env := mkEnvironment (map_set (vars frame) s v) (parent frame)]> st).
  unfold Environment_define. rewrite Hf.
  split; [reflexivity|]. split; [apply list_lookup_insert_eq; exact Hlt|].
  split; [apply length_insert|]. split; [reflexivity|].
  split; [intros stk a symbol Hne; exact (lookup_other_symbol st env frame s v stk a symbol Hf Hne)|].
  split; [exact (map_set_bound_keys (vars frame) s v)|].
  split.
  - unfold keys. cbn [vars]. intros Hnot.
    induction (vars frame) as [|[k' v'] m IH]; [reflexivity|]. simpl in *.
    destruct (String.eqb k' s) eqn:E.
    + apply String.eqb_eq in E. tauto.
    + simpl. rewrite IH by tauto. reflexivity.
  - intros v0 st0 [= <-].
    rewrite list_lookup_insert_eq by exact Hlt. cbn [vars parent].
    rewrite map_set_set, list_insert_insert_eq. reflexivity.
Qed.

Lemma define_assigns_one_symbol_witness :
  exists st',
    Environment_define 0 (Str "x") (num 7) three_frames = (Ok tt, st') /\
    fst (Environment_lookup 3 2 "x" st') = Ok (num 7) /\
    fst (Environment_lookup 3 2 "y" st') = fst (Environment_lookup 3 2 "y" three_frames) /\
    fst (Environment_lookup 3 2 "+" st') = Ok (Primitive PAdd).
Proof.
  destruct (define_assigns_one_symbol three_frames 0 _ "x" (num 7) eq_refl)
    as (frame' & st' & Hd & _ & _ & _ & Hother & _).
  exists st'. split; [exact Hd|]. split.
  - injection Hd as <-. reflexivity.
  - split; [apply Hother; discriminate|].
    rewrite Hother by discriminate. reflexivity.
Defined.

(** ** Evaluator: forms *)

Lemma evaluate_value stk gas expr env st v st' :
  evaluate stk gas expr env st = (Ok v, st') -> is_thunk v = false.
Proof.
  destruct stk as [|stk]; [discriminate|].
  rewrite evaluate_S. intros H.
  apply bind_inv in H as (r & st1 & _ & H).
  destruct stk as [|stk]; [discriminate|].
  rewrite trampoline_S in H. eapply trampoline_loop_not_thunk. exact H.
Qed.

Lemma eval_seq_budget stk gas stk' gas' env es : forall st st1,
  eval_seq (evaluate stk gas) env es st = (Ok tt, st1) ->
  (stk <= stk')%nat -> (gas <= gas')%nat ->
  eval_seq (evaluate stk' gas') env es st = (Ok tt, st1).
Proof.
  induction es as [|e es IH]; intros st st1 H Ls Lg; [exact H|].
  simpl in *. unfold bind in *.
  destruct (evaluate stk gas e env st) as [[v| | |] st0] eqn:E; try discriminate.
  rewrite (evaluate_budget _ _ stk' gas' _ _ _ _ _ E (definite_Ok v) Ls Lg).
  exact (IH _ _ H Ls Lg).
Qed.

Lemma begin_loop_last ev env e : forall es st st1 result,
  eval_seq ev env es st = (Ok tt, st1) ->
  begin_loop ev env (arrayToLinkedList (es ++ [e])) result st
  = (Ok (Thunk (ThBegin (Cons e Null) env)), st1).
Proof.
  induction es as [|x es IH]; intros st st1 result H.
  - injection H as <-. reflexivity.
  - simpl in H. unfold bind in H.
    destruct (ev x env st) as [[v| | |] st0] eqn:E; try discriminate.
    destruct (arrayToLinkedList_app_cons es e []) as (car & cdr & L).
    change ((x :: es) ++ [e]) with (x :: (es ++ [e])).
    cbn [arrayToLinkedList begin_loop]. rewrite L. rewrite <- L.
    unfold bind. rewrite E. exact (IH st0 st1 v H).
Qed.

Lemma call_func_begin stk gas e rest env :
  call_func (S stk) gas (ThBegin (Cons e rest) env)
  = evaluateWithTailCall stk gas e env.
Proof. reflexivity. Qed.

Lemma trampoline_loop_S (f : ThunkFunc -> M Value) gas func :
  trampoline_loop f (S gas) (Thunk func)
  = (let* result := f func in trampoline_loop f gas result).
Proof. reflexivity. Qed.

(** X11 (evaluateWithTailCall, case 'begin'): a [begin] is its
    expressions one after the other. When the expressions but the last
    have been evaluated in turn, leaving the store [st1], and the last one
    ends there in whatever way within its budget, then the [begin] ends in
    that way and leaves the same store; the last expression is reached
    through a thunk, so that it costs one more turn of the trampoline and
    no frame that stays. A [begin] without expressions returns the
    undefined value. *)
Theorem begin_is_its_expressions_in_turn
  stk gas env (es : list Value) (e : Value) st st1 r st2 :
  eval_seq (evaluate stk gas) env es st = (Ok tt, st1) ->
  evaluate stk gas e env st1 = (r, st2) ->
  definite r ->
  evaluate (S (S stk)) (S gas) (begin_form (es ++ [e])) env st = (r, st2) /\
  evaluate (S (S stk)) (S gas) (begin_form []) env st = (Ok Undefined, st).
Proof.
  intros Hseq He Hr. split; [|reflexivity].
  destruct stk as [|k]; [injection He as <- _; discriminate Hr|].
  rewrite evaluate_S. unfold begin_form.
  change (evaluateWithTailCall (S (S k)) (S gas)
            (Cons (Str "begin") (arrayToLinkedList (es ++ [e]))) env)
    with (begin_loop (evaluate (S k) (S gas)) env
            (arrayToLinkedList (es ++ [e])) Undefined).
  unfold bind at 1.
  rewrite (begin_loop_last _ env e es st st1 Undefined
             (eval_seq_budget _ _ (S k) (S gas) _ _ _ _ Hseq (le_n _) ltac:(lia))).
  rewrite trampoline_S, trampoline_loop_S, call_func_begin.
  revert He. rewrite evaluate_S. intros He.
  refine (agrees_bind _ _ _ _ _ _ st1 r st2 He Hr).
  - exact (proj1 (proj2 (evaluate_agrees k k gas (S gas) (le_n _) ltac:(lia))) e env).
  - intros a. destruct k as [|k']; [apply agrees_throw_RangeError|].
    rewrite trampoline_S. apply trampoline_loop_agrees; [|lia].
    intros t.
    exact (proj1 (proj2 (proj2 (proj2
             (evaluate_agrees k' (S (S k')) gas (S gas) ltac:(lia) ltac:(lia))))) t).
Qed.

Lemma begin_is_its_expressions_in_turn_witness :
  evaluate 6 1 (begin_form ([define_form "a" (num 1); define_form "b" (num 2)] ++ [Str "a"]))
    globalEnv globalStore
  = (Ok (num 1), store_with_a_b).
Proof.
  refine (proj1 (begin_is_its_expressions_in_turn 4 0 globalEnv
            [define_form "a" (num 1); define_form "b" (num 2)] (Str "a")
            globalStore store_with_a_b (Ok (num 1)) store_with_a_b _ _ _));
    reflexivity.
Defined.

(** X12 (evaluateWithTailCall, case 'define'; Environment.lookup): what is
    defined can be referred to. When [e] evaluates to [v] in the
    environment [env], then [(define s e)] evaluated there returns the
    undefined value and leaves the store that [e] left with [s] bound to
    [v] in [env], and the symbol [s] evaluated there afterwards gives [v],
    whatever [s] was bound to before, in [env] or in an enclosing
    environment. *)
Theorem define_then_reference stk gas (s : string) (e : Value) env st v st1 frame :
  evaluate stk gas e env st = (Ok v, st1) ->
  st1 !! env = Some frame ->
  evaluate (S (S stk)) gas (define_form s e) env st
  = (Ok Undefined,
     <[env := mkEnvironment (map_set (vars frame) s v) (parent frame)]> st1) /\
  forall stk' gas',
    evaluate (S (S (S stk'))) gas' (Str s) env
      (<[env := mkEnvironment (map_set (vars frame) s v) (parent frame)]> st1)
    = (Ok v, <[env := mkEnvironment (map_set (vars frame) s v) (parent frame)]> st1).
Proof.
  intros He Hf. split.
  - rewrite evaluate_S.
    change (evaluateWithTailCall (S stk) gas (define_form s e) env)
      with (let* value := evaluate stk gas e env in
            let* _ := Environment_define env (Str s) value in ret Undefined).
    unfold bind at 1. unfold bind at 1. rewrite He.
    unfold bind, Environment_define. rewrite Hf. cbn [ret].
    apply trampoline_value. reflexivity.
  - intros stk' gas'. apply evaluate_symbol; [|exact (evaluate_value _ _ _ _ _ _ _ He)].
    rewrite Environment_lookup_S.
    rewrite list_lookup_insert_eq by (apply lookup_lt_Some in Hf; exact Hf).
    cbn [vars]. rewrite map_get_set_eq. reflexivity.
Qed.

Lemma define_then_reference_witness :
  exists st',
    evaluate 7 1 (define_form "x" (Cons (Str "+") (Cons (num 2) (Cons (num 3) Null))))
      globalEnv globalStore = (Ok Undefined, st') /\
    evaluate 3 0 (Str "x") globalEnv st' = (Ok (num 5), st').
Proof.
  eexists.
  refine (let H := define_then_reference 5 1 "x"
                     (Cons (Str "+") (Cons (num 2) (Cons (num 3) Null)))
                     globalEnv globalStore (num 5) globalStore _ _ _ in
          conj (proj1 H) (proj2 H 0%nat 0%nat)); reflexivity.
Defined.

Lemma special_form_false op :
  special_form op = false ->
  case_label op "quote" = false /\ case_label op "if" = false /\
  case_label op "lambda" = false /\ case_label op "define" = false /\
  case_label op "begin" = false.
Proof.
  unfold special_form. intros H.
  repeat (apply orb_false_elim in H as [H ?]). auto.
Qed.

(** X13 (evaluateWithTailCall, default case): the operator is looked at
    after the arguments. In an application whose operator is none of the
    five special symbols, the operator is evaluated first and then the
    arguments from left to right; when the operator gave a value that is
    not a function, the arguments are evaluated all the same, the first
    failure among them is the outcome, and only without one 'is not a
    function' is thrown, with the operator expression and in the store the
    arguments left. *)
Theorem operator_is_checked_after_the_arguments
  stk gas (op args : Value) env st f st1 r st2 :
  special_form op = false ->
  evaluate stk gas op env st = (Ok f, st1) ->
  is_function f = false ->
  args_loop (evaluate stk gas) env args [] st1 = (r, st2) ->
  evaluate (S (S stk)) gas (Cons op args) env st
  = (match r with
     | Ok _ => Throw (NotAFunction op)
     | Throw e => Throw e
     | OutOfGas => OutOfGas
     | Unmodelled => Unmodelled
     end, st2).
Proof.
  intros Hop Hf Hnot Hargs.
  destruct (special_form_false op Hop) as (H1 & H2 & H3 & H4 & H5).
  rewrite evaluate_S, (evaluateWithTailCall_application _ _ _ _ _ H1 H2 H3 H4 H5).
  unfold bind. rewrite Hf, Hargs.
  destruct r as [vs| | |]; try reflexivity.
  rewrite Hnot. reflexivity.
Qed.

Lemma operator_is_checked_after_the_arguments_witness :
  exists st',
    evaluate 7 1 (Cons (num 5) (Cons (define_form "x" (num 1)) Null)) globalEnv globalStore
    = (Throw (NotAFunction (num 5)), st') /\
    evaluate 3 0 (Str "x") globalEnv st' = (Ok (num 1), st') /\
    evaluate 7 1 (Cons (num 5) (Cons (Str "zz") Null)) globalEnv globalStore
    = (Throw (UndefinedVariable "zz"), globalStore).
Proof.
  eexists. split; [|split].
  - refine (operator_is_checked_after_the_arguments 5 1 (num 5)
              (Cons (define_form "x" (num 1)) Null) globalEnv globalStore (num 5)
              globalStore (Ok [Undefined]) _ eq_refl _ eq_refl _); reflexivity.
  - reflexivity.
  - refine (operator_is_checked_after_the_arguments 5 1 (num 5)
              (Cons (Str "zz") Null) globalEnv globalStore (num 5)
              globalStore (Throw (UndefinedVariable "zz")) _ eq_refl _ eq_refl _);
      reflexivity.
Defined.

(** ** Evaluator: the parameters of a closure *)

Lemma bind_params_names newEnv parent_ : forall names params m st,
  st !! newEnv = Some (mkEnvironment m parent_) ->
  bind_params newEnv params (param_list names) st
  = (if (length params <=? length names)%nat then Ok tt else Throw TypeError,
     <[newEnv := mkEnvironment (bind_all m names params) parent_]> st).
Proof.
  induction names as [|name names IH]; intros params m st Hf.
  - destruct params as [|param params]; simpl.
    + rewrite list_insert_id by exact Hf. reflexivity.
    + unfold bind_all. simpl. rewrite list_insert_id by exact Hf. reflexivity.
  - destruct params as [|param params].
    + simpl. rewrite list_insert_id by exact Hf. reflexivity.
    + change (param_list (name :: names)) with (Cons (Str name) (param_list names)).
      cbn [bind_params get_car get_cdr]. unfold bind at 1. cbn [lift].
      unfold bind at 1. unfold Environment_define at 1. rewrite Hf. cbn [vars parent].
      unfold bind at 1. cbn [lift].
      rewrite (IH params (map_set m name param) _).
      2:{ apply list_lookup_insert_eq. apply lookup_lt_Some in Hf. exact Hf. }
      rewrite list_insert_insert_eq. reflexivity.
Qed.

(** X14 (the closure of case 'lambda'): the number of arguments is not
    checked as such. A closure called with arguments creates an environment
    whose parent is the one the closure captured and binds its parameters
    to the arguments in order, as far as both go. With as many arguments
    as parameters or fewer the body is then evaluated in that environment,
    the parameters beyond the arguments having no binding there; with more
    arguments than parameters the call throws a TypeError after all
    parameters are bound and before the body is evaluated. *)
Theorem closure_binds_parameters_in_order
  stk gas (names : list string) (body : Value) (more : Value) env
  (params : list Value) (st : Store) :
  call_proc (S (S stk)) gas
    (Closure (Cons (param_list names) (Cons body more)) env) params st
  = if (length params <=? length names)%nat then
      evaluateWithTailCall (S stk) gas body (length st)
        (st ++ [mkEnvironment (bind_all [] names params) (Some env)])
    else
      (Throw TypeError, st ++ [mkEnvironment (bind_all [] names params) (Some env)]).
Proof.
  change (call_proc (S (S stk)) gas
            (Closure (Cons (param_list names) (Cons body more)) env) params st)
    with ((let* _ := bind_params (length st) params (param_list names) in
           evaluateWithTailCall (S stk) gas body (length st))
            (st ++ [mkEnvironment [] (Some env)])).
  unfold bind.
  rewrite (bind_params_names (length st) (Some env) names params [] _
             (lookup_last st _)).
  rewrite insert_last.
  destruct (length params <=? length names)%nat; reflexivity.
Qed.

(** ** Reader, evaluator and printer together: quoted data *)

Lemma words_word (w : string) : is_word w = true -> words w = [w].
Proof.
  intros H. destruct (is_word_inv w H) as (Hne & Hall & _).
  unfold words. rewrite (split_spaces_word w (word_no_space w Hall)).
  simpl. unfold nonempty. destruct (String.eqb w "") eqn:E; [|reflexivity].
  apply String.eqb_eq in E. contradiction.
Qed.

Lemma words_spaced_open (r : string) :
  words (spaced (String "(" r)) = "(" :: words (spaced r).
Proof.
  rewrite spaced_cons. cbn [Ascii.eqb Bool.eqb].
  change (" ( " +:+ spaced r) with (String " " ("(" +:+ String " " (spaced r))).
  rewrite (words_blank_cons " " _ eq_refl), (words_app_space "(" " " _ eq_refl).
  reflexivity.
Qed.

Lemma canonical_text_words (s : string) :
  canonical_text s -> tokenize s = words (spaced s).
Proof.
  intros H. rewrite tokenize_words.
  destruct H as [t Ht|body _].
  - unfold canonical_atom in Ht. apply andb_prop in Ht as [Ht _].
    apply andb_prop in Ht as [Hw _].
    destruct (is_word_inv t Hw) as (_ & Hall & _).
    rewrite (spaced_word t Hall), (words_word t Hw). reflexivity.
  - change ("(" +:+ body +:+ ")") with (String "(" (body +:+ ")")).
    rewrite words_spaced_open. reflexivity.
Qed.

Lemma datum_not_thunk (v : Value) : datum v = true -> is_thunk v = false.
Proof. destruct v; try reflexivity. discriminate. Qed.

Lemma evaluate_quote stk gas e rest env st :
  is_thunk e = false ->
  evaluate (S (S stk)) gas (Cons (Str "quote") (Cons e rest)) env st = (Ok e, st).
Proof.
  intros H. rewrite evaluate_S.
  change (evaluateWithTailCall (S stk) gas (Cons (Str "quote") (Cons e rest)) env)
    with (lift (A:=Value) (Ok e)).
  unfold bind, lift. exact (trampoline_value stk gas e st H).
Qed.

Lemma canonical_text_parse (s : string) (e : Value) (ts : list string) :
  text_reads_as s e ts -> parse s = Ok e.
Proof.
  intros (_ & Ht & _ & _ & HP). destruct (HP [] []) as (f & Hf).
  unfold parse. rewrite Ht. apply (parse_tokens_fuel ts f).
  rewrite app_nil_r in Hf. exact Hf.
Qed.

(** X15 (parse, evaluate, printExpr, repl): a quoted datum comes back as it
    was written. For a canonical text [s], a turn of the loop on
    [(quote s)] prints [s] and leaves the store as it is, in any store and
    with two frames or more; when [s] is a list, so does a turn on [s] with
    a quote mark before it. *)
Theorem quoted_text_is_printed_back (s : string) stk gas (st : Store) :
  canonical_text s ->
  repl_turn (S (S stk)) gas ("(quote " +:+ s +:+ ")") st = (Ok s, st) /\
  (forall r, s = String "(" r ->
     repl_turn (S (S stk)) gas ("'" +:+ s) st = (Ok s, st)).
Proof.
  intros Hs. destruct (proj1 canonical_reads s Hs) as (e & ts & Hread).
  pose proof (canonical_text_parse s e ts Hread) as Hparse.
  pose proof (datum_not_thunk e (parse_tokens_datum _ e (tokenize_token_shape_aux s) Hparse)) as Hv.
  assert (Hturn : forall input,
            parse input = Ok (quote_form e) ->
            repl_turn (S (S stk)) gas input st = (Ok s, st)).
  { intros input Hp. unfold repl_turn. rewrite Hp. unfold quote_form.
    rewrite (evaluate_quote stk gas e Null globalEnv st Hv).
    rewrite (proj1 Hread). reflexivity. }
  split.
  - apply Hturn.
    pose proof (canonical_list_reads _ _ _
                  (canonical_items_more_reads _ _ _ _ _ _
                     (canonical_atom_reads "quote" eq_refl)
                     (canonical_items_last_reads _ _ _ Hread))) as H.
    apply canonical_text_parse in H.
    rewrite !string_app_assoc in H. exact H.
  - intros r Hr. apply Hturn.
    destruct Hread as (_ & Ht & _ & _ & HP).
    assert (Htok : tokenize ("'" +:+ s) = "'" :: ts).
    { rewrite tokenize_words, spaced_app, <- Ht, (canonical_text_words s Hs).
      change (spaced "'") with "'".
      subst s. rewrite words_spaced_open, spaced_cons. cbn [Ascii.eqb Bool.eqb].
      change ("'" +:+ " ( " +:+ spaced r)
        with ("'" +:+ String " " ("(" +:+ String " " (spaced r))).
      rewrite (words_app_space "'" " " _ eq_refl), (words_app_space "(" " " _ eq_refl).
      reflexivity. }
    destruct (HP ["'"] []) as (f & Hf). rewrite app_nil_r in Hf.
    unfold parse. rewrite Htok. apply (parse_tokens_fuel _ (S f)).
    rewrite parseExpression_S. cbn [lookup list_lookup String.eqb Ascii.eqb Bool.eqb].
    change (parseExpression f (["'"] ++ ts) (length ["'"]))
      with (parseExpression f ("'" :: ts) 1) in Hf.
    rewrite Hf. reflexivity.
Qed.

Lemma quoted_text_is_printed_back_witness :
  repl_turn 2 0 "(quote (a (b 1.5) #t))" globalStore = (Ok "(a (b 1.5) #t)", globalStore) /\
  repl_turn 2 0 "'(a (b 1.5) #t)" globalStore = (Ok "(a (b 1.5) #t)", globalStore).
Proof.
  assert (H : canonical_text "(a (b 1.5) #t)").
  { apply (canonical_text_list "a (b 1.5) #t").
    apply (canonical_items_more "a" "(b 1.5) #t");
      [apply canonical_text_atom; reflexivity|].
    apply (canonical_items_more "(b 1.5)" "#t").
    - apply (canonical_text_list "b 1.5").
      apply (canonical_items_more "b" "1.5");
        [apply canonical_text_atom; reflexivity|].
      apply canonical_items_last, canonical_text_atom. reflexivity.
    - apply canonical_items_last, canonical_text_atom. reflexivity. }
  destruct (quoted_text_is_printed_back "(a (b 1.5) #t)" 0 0 globalStore H) as [H1 H2].
  split; [exact H1|exact (H2 _ eq_refl)].
Defined.

(** ** The evaluator without trampoline: a loop in tail position *)

Lemma direct_evaluate_application stk op args env :
  case_label op "quote" = false -> case_label op "if" = false ->
  case_label op "lambda" = false -> case_label op "define" = false ->
  Direct.evaluate (S stk) (Cons op args) env =
    (let* proc := Direct.evaluate stk op env in
     let* evaluatedArgs := args_loop (Direct.evaluate stk) env args [] in
     if is_function proc then
       match stk with
       | O => throw RangeError
       | S stk'' => Direct.call (Direct.evaluate stk'') proc evaluatedArgs
       end
     else throw TypeError).
Proof. intros H1 H2 H3 H4. simpl. rewrite H1, H2, H3, H4. reflexivity. Qed.

Lemma direct_evaluate_if stk args env :
  Direct.evaluate (S stk) (Cons (Str "if") args) env =
    (let* c := lift (get_car args) in
     let* condition := Direct.evaluate stk c env in
     let* rest := lift (get_cdr args) in
     let* e :=
       if truthy condition then lift (get_car rest)
       else let* rest' := lift (get_cdr rest) in lift (get_car rest') in
     Direct.evaluate stk e env).
Proof. reflexivity. Qed.

Lemma direct_evaluate_symbol stk s env :
  Direct.evaluate (S stk) (Str s) env = Environment_lookup stk env s.
Proof. reflexivity. Qed.

Lemma direct_call_loop (ev : Value -> addr -> M Value) x st :
  Direct.call ev loop_closure [Num x] st =
    ev (Cons (Str "if") loop_if_args) (length st)
      (st ++ [mkEnvironment [("n", Num x)] (Some globalEnv)]).
Proof.
  unfold Direct.call, loop_closure, loop_lambda_args.
  unfold bind, new_Environment, lift, ret. cbn [get_car get_cdr bind_params].
  unfold bind, Environment_define, lift, ret.
  rewrite lookup_last. cbn [vars parent map_set get_car get_cdr].
  rewrite insert_last. reflexivity.
Qed.

Section DirectLoop.
Variables (st : Store) (env : addr) (x : spec_float).
Hypothesis Hframe : loop_frame st env x.

Lemma direct_loop_n k :
  Direct.evaluate (S (S k)) (Str "n") env st = (Ok (Num x), st).
Proof.
  destruct Hframe as [Hn _].
  rewrite direct_evaluate_symbol, Environment_lookup_S, Hn. reflexivity.
Qed.

Lemma direct_loop_global s v k :
  String.eqb "n" s = false ->
  (forall G, st !! globalEnv = Some G -> map_get (vars G) s = Some v) ->
  Direct.evaluate (S (S (S k))) (Str s) env st = (Ok v, st).
Proof.
  intros Hs Hv. destruct Hframe as [Hn (G & HG & _)].
  rewrite direct_evaluate_symbol, Environment_lookup_S, Hn. cbn [vars map_get parent].
  rewrite Hs, Environment_lookup_S, HG, (Hv G HG). reflexivity.
Qed.

Lemma direct_loop_global_small s k :
  String.eqb "n" s = false -> (k <= 2)%nat ->
  Direct.evaluate k (Str s) env st = (Throw RangeError, st).
Proof.
  intros Hs Hk. destruct Hframe as [Hn _].
  destruct k as [|[|[|k]]]; try reflexivity; [|lia].
  rewrite direct_evaluate_symbol, Environment_lookup_S, Hn. cbn [vars map_get parent].
  rewrite Hs. reflexivity.
Qed.

(** A call of a primitive that the global environment binds to [s], on the
    variable [n] and a number: four frames are needed and suffice. *)
Lemma direct_loop_primitive s p y r k :
  String.eqb "n" s = false ->
  case_label (Str s) "quote" = false -> case_label (Str s) "if" = false ->
  case_label (Str s) "lambda" = false -> case_label (Str s) "define" = false ->
  (forall G, st !! globalEnv = Some G -> map_get (vars G) s = Some (Primitive p)) ->
  Direct.apply_primitive p [Num x; Num y] = Ok r ->
  Direct.evaluate k (Cons (Str s) (Cons (Str "n") (Cons (Num y) Null))) env st
  = (if (4 <=? k)%nat then Ok r else Throw RangeError, st).
Proof.
  intros Hs H1 H2 H3 H4 Hp Hr.
  destruct k as [|k]; [reflexivity|].
  rewrite (direct_evaluate_application k _ _ _ H1 H2 H3 H4).
  destruct (le_lt_dec k 2) as [Hk|Hk].
  - unfold bind at 1. rewrite (direct_loop_global_small s k Hs Hk).
    destruct k as [|[|[|k]]]; try reflexivity. lia.
  - destruct k as [|[|[|k]]]; try lia.
    unfold bind at 1. rewrite (direct_loop_global s _ k Hs Hp).
    cbn [args_loop]. unfold bind at 1. unfold bind at 1.
    rewrite (direct_loop_n (S k)). unfold bind at 1.
    change (Direct.evaluate (S (S (S k))) (Num y) env st) with (Ok (Num y), st).
    cbn [args_loop ret app is_function Direct.call lift]. rewrite Hr. reflexivity.
Qed.

Lemma direct_loop_test k :
  Direct.evaluate k loop_test env st
  = (if (4 <=? k)%nat then Ok (Bool (Float64.eqb x Float64.zero))
     else Throw RangeError, st).
Proof.
  destruct Hframe as [_ (G & HG & _ & Heq & _)].
  apply (direct_loop_primitive "=" PEq); try reflexivity.
  intros G' HG'. congruence.
Qed.

Lemma direct_loop_decrement k :
  Direct.evaluate k (Cons (Str "-") (Cons (Str "n") (Cons (num 1) Null))) env st
  = (if (4 <=? k)%nat then Ok (Num (Float64.sub x (Float64.of_Z 1)))
     else Throw RangeError, st).
Proof.
  destruct Hframe as [_ (G & HG & _ & _ & Hsub)].
  apply (direct_loop_primitive "-" PSub); try reflexivity.
  intros G' HG'. congruence.
Qed.

(** The recursive call [(loop (- n 1))]: five frames to evaluate the
    operator and the argument, of which two are still in use when the body
    of the closure is evaluated. *)
Lemma direct_loop_again k :
  Direct.evaluate k loop_again env st
  = if (5 <=? k)%nat then
      Direct.evaluate (k - 2) (Cons (Str "if") loop_if_args) (length st)
        (st ++ [mkEnvironment [("n", Num (Float64.sub x (Float64.of_Z 1)))]
                  (Some globalEnv)])
    else (Throw RangeError, st).
Proof.
  destruct k as [|k]; [reflexivity|].
  unfold loop_again. rewrite direct_evaluate_application by reflexivity.
  destruct (le_lt_dec k 2) as [Hk|Hk].
  - unfold bind at 1. rewrite (direct_loop_global_small "loop" k eq_refl Hk).
    destruct k as [|[|[|k]]]; try reflexivity. lia.
  - destruct k as [|[|[|k]]]; try lia.
    unfold bind at 1.
    rewrite (direct_loop_global "loop" loop_closure k eq_refl).
    2:{ destruct Hframe as [_ (G & HG & Hloop & _)]. intros G' HG'. congruence. }
    cbn [args_loop]. unfold bind at 1. unfold bind at 1.
    rewrite (direct_loop_decrement (S (S (S k)))).
    destruct k as [|k]; [reflexivity|].
    cbn [Nat.leb args_loop ret app is_function loop_closure].
    rewrite direct_call_loop.
    replace (S (S (S (S (S k)))) - 2)%nat with (S (S (S k))) by lia. reflexivity.
Qed.
End DirectLoop.

(** The body of [loop] in the environment of a call, [k] iterations from
    the end: [3 * k + 5] frames are needed and suffice. *)
Lemma direct_loop_body : forall (k : nat) x st env b,
  loop_frame st env x -> countdown x k = true ->
  fst (Direct.evaluate b (Cons (Str "if") loop_if_args) env st)
  = if (3 * k + 5 <=? b)%nat then Ok (num 0) else Throw RangeError.
Proof.
  induction k as [|k IH]; intros x st env b Hframe Hc;
    (destruct b as [|c]; [rewrite (proj2 (Nat.leb_gt _ _)) by lia; reflexivity|]);
    rewrite direct_evaluate_if; unfold loop_if_args at 1;
    cbn [get_car get_cdr]; unfold bind at 1, lift at 1;
    unfold bind at 1; rewrite (direct_loop_test st env x Hframe c);
    (destruct (le_lt_dec 4 c) as [H4|H4];
     [rewrite (proj2 (Nat.leb_le 4 c) H4)
     |rewrite (proj2 (Nat.leb_gt 4 c) H4);
      rewrite (proj2 (Nat.leb_gt _ (S c))) by lia; reflexivity]).
  - cbn [countdown] in Hc. rewrite Hc. cbn [truthy].
    unfold bind, lift, loop_if_args. cbn [get_car get_cdr].
    rewrite (proj2 (Nat.leb_le _ (S c))) by lia.
    destruct c; [lia|reflexivity].
  - cbn [countdown] in Hc. apply andb_prop in Hc as [Hx Hc].
    apply negb_true_iff in Hx. rewrite Hx. cbn [truthy].
    unfold bind, lift, loop_if_args. cbn [get_car get_cdr].
    rewrite (direct_loop_again st env x Hframe c).
    destruct (le_lt_dec 5 c) as [H5|H5].
    + rewrite (proj2 (Nat.leb_le 5 c) H5).
      rewrite (IH _ _ (length st) (c - 2)%nat
                 (conj (lookup_last st _) (loop_globals_app st _ (proj2 Hframe))) Hc).
      destruct (le_lt_dec (3 * k + 5) (c - 2)) as [H|H].
      * rewrite (proj2 (Nat.leb_le _ _) H), (proj2 (Nat.leb_le _ (S c))) by lia.
        reflexivity.
      * rewrite (proj2 (Nat.leb_gt _ _) H), (proj2 (Nat.leb_gt _ (S c))) by lia.
        reflexivity.
    + rewrite (proj2 (Nat.leb_gt 5 c) H5), (proj2 (Nat.leb_gt _ (S c))) by lia.
      reflexivity.
Qed.

Lemma direct_loop_call (k : nat) x st stk :
  loop_globals st -> countdown x k = true ->
  fst (Direct.evaluate stk (loop_call x) globalEnv st)
  = if (3 * k + 7 <=? stk)%nat then Ok (num 0) else Throw RangeError.
Proof.
  intros Hst Hc. destruct Hst as (G & HG & Hloop & Hrest).
  destruct stk as [|[|[|a]]];
    try (rewrite (proj2 (Nat.leb_gt _ _)) by lia; reflexivity).
  unfold loop_call. rewrite direct_evaluate_application by reflexivity.
  unfold bind at 1.
  rewrite direct_evaluate_symbol, Environment_lookup_S, HG, Hloop.
  cbn [args_loop]. unfold bind at 1. unfold bind at 1.
  change (Direct.evaluate (S (S a)) (Num x) globalEnv st) with (Ok (Num x), st).
  cbn [args_loop ret app is_function loop_closure].
  rewrite direct_call_loop.
  rewrite (direct_loop_body k x _ (length st) (S a)
             (conj (lookup_last st _)
                   (loop_globals_app st _ (ex_intro _ G (conj HG (conj Hloop Hrest))))) Hc).
  destruct (le_lt_dec (3 * k + 5) (S a)) as [H|H].
  - rewrite (proj2 (Nat.leb_le _ _) H), (proj2 (Nat.leb_le _ (S (S (S a))))) by lia.
    reflexivity.
  - rewrite (proj2 (Nat.leb_gt _ _) H), (proj2 (Nat.leb_gt _ (S (S (S a))))) by lia.
    reflexivity.
Qed.

(** X16 (evaluate of the version without trampoline): there a loop in
    tail position uses native stack in proportion to its count. The
    definition [(define loop (lambda (n) (if (= n 0) 0 (loop (- n 1)))))]
    is evaluated by that version as by the other one and leaves the same
    store; then [(loop n)] for a whole number [n] with [0 <= n < 2^53]
    returns 0 when [3 * n + 7] frames or more are left and overflows the
    stack when fewer are: each iteration keeps three more frames. *)
Theorem without_trampoline_the_loop_uses_stack (n : Z) (stk : nat) :
  0 <= n < 2 ^ 53 ->
  Direct.evaluate 5 loop_definition globalEnv globalStore = (Ok Undefined, loop_store) /\
  ((3 * Z.to_nat n + 7 <= stk)%nat ->
   fst (Direct.evaluate stk (loop_call (Float64.of_Z n)) globalEnv loop_store)
   = Ok (num 0)) /\
  ((stk < 3 * Z.to_nat n + 7)%nat ->
   fst (Direct.evaluate stk (loop_call (Float64.of_Z n)) globalEnv loop_store)
   = Throw RangeError).
Proof.
  intros Hn. split; [reflexivity|].
  assert (Hc : countdown (Float64.of_Z n) (Z.to_nat n) = true).
  { rewrite <- (Z2Nat.id n) at 1 by lia. apply countdown_of_nat. lia. }
  pose proof (direct_loop_call (Z.to_nat n) _ loop_store stk loop_store_globals Hc) as H.
  split; intros Hs; rewrite H.
  - rewrite (proj2 (Nat.leb_le _ _) Hs). reflexivity.
  - rewrite (proj2 (Nat.leb_gt _ _) Hs). reflexivity.
Qed.

Lemma without_trampoline_the_loop_uses_stack_witness :
  fst (Direct.evaluate 10 (loop_call (Float64.of_Z 1000000)) globalEnv loop_store)
  = Throw RangeError /\
  fst (Direct.evaluate (Z.to_nat 3000007) (loop_call (Float64.of_Z 1000000))
         globalEnv loop_store)
  = Ok (num 0).
Proof.
  split.
  - apply (without_trampoline_the_loop_uses_stack 1000000 10); lia.
  - apply (without_trampoline_the_loop_uses_stack 1000000 (Z.to_nat 3000007)); lia.
Defined.

(** ** Numbers: arithmetic on whole numbers *)

Lemma binary_round_aux_opp m e l :
  binary_round_aux Float64.prec Float64.emax true m e l
  = SFopp (binary_round_aux Float64.prec Float64.emax false m e l).
Proof.
  unfold binary_round_aux.
  destruct (shr_fexp Float64.prec Float64.emax m e l) as [mrs' e'].
  destruct (shr_fexp Float64.prec Float64.emax _ e' loc_Exact) as [mrs'' e''].
  destruct (shr_m mrs''); [reflexivity| |reflexivity].
  destruct (e'' <=? Float64.emax - Float64.prec); reflexivity.
Qed.

Lemma binary_round_opp m e :
  binary_round Float64.prec Float64.emax true m e
  = SFopp (binary_round Float64.prec Float64.emax false m e).
Proof.
  unfold binary_round. destruct (shl_align m e _) as [mz ez].
  apply binary_round_aux_opp.
Qed.

Lemma Zpos_shl m k : 0 <= k -> Zpos (shl m k) = Zpos m * 2 ^ k.
Proof.
  intros H. destruct k as [|q|q]; [simpl; lia| |lia].
  unfold shl. apply Zpos_iter_xO.
Qed.

(** A mantissa [m * 2^K] with the exponent [-K], for [m] of at most 53
    digits: rounding gives [m] itself, normalised. *)
Lemma binary_round_aux_shifted m K :
  Zpos (digits2_pos m) <= 53 -> 53 - Zpos (digits2_pos m) <= K ->
  binary_round_aux Float64.prec Float64.emax false (Zpos (shl m K)) (- K) loc_Exact
  = S754_finite false (shl m (53 - Zpos (digits2_pos m)))
      (Zpos (digits2_pos m) - 53).
Proof.
  intros D HK. set (d := Zpos (digits2_pos m)) in *.
  assert (D1 : 1 <= d) by (unfold d; lia).
  destruct (Z.eq_dec K (53 - d)) as [->|Hne].
  - replace (d - 53) with (- (53 - d)) by lia.
    apply binary_round_aux_53; [|lia].
    rewrite digits2_shl by lia. fold d. lia.
  - unfold binary_round_aux, shr_fexp. cbn [Zdigits2 shr_record_of_loc].
    rewrite digits2_shl by lia. fold d.
    replace (d + K + - K) with d by lia. rewrite fexp_small by lia.
    destruct (d - 53 - - K) as [|p|p] eqn:S; try lia.
    cbn [shr].
    assert (Ej : shl m K = Pos.iter xO (shl m (53 - d)) p).
    { change (Pos.iter xO (shl m (53 - d)) p) with (shl (shl m (53 - d)) (Zpos p)).
      rewrite shl_shl by lia. f_equal. lia. }
    rewrite Ej, shr_iter_exact.
    cbn [shr_m loc_of_shr_record round_nearest_even].
    replace (- K + Z.pos p) with (d - 53) by lia.
    cbn [Zdigits2].
    rewrite digits2_shl by lia. fold d.
    replace (fexp Float64.prec Float64.emax (d + (53 - d) + (d - 53)) - (d - 53)) with 0
      by (unfold fexp, emin, Float64.prec, Float64.emax; lia).
    cbn [shr shr_m].
    replace (d - 53 <=? Float64.emax - Float64.prec) with true; [reflexivity|].
    symmetry. apply Z.leb_le. unfold Float64.prec, Float64.emax. lia.
Qed.

Lemma binary_round_shifted m j :
  Zpos (digits2_pos m) <= 53 -> 0 <= j ->
  binary_round Float64.prec Float64.emax false (shl m j) (- j)
  = S754_finite false (shl m (53 - Zpos (digits2_pos m)))
      (Zpos (digits2_pos m) - 53).
Proof.
  intros D J. set (d := Zpos (digits2_pos m)) in *.
  assert (D1 : 1 <= d) by (unfold d; lia).
  unfold binary_round. rewrite digits2_shl by lia. fold d.
  replace (d + j + - j) with d by lia. rewrite fexp_small by lia.
  unfold shl_align. destruct (d - 53 - - j) as [|p|p] eqn:S.
  - apply binary_round_aux_shifted; fold d; lia.
  - apply binary_round_aux_shifted; fold d; lia.
  - assert (Ej : Pos.iter xO (shl m j) p = shl m (53 - d)).
    { change (Pos.iter xO (shl m j) p) with (shl (shl m j) (Zpos p)).
      rewrite shl_shl by lia. f_equal. lia. }
    rewrite Ej. replace (d - 53) with (- (53 - d)) by lia.
    rewrite (binary_round_aux_shifted m (53 - d)) by (fold d; lia).
    fold d. f_equal. lia.
Qed.

(** The value of a whole number, whatever its sign. *)
Lemma of_Z_neg m : Float64.of_Z (Zneg m) = SFopp (Float64.of_Z (Zpos m)).
Proof. apply binary_round_opp. Qed.

(** [N * 2^j] with the exponent [-j] is the whole number [N]. *)
Lemma binary_normalize_whole N j :
  Z.abs N < 2 ^ 53 -> 0 <= j ->
  binary_normalize Float64.prec Float64.emax (N * 2 ^ j) (- j) false = Float64.of_Z N.
Proof.
  intros HN J. destruct N as [|m|m]; [reflexivity| |].
  - rewrite <- (Zpos_shl m j J). cbn [binary_normalize].
    rewrite (binary_round_shifted m j) by (try apply digits2_bound; lia).
    symmetry. apply of_Z_pos. lia.
  - replace (Zneg m * 2 ^ j) with (Zneg (shl m j))
      by (rewrite <- !Pos2Z.opp_pos, (Zpos_shl m j J); lia).
    cbn [binary_normalize].
    rewrite binary_round_opp, (binary_round_shifted m j)
      by (try apply digits2_bound; lia).
    rewrite of_Z_neg, of_Z_pos by lia. reflexivity.
Qed.

Lemma of_Z_finite N :
  N <> 0 -> Z.abs N < 2 ^ 53 ->
  exists s m,
    N = cond_Zopp s (Zpos m) /\ Zpos (digits2_pos m) <= 53 /\
    Float64.of_Z N
    = S754_finite s (shl m (53 - Zpos (digits2_pos m))) (Zpos (digits2_pos m) - 53).
Proof.
  intros HN HB. destruct N as [|m|m]; [contradiction| |].
  - exists false, m. split; [reflexivity|].
    split; [apply digits2_bound; lia|apply of_Z_pos; lia].
  - exists true, m. split; [reflexivity|].
    split; [apply digits2_bound; lia|].
    rewrite of_Z_neg, of_Z_pos by lia. reflexivity.
Qed.

Lemma cond_Zopp_shl s m j :
  0 <= j -> cond_Zopp s (Zpos (shl m j)) = cond_Zopp s (Zpos m) * 2 ^ j.
Proof.
  intros J. destruct s; cbn [cond_Zopp]; rewrite (Zpos_shl m j J); lia.
Qed.

Lemma shl_align_whole m ez :
  Zpos (digits2_pos m) <= 53 -> ez <= Zpos (digits2_pos m) - 53 ->
  fst (shl_align (shl m (53 - Zpos (digits2_pos m))) (Zpos (digits2_pos m) - 53) ez)
  = shl m (- ez).
Proof.
  intros D E. set (d := Zpos (digits2_pos m)) in *.
  unfold shl_align. destruct (ez - (d - 53)) as [|p|p] eqn:S; cbn [fst]; try lia.
  - f_equal. lia.
  - change (Pos.iter xO (shl m (53 - d)) p) with (shl (shl m (53 - d)) (Zpos p)).
    rewrite shl_shl by lia. f_equal. lia.
Qed.

(** Sums and differences of whole numbers are exact. *)
Lemma add_sub_whole (a b : Z) :
  a <> 0 -> b <> 0 -> Z.abs a < 2 ^ 53 -> Z.abs b < 2 ^ 53 ->
  (Z.abs (a + b) < 2 ^ 53 ->
   Float64.add (Float64.of_Z a) (Float64.of_Z b) = Float64.of_Z (a + b)) /\
  (Z.abs (a - b) < 2 ^ 53 ->
   Float64.sub (Float64.of_Z a) (Float64.of_Z b) = Float64.of_Z (a - b)).
Proof.
  intros Ha0 Hb0 Ha Hb.
  destruct (of_Z_finite a Ha0 Ha) as (sa & ma & Ea & Da & ->).
  destruct (of_Z_finite b Hb0 Hb) as (sb & mb & Eb & Db & ->).
  set (da := Zpos (digits2_pos ma)) in *. set (db := Zpos (digits2_pos mb)) in *.
  assert (1 <= da) by (unfold da; lia). assert (1 <= db) by (unfold db; lia).
  unfold Float64.add, Float64.sub, SFadd, SFsub. cbv zeta.
  set (ez := IntDef.Z.min (da - 53) (db - 53)).
  assert (Hez : ez = Z.min (da - 53) (db - 53)) by reflexivity.
  unfold da, db.
  rewrite (shl_align_whole ma ez), (shl_align_whole mb ez) by (fold da db; lia).
  rewrite !cond_Zopp_shl, <- Ea, <- Eb by lia.
  rewrite <- Z.mul_add_distr_r, <- Z.mul_sub_distr_r.
  rewrite <- (Z.opp_involutive ez) at 2 4.
  split; intros Hr; apply binary_normalize_whole; lia.
Qed.

Lemma digits2_upper m : Zpos m < 2 ^ Zpos (digits2_pos m).
Proof.
  induction m as [m IH|m IH|]; simpl digits2_pos; [| |simpl; lia];
    rewrite Pos2Z.inj_succ, Z.pow_succ_r by lia; lia.
Qed.

(** Products of whole numbers are exact. *)
Lemma mul_whole (a b : Z) :
  a <> 0 -> b <> 0 -> Z.abs a < 2 ^ 53 -> Z.abs b < 2 ^ 53 ->
  Z.abs (a * b) < 2 ^ 53 ->
  Float64.mul (Float64.of_Z a) (Float64.of_Z b) = Float64.of_Z (a * b).
Proof.
  intros Ha0 Hb0 Ha Hb Hab.
  destruct (of_Z_finite a Ha0 Ha) as (sa & ma & Ea & Da & ->).
  destruct (of_Z_finite b Hb0 Hb) as (sb & mb & Eb & Db & ->).
  set (da := Zpos (digits2_pos ma)) in *. set (db := Zpos (digits2_pos mb)) in *.
  assert (1 <= da) by (unfold da; lia). assert (1 <= db) by (unfold db; lia).
  assert (Eab : a * b = cond_Zopp (xorb sa sb) (Zpos (ma * mb))).
  { subst a b. destruct sa, sb; cbn [cond_Zopp xorb]; lia. }
  assert (Hp : Zpos (ma * mb) < 2 ^ 53).
  { rewrite Eab in Hab. destruct (xorb sa sb); cbn [cond_Zopp] in Hab; lia. }
  pose proof (digits2_bound _ Hp) as Dp.
  set (dp := Zpos (digits2_pos (ma * mb))) in *.
  assert (Hdp : da + db - 2 < dp).
  { pose proof (digits2_lower ma) as La. pose proof (digits2_lower mb) as Lb.
    pose proof (digits2_upper (ma * mb)) as Up. fold da in La. fold db in Lb.
    fold dp in Up.
    apply (Z.pow_lt_mono_r_iff 2); [lia|unfold dp; lia|].
    replace (da + db - 2) with ((da - 1) + (db - 1)) by lia.
    rewrite Z.pow_add_r by lia.
    apply Z.le_lt_trans with (Zpos ma * Zpos mb); [|lia].
    apply Z.mul_le_mono_nonneg; try assumption; apply Z.pow_nonneg; lia. }
  assert (Em : (shl ma (53 - da) * shl mb (53 - db))%positive
               = shl (ma * mb) (106 - da - db)).
  { apply Pos2Z.inj. rewrite Pos2Z.inj_mul, !Zpos_shl by lia.
    replace (106 - da - db) with ((53 - da) + (53 - db)) by lia.
    rewrite Z.pow_add_r by lia. lia. }
  unfold Float64.mul, SFmul. rewrite Em, Eab.
  replace (da - 53 + (db - 53)) with (- (106 - da - db)) by lia.
  destruct (xorb sa sb); cbn [cond_Zopp].
  - rewrite binary_round_aux_opp, binary_round_aux_shifted by (fold dp; lia).
    change (- Zpos (ma * mb)) with (Zneg (ma * mb)).
    rewrite of_Z_neg, of_Z_pos by lia. reflexivity.
  - rewrite binary_round_aux_shifted by (fold dp; lia).
    rewrite of_Z_pos by lia. reflexivity.
Qed.

Lemma compare_whole_pos ma mb :
  Zpos (digits2_pos ma) <= 53 -> Zpos (digits2_pos mb) <= 53 ->
  match Zpos (digits2_pos ma) - 53 ?= Zpos (digits2_pos mb) - 53 with
  | Eq => Pos.compare_cont Eq (shl ma (53 - Zpos (digits2_pos ma)))
            (shl mb (53 - Zpos (digits2_pos mb)))
  | Lt => Lt
  | Gt => Gt
  end = (Zpos ma ?= Zpos mb).
Proof.
  intros Da Db.
  pose proof (digits2_lower ma) as La. pose proof (digits2_upper ma) as Ua.
  pose proof (digits2_lower mb) as Lb. pose proof (digits2_upper mb) as Ub.
  set (da := Zpos (digits2_pos ma)) in *. set (db := Zpos (digits2_pos mb)) in *.
  assert (1 <= da) by (unfold da; lia). assert (1 <= db) by (unfold db; lia).
  destruct (Z.compare_spec (da - 53) (db - 53)) as [E|L|G].
  - assert (da = db) as -> by lia.
    change (Pos.compare_cont Eq ?p ?q) with (Zpos p ?= Zpos q).
    rewrite !Zpos_shl by lia.
    assert (Hpow : 0 < 2 ^ (53 - db)) by (apply Z.pow_pos_nonneg; lia).
    destruct (Z.compare_spec (Zpos ma) (Zpos mb)) as [E'|L'|G'].
    + rewrite E'. apply Z.compare_refl.
    + apply Z.compare_lt_iff. apply Z.mul_lt_mono_pos_r; assumption.
    + apply Z.compare_gt_iff. apply Z.mul_lt_mono_pos_r; assumption.
  - symmetry. apply Z.compare_lt_iff.
    assert (2 ^ da <= 2 ^ (db - 1)) by (apply Z.pow_le_mono_r; lia). lia.
  - symmetry. apply Z.compare_gt_iff.
    assert (2 ^ db <= 2 ^ (da - 1)) by (apply Z.pow_le_mono_r; lia). lia.
Qed.

(** Whole numbers compare as their values do. *)
Lemma compare_whole (a b : Z) :
  Z.abs a < 2 ^ 53 -> Z.abs b < 2 ^ 53 ->
  SFcompare (Float64.of_Z a) (Float64.of_Z b) = Some (a ?= b).
Proof.
  intros Ha Hb.
  destruct (Z.eq_dec a 0) as [->|Ha0]; destruct (Z.eq_dec b 0) as [->|Hb0].
  - reflexivity.
  - destruct (of_Z_finite b Hb0 Hb) as (sb & mb & -> & _ & ->).
    destruct sb; reflexivity.
  - destruct (of_Z_finite a Ha0 Ha) as (sa & ma & -> & _ & ->).
    destruct sa; reflexivity.
  - destruct (of_Z_finite a Ha0 Ha) as (sa & ma & -> & Da & ->).
    destruct (of_Z_finite b Hb0 Hb) as (sb & mb & -> & Db & ->).
    destruct sa, sb; cbn [SFcompare cond_Zopp]; try reflexivity.
    + pose proof (compare_whole_pos ma mb Da Db) as H. f_equal.
      rewrite Z.compare_opp, (Z.compare_antisym (Zpos ma) (Zpos mb)), <- H.
      destruct (_ ?= _); reflexivity.
    + f_equal. exact (compare_whole_pos ma mb Da Db).
Qed.

(** X17 (the arrow functions that repl defines): arithmetic and comparison
    of whole numbers are exact. For whole numbers [a] and [b] of magnitude
    below [2^53], [+], [-] and [*] return the whole number that is the sum,
    the difference or the product whenever that is of magnitude below
    [2^53] too (for [*], unless a factor is 0 and the other negative, which
    gives the negative zero), and [=], [<] and [>] return the boolean that
    the comparison of [a] and [b] as numbers gives. *)
Theorem whole_number_arithmetic_is_exact (a b : Z) :
  Z.abs a < 2 ^ 53 -> Z.abs b < 2 ^ 53 ->
  (Z.abs (a + b) < 2 ^ 53 ->
   apply_primitive PAdd [num a; num b] = Ok (num (a + b))) /\
  (Z.abs (a - b) < 2 ^ 53 ->
   apply_primitive PSub [num a; num b] = Ok (num (a - b))) /\
  (Z.abs (a * b) < 2 ^ 53 -> a * b <> 0 \/ (0 <= a /\ 0 <= b) ->
   apply_primitive PMul [num a; num b] = Ok (num (a * b))) /\
  apply_primitive PEq [num a; num b] = Ok (Bool (a =? b)) /\
  apply_primitive PLt [num a; num b] = Ok (Bool (a <? b)) /\
  apply_primitive PGt [num a; num b] = Ok (Bool (b <? a)).
Proof.
  intros Ha Hb.
  assert (Hzero : forall n, n <> 0 -> Z.abs n < 2 ^ 53 ->
            exists s m e, Float64.of_Z n = S754_finite s m e).
  { intros n Hn0 Hn. destruct (of_Z_finite n Hn0 Hn) as (s & m & _ & _ & ->). eauto. }
  unfold apply_primitive, num. cbn [nth js_add ToPrimitive ToNumber is_string orb].
  split; [|split; [|split; [|split; [|split]]]].
  - intros H. do 2 f_equal.
    destruct (Z.eq_dec a 0) as [->|Ha0]; destruct (Z.eq_dec b 0) as [->|Hb0].
    + reflexivity.
    + rewrite Z.add_0_l. destruct (Hzero b Hb0 Hb) as (s & m & e & ->). reflexivity.
    + rewrite Z.add_0_r. destruct (Hzero a Ha0 Ha) as (s & m & e & ->). reflexivity.
    + exact (proj1 (add_sub_whole a b Ha0 Hb0 Ha Hb) H).
  - intros H. do 2 f_equal.
    destruct (Z.eq_dec a 0) as [->|Ha0]; destruct (Z.eq_dec b 0) as [->|Hb0].
    + reflexivity.
    + destruct b as [|m|m]; [contradiction| |].
      * change (0 - Zpos m) with (Zneg m). rewrite of_Z_neg.
        destruct (Hzero (Zpos m) Hb0 Hb) as (s & m' & e & ->). reflexivity.
      * change (0 - Zneg m) with (Zpos m). rewrite of_Z_neg.
        destruct (Hzero (Zpos m) ltac:(lia) ltac:(lia)) as (s & m' & e & ->).
        destruct s; reflexivity.
    + rewrite Z.sub_0_r. destruct (Hzero a Ha0 Ha) as (s & m & e & ->). reflexivity.
    + exact (proj2 (add_sub_whole a b Ha0 Hb0 Ha Hb) H).
  - intros H Hsign. do 2 f_equal.
    destruct (Z.eq_dec a 0) as [->|Ha0]; destruct (Z.eq_dec b 0) as [->|Hb0].
    + reflexivity.
    + destruct b as [|m|m]; [contradiction| |lia].
      destruct (Hzero (Zpos m) Hb0 Hb) as (s & m' & e & E).
      rewrite of_Z_pos in E by lia. injection E as <- _ _.
      rewrite of_Z_pos by lia. reflexivity.
    + rewrite Z.mul_0_r. destruct a as [|m|m]; [contradiction| |lia].
      rewrite of_Z_pos by lia. reflexivity.
    + exact (mul_whole a b Ha0 Hb0 Ha Hb H).
  - cbn [js_strict_equal]. unfold Float64.eqb, SFeqb.
    rewrite (compare_whole a b Ha Hb), Z.eqb_compare.
    destruct (a ?= b); reflexivity.
  - unfold js_lt. cbn [ToPrimitive ToNumber]. unfold Float64.ltb, SFltb.
    rewrite (compare_whole a b Ha Hb). unfold Z.ltb.
    destruct (a ?= b); reflexivity.
  - unfold js_lt. cbn [ToPrimitive ToNumber]. unfold Float64.ltb, SFltb.
    rewrite (compare_whole b a Hb Ha). unfold Z.ltb.
    destruct (b ?= a); reflexivity.
Qed.

Lemma whole_number_arithmetic_is_exact_witness :
  apply_primitive PAdd [num 9007199254740990; num 1] = Ok (num 9007199254740991) /\
  apply_primitive PSub [num 3; num 5] = Ok (num (-2)) /\
  apply_primitive PMul [num (-94906265); num 94906265] = Ok (num (-9007199136250225)) /\
  apply_primitive PLt [num (-2); num 3] = Ok (Bool true).
Proof.
  destruct (whole_number_arithmetic_is_exact 9007199254740990 1 eq_refl eq_refl)
    as (H1 & _).
  destruct (whole_number_arithmetic_is_exact 3 5 eq_refl eq_refl) as (_ & H2 & _).
  destruct (whole_number_arithmetic_is_exact (-94906265) 94906265 eq_refl eq_refl)
    as (_ & _ & H3 & _).
  destruct (whole_number_arithmetic_is_exact (-2) 3 eq_refl eq_refl)
    as (_ & _ & _ & _ & H4 & _).
  split; [exact (H1 eq_refl)|]. split; [exact (H2 eq_refl)|].
  split; [|exact H4].
  apply (H3 eq_refl). left. discriminate.
Defined.

(** ** Numbers: numerals are read as the numbers they denote *)

Lemma scan_digits_uint_acc (d : Decimal.uint) : forall (a : positive) (len : Z),
  scan_digits (NilEmpty.string_of_uint d) (Zpos a) len
  = (Zpos (Pos.of_uint_acc d a), len + Z.of_nat (Decimal.nb_digits d), "").
Proof.
  induction d as [|d IH|d IH|d IH|d IH|d IH|d IH|d IH|d IH|d IH|d IH];
    intros a len;
    [cbn [NilEmpty.string_of_uint scan_digits Decimal.nb_digits Pos.of_uint_acc];
     do 2 f_equal; lia|..];
    cbn [NilEmpty.string_of_uint Decimal.nb_digits Pos.of_uint_acc];
    change (scan_digits (String ?c ?r) ?acc ?l)
      with (scan_digits r (10 * acc + digit_val c) (l + 1));
    match goal with
    | |- scan_digits _ ?v _ = (Zpos (Pos.of_uint_acc _ ?p), _, _) =>
        replace v with (Zpos p) by (unfold digit_val; simpl; lia)
    end;
    rewrite IH; do 2 f_equal; lia.
Qed.

Lemma scan_digits_uint (d : Decimal.uint) : forall (len : Z),
  scan_digits (NilEmpty.string_of_uint d) 0 len
  = (Z.of_N (Pos.of_uint d), len + Z.of_nat (Decimal.nb_digits d), "").
Proof.
  induction d as [|d IH|d IH|d IH|d IH|d IH|d IH|d IH|d IH|d IH|d IH]; intros len;
    [cbn [NilEmpty.string_of_uint scan_digits Decimal.nb_digits Pos.of_uint];
     do 2 f_equal; lia|..];
    cbn [NilEmpty.string_of_uint Decimal.nb_digits Pos.of_uint];
    change (scan_digits (String ?c ?r) ?acc ?l)
      with (scan_digits r (10 * acc + digit_val c) (l + 1));
    [change (10 * 0 + digit_val "0") with 0; rewrite IH; do 2 f_equal; lia|..];
    match goal with
    | |- scan_digits _ ?v _ = (Z.of_N (Npos (Pos.of_uint_acc _ ?p)), _, _) =>
        change v with (Zpos p)
    end;
    rewrite scan_digits_uint_acc; do 2 f_equal; lia.
Qed.

Lemma digits_uint (n : Z) :
  0 <= n ->
  exists d, d <> Decimal.Nil /\ Pos.of_uint d = Z.to_N n /\
    NumberToString.digits n = NilEmpty.string_of_uint d.
Proof.
  intros Hn. exists (N.to_uint (Z.to_N n)).
  assert (Hnil : N.to_uint (Z.to_N n) <> Decimal.Nil).
  { destruct (Z.to_N n); [discriminate|apply DecimalPos.Unsigned.to_uint_nonnil]. }
  split; [exact Hnil|]. split; [apply DecimalN.Unsigned.of_to|].
  unfold NumberToString.digits, NilZero.string_of_uint.
  destruct (N.to_uint (Z.to_N n)); [contradiction|reflexivity..].
Qed.

Lemma string_of_uint_first (d : Decimal.uint) :
  d <> Decimal.Nil ->
  exists c r, NilEmpty.string_of_uint d = String c r /\ is_digit c = true.
Proof. destruct d; [contradiction|intros _; eexists _, _; split; reflexivity..]. Qed.

Lemma is_digit_not (c : ascii) :
  is_digit c = true ->
  is_space c = false /\ Ascii.eqb c "-" = false /\ Ascii.eqb c "+" = false /\
  Ascii.eqb "I" c = false /\ Ascii.eqb c "#" = false /\ Ascii.eqb c "'" = false /\
  word_char c = true.
Proof.
  destruct c as [[] [] [] [] [] [] [] []]; intros H; try discriminate H;
    repeat split; reflexivity.
Qed.

Lemma scan_unsigned_digits (n : Z) :
  0 <= n ->
  scan_unsigned (NumberToString.digits n) = Some (Float64.of_Z n, "").
Proof.
  intros Hn. destruct (digits_uint n Hn) as (d & Hnil & Hval & ->).
  destruct (string_of_uint_first d Hnil) as (c & r & E & Hc).
  destruct (is_digit_not c Hc) as (_ & _ & _ & HI & _).
  unfold scan_unsigned.
  assert (P : after_prefix "Infinity" (NilEmpty.string_of_uint d) = None).
  { rewrite E. cbn [after_prefix]. rewrite HI. reflexivity. }
  rewrite P, (scan_digits_uint d 0), Hval, Z2N.id by exact Hn.
  assert (Hlen : (0 + Z.of_nat (Decimal.nb_digits d) + 0 =? 0) = false).
  { apply Z.eqb_neq. destruct d; [contradiction|cbn [Decimal.nb_digits]; lia..]. }
  rewrite Hlen. cbn [scan_exponent]. rewrite Z.sub_0_r.
  unfold Float64.of_decimal. destruct n as [|m|m]; [reflexivity| |lia].
  cbn [Z.pow]. rewrite Z.mul_1_r. reflexivity.
Qed.

Lemma parseAtom_first c (r : string) :
  is_space c = false -> Ascii.eqb c "#" = false ->
  parseAtom (String c r) =
    match scan_decimal (String c r) with
    | Some (x, _) => Num x
    | None => Str (String c r)
    end.
Proof.
  intros Hs Hh. rewrite parseAtom_cases. cbn [String.eqb]. rewrite Hh.
  cbn [orb trimStart]. rewrite Hs. reflexivity.
Qed.

Lemma scan_decimal_minus (r : string) :
  scan_decimal (String "-" r) =
    match scan_unsigned r with
    | Some (x, rest) => Some (SFopp x, rest)
    | None => None
    end.
Proof. reflexivity. Qed.

Lemma parseAtom_numeral (n : Z) : parseAtom (numeral n) = num n.
Proof.
  unfold numeral. destruct (Z.ltb_spec n 0) as [Hneg|Hpos].
  - change ("-" +:+ NumberToString.digits (- n))
      with (String "-" (NumberToString.digits (- n))).
    rewrite (parseAtom_first "-" _ eq_refl eq_refl), scan_decimal_minus.
    rewrite (scan_unsigned_digits (- n)) by lia.
    destruct n as [|m|m]; try lia. change (- Zneg m) with (Zpos m).
    unfold num. rewrite of_Z_neg. reflexivity.
  - destruct (digits_uint n Hpos) as (d & Hnil & _ & E).
    destruct (string_of_uint_first d Hnil) as (c & r & E' & Hc).
    destruct (is_digit_not c Hc) as (Hs & Hm & Hp & _ & Hh & _).
    pose proof (scan_unsigned_digits n Hpos) as Hscan.
    rewrite E, E' in *.
    rewrite (parseAtom_first c r Hs Hh).
    cbn [scan_decimal]. rewrite Hm, Hp, Hscan. reflexivity.
Qed.

(** ** Numbers: whole numbers are printed as their numerals *)

Lemma string_of_revapp (l : Decimal.uint) : forall acc,
  NilEmpty.string_of_uint (Decimal.revapp l acc)
  = NilEmpty.string_of_uint (Decimal.revapp l Decimal.Nil)
    +:+ NilEmpty.string_of_uint acc.
Proof.
  induction l as [|l IH|l IH|l IH|l IH|l IH|l IH|l IH|l IH|l IH|l IH]; intros acc;
    [reflexivity|..]; cbn [Decimal.revapp];
    rewrite (IH (_ acc)), (IH (_ Decimal.Nil)), string_app_assoc; reflexivity.
Qed.

Lemma digits_tenfold (p : positive) :
  NumberToString.digits (10 * Zpos p) = NumberToString.digits (Zpos p) +:+ "0".
Proof.
  unfold NumberToString.digits.
  change (Z.to_N (10 * Zpos p)) with (Npos (10 * p)).
  change (Z.to_N (Zpos p)) with (Npos p).
  cbn [N.to_uint]. unfold Pos.to_uint, Decimal.rev.
  pose proof (DecimalPos.Unsigned.to_ldec_tenfold p) as H.
  change (Pos.to_little_uint (10 * p) = Decimal.D0 (Pos.to_little_uint p)) in H.
  rewrite H. cbn [Decimal.revapp].
  pose proof (DecimalPos.Unsigned.to_uint_nonnil p) as Hp.
  pose proof (DecimalPos.Unsigned.to_uint_nonnil (10 * p)) as Hp'.
  unfold Pos.to_uint, Decimal.rev in Hp, Hp'. rewrite H in Hp'.
  cbn [Decimal.revapp] in Hp'.
  unfold NilZero.string_of_uint.
  destruct (Decimal.revapp (Pos.to_little_uint p) (Decimal.D0 Decimal.Nil)) eqn:E1;
    [contradiction|..];
    destruct (Decimal.revapp (Pos.to_little_uint p) Decimal.Nil) eqn:E2;
    try contradiction; rewrite <- E1, <- E2; apply string_of_revapp.
Qed.

Lemma zeros_snoc (z : nat) :
  NumberToString.zeros z +:+ "0" = String "0" (NumberToString.zeros z).
Proof.
  induction z as [|z IH]; [reflexivity|].
  cbn [NumberToString.zeros]. rewrite string_app_cons, IH. reflexivity.
Qed.

Lemma digits_shift (s : Z) (z : nat) :
  0 < s ->
  NumberToString.digits (s * 10 ^ Z.of_nat z)
  = NumberToString.digits s +:+ NumberToString.zeros z.
Proof.
  intros Hs. induction z as [|z IH].
  - rewrite Z.mul_1_r, string_app_nil_r. reflexivity.
  - rewrite Nat2Z.inj_succ, Z.pow_succ_r by lia.
    replace (s * (10 * 10 ^ Z.of_nat z)) with (10 * (s * 10 ^ Z.of_nat z)) by lia.
    assert (Hpos : 0 < s * 10 ^ Z.of_nat z).
    { apply Z.mul_pos_pos; [exact Hs|apply Z.pow_pos_nonneg; lia]. }
    destruct (s * 10 ^ Z.of_nat z) as [|p|p] eqn:E; try lia.
    rewrite digits_tenfold, IH, string_app_assoc.
    cbn [NumberToString.zeros]. rewrite zeros_snoc. reflexivity.
Qed.

Lemma eqb_whole (a b : Z) :
  Z.abs a < 2 ^ 53 -> Z.abs b < 2 ^ 53 ->
  SFeqb (Float64.of_Z a) (Float64.of_Z b) = (a =? b).
Proof.
  intros Ha Hb. unfold SFeqb. rewrite (compare_whole a b Ha Hb), Z.eqb_compare.
  destruct (a ?= b); reflexivity.
Qed.

Section WholeToString.
Variables (n de : Z).
Hypothesis Hn : 0 < n < 10 ^ 15.
Hypothesis Hde : 0 < de.

Lemma below_pow10_whole (k : Z) :
  NumberToString.below_pow10 (n * de) de k = (0 <=? k) && (n <? 10 ^ k).
Proof.
  unfold NumberToString.below_pow10. destruct k as [|q|q].
  - cbn [Z.leb Z.compare andb]. change (10 ^ 0) with 1.
    destruct (Z.ltb_spec (n * de) (de * 1)); destruct (Z.ltb_spec n 1);
      try reflexivity; nia.
  - cbn [Z.leb Z.compare andb].
    assert (0 < 10 ^ Zpos q) by (apply Z.pow_pos_nonneg; lia).
    destruct (Z.ltb_spec (n * de) (de * 10 ^ Zpos q));
      destruct (Z.ltb_spec n (10 ^ Zpos q)); try reflexivity; nia.
  - cbn [Z.leb Z.compare andb].
    assert (HX : 0 < 10 ^ Zpos q) by (apply Z.pow_pos_nonneg; lia).
    apply Z.ltb_ge. destruct Hn as [Hn1 _].
    generalize dependent (10 ^ Zpos q). intros X HX.
    assert (de <= n * de) by nia. assert (n * de * 1 <= n * de * X) by nia. lia.
Qed.

Variable n0 : Z.
Hypothesis Hn0 : 1 <= n0 <= 15.
Hypothesis Hlow : 10 ^ (n0 - 1) <= n.
Hypothesis Hhigh : n < 10 ^ n0.

Lemma magnitude_whole : forall (fuel : nat) (k : Z),
  k <= n0 -> n0 - k < Z.of_nat fuel ->
  NumberToString.magnitude fuel (n * de) de k = n0.
Proof.
  induction fuel as [|fuel IH]; intros k Hk Hf; [lia|].
  cbn [NumberToString.magnitude]. rewrite below_pow10_whole.
  destruct (Z.eq_dec k n0) as [->|Hne].
  - replace (0 <=? n0) with true by (symmetry; apply Z.leb_le; lia).
    replace (n <? 10 ^ n0) with true by (symmetry; apply Z.ltb_lt; lia).
    reflexivity.
  - assert (Hfalse : (0 <=? k) && (n <? 10 ^ k) = false).
    { destruct (Z.leb_spec 0 k); [|reflexivity]. cbn [andb]. apply Z.ltb_ge.
      apply Z.le_trans with (10 ^ (n0 - 1)); [|lia].
      apply Z.pow_le_mono_r; lia. }
    rewrite Hfalse. apply IH; lia.
Qed.

Lemma floor_scaled_whole (p : Z) :
  0 <= p -> NumberToString.floor_scaled (n * de) de p = n / 10 ^ p.
Proof.
  intros Hp. unfold NumberToString.floor_scaled.
  assert (0 < 10 ^ p) by (apply Z.pow_pos_nonneg; lia).
  destruct p as [|q|q]; try lia;
    rewrite (Z.mul_comm de); apply Z.div_mul_cancel_r; lia.
Qed.

Lemma shortest_whole (x : spec_float) (Hx : x = Float64.of_Z n) :
  forall (fuel : nat) (k : Z),
    1 <= k <= n0 -> n0 - k < Z.of_nat fuel ->
    exists s k',
      NumberToString.shortest fuel x (n * de) de n0 k = (s, k', n0) /\
      k <= k' <= n0 /\ 0 < s /\ s * 10 ^ (n0 - k') = n.
Proof.
  subst x. assert (H253 : 2 * 10 ^ 15 < 2 ^ 53) by reflexivity.
  induction fuel as [|fuel IH]; intros k Hk Hf; [lia|].
  set (p := n0 - k).
  assert (Hp : 0 <= p <= n0 - 1) by (unfold p; lia).
  assert (Hpow : 0 < 10 ^ p) by (apply Z.pow_pos_nonneg; lia).
  assert (Hple : 10 ^ p <= n).
  { apply Z.le_trans with (10 ^ (n0 - 1)); [apply Z.pow_le_mono_r; lia|lia]. }
  set (lo := n / 10 ^ p).
  pose proof (Z.div_mod n (10 ^ p) ltac:(lia)) as Hdiv.
  pose proof (Z.mod_pos_bound n (10 ^ p) Hpow) as Hmod.
  fold lo in Hdiv.
  assert (Hlo : 0 < lo) by (unfold lo; apply Z.div_str_pos; lia).
  assert (Edec : forall m, 0 < m -> Float64.of_decimal m p = Float64.of_Z (m * 10 ^ p)).
  { intros m Hm. unfold Float64.of_decimal. destruct m; try lia.
    destruct p; try lia; reflexivity. }
  cbn [NumberToString.shortest]. fold p. rewrite (floor_scaled_whole p) by lia.
  fold lo. rewrite !Edec, !eqb_whole by nia.
  replace (0 <? lo) with true by (symmetry; apply Z.ltb_lt; lia).
  replace ((lo + 1) * 10 ^ p =? n) with false by (symmetry; apply Z.eqb_neq; nia).
  cbn [andb]. rewrite andb_false_r.
  destruct (Z.eqb_spec (lo * 10 ^ p) n) as [E|E].
  - exists lo, k. split; [reflexivity|]. split; [lia|]. split; [lia|exact E].
  - assert (k <> n0).
    { intros ->. apply E. unfold lo, p. replace (n0 - n0) with 0 by lia.
      change (10 ^ 0) with 1. rewrite Z.div_1_r. lia. }
    destruct (IH (k + 1) ltac:(lia) ltac:(lia)) as (s & k' & Hs & Hk' & Hspos & Hval).
    exists s, k'. split; [exact Hs|]. split; [lia|]. split; assumption.
Qed.
End WholeToString.

Lemma decimal_magnitude (n : Z) : forall k : nat,
  0 < n < 10 ^ Z.of_nat k ->
  exists n0, 1 <= n0 <= Z.of_nat k /\ 10 ^ (n0 - 1) <= n < 10 ^ n0.
Proof.
  induction k as [|k IH]; intros H; [simpl in H; lia|].
  destruct (Z_lt_le_dec n (10 ^ Z.of_nat k)) as [Hlt|Hge].
  - destruct (IH ltac:(lia)) as (n0 & H1 & H2). exists n0. split; [lia|exact H2].
  - exists (Z.of_nat (S k)). split; [lia|].
    replace (Z.of_nat (S k) - 1) with (Z.of_nat k) by lia. lia.
Qed.

Lemma num_den_whole (m : positive) :
  Zpos (digits2_pos m) <= 53 ->
  NumberToString.num (shl m (53 - Zpos (digits2_pos m))) (Zpos (digits2_pos m) - 53)
  = Zpos m * 2 ^ (53 - Zpos (digits2_pos m)) /\
  NumberToString.den (Zpos (digits2_pos m) - 53) = 2 ^ (53 - Zpos (digits2_pos m)).
Proof.
  intros D. set (d := Zpos (digits2_pos m)) in *.
  assert (1 <= d) by (unfold d; lia).
  unfold NumberToString.num, NumberToString.den.
  destruct (d - 53) as [|q|q] eqn:E; try lia.
  - replace (53 - d) with 0 by lia. split; [simpl; lia|reflexivity].
  - replace (53 - d) with (Zpos q) by lia.
    split; [apply (Zpos_shl m (Zpos q)); lia|reflexivity].
Qed.

Lemma positive_finite_whole (m : positive) :
  Zpos m < 10 ^ 15 ->
  NumberToString.positive_finite
    (shl m (53 - Zpos (digits2_pos m))) (Zpos (digits2_pos m) - 53)
  = NumberToString.digits (Zpos m).
Proof.
  intros Hm. assert (H253 : 10 ^ 15 < 2 ^ 53) by reflexivity.
  assert (Hn : 0 < Zpos m < 10 ^ 15) by lia.
  destruct (decimal_magnitude (Zpos m) 15 Hn) as (n0 & Hn0 & Hlow & Hhigh).
  pose proof (digits2_bound m ltac:(lia)) as D.
  pose proof (of_Z_pos m ltac:(lia)) as Hx.
  unfold NumberToString.positive_finite.
  destruct (num_den_whole m D) as [-> ->].
  set (de := 2 ^ (53 - Zpos (digits2_pos m))).
  assert (Hde : 0 < de) by (apply Z.pow_pos_nonneg; lia).
  rewrite (magnitude_whole (Zpos m) de Hn Hde n0 ltac:(lia) Hlow Hhigh 800 (-400))
    by lia.
  destruct (shortest_whole (Zpos m) de Hn Hde n0 ltac:(lia) Hlow Hhigh _
              (eq_sym Hx) 17 1 ltac:(lia) ltac:(lia))
    as (s & k' & -> & Hk' & Hs & Hval).
  unfold NumberToString.layout.
  replace ((k' <=? n0) && (n0 <=? 21)) with true
    by (symmetry; apply andb_true_intro; split; apply Z.leb_le; lia).
  rewrite <- (digits_shift s (Z.to_nat (n0 - k')) Hs).
  rewrite Z2Nat.id by lia. rewrite Hval. reflexivity.
Qed.

Lemma digits_word (n : Z) :
  0 <= n ->
  all_chars word_char (NumberToString.digits n) = true /\
  NumberToString.digits n <> "" /\
  exists c r, NumberToString.digits n = String c r /\ is_digit c = true.
Proof.
  intros Hn. destruct (digits_uint n Hn) as (d & Hnil & _ & ->).
  split; [|split].
  - clear Hnil. induction d; [reflexivity|cbn [NilEmpty.string_of_uint all_chars];
      rewrite IHd; reflexivity..].
  - destruct d; [contradiction|discriminate..].
  - exact (string_of_uint_first d Hnil).
Qed.

(** X18 (parseAtom, printExpr): whole numbers and their numerals. The
    decimal numeral of any whole number, of whatever length, is read as the
    binary64 number nearest to it; and a whole number of magnitude below
    [10^15] is printed as its decimal numeral, which is therefore a
    canonical atom: reading it and printing the result gives it back. *)
Theorem whole_numbers_and_numerals (n : Z) :
  parseAtom (numeral n) = num n /\
  (Z.abs n < 10 ^ 15 ->
   printExpr (num n) = numeral n /\ canonical_atom (numeral n) = true).
Proof.
  split; [exact (parseAtom_numeral n)|]. intros Hn.
  assert (Hprint : printExpr (num n) = numeral n).
  { unfold numeral, num. cbn [printExpr js_String].
    destruct n as [|m|m]; [reflexivity| |].
    - cbn [Z.ltb Z.compare]. rewrite of_Z_pos by lia.
      cbn [NumberToString.to_string]. apply positive_finite_whole. lia.
    - cbn [Z.ltb Z.compare]. change (- Zneg m) with (Zpos m).
      rewrite of_Z_neg, of_Z_pos by lia. cbn [SFopp NumberToString.to_string].
      f_equal. apply positive_finite_whole. lia. }
  split; [exact Hprint|].
  unfold canonical_atom. rewrite (parseAtom_numeral n), Hprint, String.eqb_refl, andb_true_r.
  unfold numeral, is_word.
  destruct (Z.ltb_spec n 0) as [Hneg|Hpos].
  - destruct (digits_word (- n) ltac:(lia)) as (Hall & _ & _).
    change ("-" +:+ NumberToString.digits (- n))
      with (String "-" (NumberToString.digits (- n))).
    cbn [String.eqb all_chars Ascii.eqb Bool.eqb negb andb]. rewrite Hall. reflexivity.
  - destruct (digits_word n Hpos) as (Hall & Hne & c & r & E & Hc).
    destruct (is_digit_not c Hc) as (_ & _ & _ & _ & _ & Hq & _).
    rewrite Hall. rewrite E. cbn [String.eqb]. rewrite Hq. reflexivity.
Qed.

Lemma whole_numbers_and_numerals_witness :
  parseAtom "123456789012345678" = num 123456789012345678 /\
  printExpr (num (-120000)) = "-120000" /\
  canonical_atom "999999999999999" = true.
Proof.
  split; [exact (proj1 (whole_numbers_and_numerals 123456789012345678))|].
  split.
  - exact (proj1 (proj2 (whole_numbers_and_numerals (-120000)) eq_refl)).
  - exact (proj2 (proj2 (whole_numbers_and_numerals 999999999999999) eq_refl)).
Defined.
